(** * memory-transformer-pt4: KV-cache handling, the Minato optimizer and the
      training loop, embedded in Rocq.

    The development follows the three Python sources:
    - [src/model/modeling.py]   : [trim_cache], [cache_to], [LSWTModel.forward];
    - [src/training/minato.py]  : [Minato.__init__], [Minato.step], [minato],
                                  [_single_tensor_minato];
    - [src/training/trainer.py] : [_load_cache], [_load_optimizer],
                                  [get_schedule], [TrainerDDP.train_batch_step].

    Python exceptions are values of [exn]; a call that may raise returns a
    [result].  Tensors are records holding their flags and their elements.
    Tensor arithmetic of the optimizer is written over a [Scalar] interface
    with two instances: the floating-point numbers of the program (Python
    floats in binary64, tensor elements in binary32, after the IEEE 754
    specification [SpecFloat]) and exact rationals ([Qc]); the
    learning-rate schedule, which uses [cos] and [pi], is written over the
    real numbers. *)

From Stdlib Require Import Reals Lra QArith Qcanon Qcabs SpecFloat.
From stdpp Require Import gmap strings list fin_maps.

(* ===================================================================== *)
(** * Part I: the embedding                                               *)
(* ===================================================================== *)

(** ** Python exceptions and results *)

Module Py.

Inductive exn : Type :=
| ValueError (msg : string)
| TypeError (msg : string)
| RuntimeError (msg : string)
| AttributeError (msg : string)
| AssertionError
| IndexError
| ZeroDivisionError.

Inductive result (A : Type) : Type :=
| Ok (a : A)
| Raise (e : exn).
Arguments Ok {A} a.
Arguments Raise {A} e.

Definition bind {A B} (m : result A) (k : A → result B) : result B :=
  match m with
  | Ok a => k a
  | Raise e => Raise e
  end.

#[global] Instance result_ret : MRet result := fun _ a => Ok a.
#[global] Instance result_bind : MBind result := fun _ _ k m => bind m k.
#[global] Instance result_fmap : FMap result :=
  fun _ _ f m => bind m (fun a => Ok (f a)).

Definition is_ok {A} (m : result A) : bool :=
  match m with Ok _ => true | Raise _ => false end.

(** [xs[i]] on a Python list, for an index [i >= 0]. *)
Definition getitem {A} (xs : list A) (i : nat) : result A :=
  match xs !! i with
  | Some x => Ok x
  | None => Raise IndexError
  end.

(** [xs[start:]] on one axis: a negative [start] counts from the end, and
    the bounds are clamped to [0, len]. *)
Definition slice_from {A} (start : Z) (xs : list A) : list A :=
  let n := Z.of_nat (length xs) in
  let s := if (start <? 0)%Z then Z.max (start + n) 0 else Z.min start n in
  drop (Z.to_nat s) xs.

End Py.
Import Py.

(** ** modeling.py *)

Module Modeling.
Section Model.

(** Element type of the tensors (a float16/float32 number in the source). *)
Context {A : Type}.

(** A key or value tensor of shape (batch, heads, sequence, head_dim):
    [kv_data t] is indexed batch, then head, then sequence position, and a
    position is a row of [head_dim] elements.  [kv_attached] says whether
    the tensor carries autograd history. *)
Record KV : Type := mkKV {
  kv_device : string;
  kv_attached : bool;
  kv_data : list (list (list (list A)))
}.

(** [kv[:, :, start:, :]]: a slice of the sequence axis; device and
    autograd history are those of [kv]. *)
Definition slice_seq (start : Z) (kv : KV) : KV :=
  {| kv_device := kv_device kv;
     kv_attached := kv_attached kv;
     kv_data := map (map (slice_from start)) (kv_data kv) |}.

(** Every (batch, head) entry of [kv] holds [L] positions: the size of
    the sequence axis is [L]. *)
Definition has_seq_len (L : nat) (kv : KV) : Prop :=
  Forall (Forall (fun positions => length positions = L)) (kv_data kv).

(** [kv] restricted to its last [k] positions. *)
Definition last_positions (k : nat) (kv : KV) : KV :=
  {| kv_device := kv_device kv;
     kv_attached := kv_attached kv;
     kv_data := map (map (fun positions => drop (length positions - k) positions))
                    (kv_data kv) |}.

Definition detach (kv : KV) : KV :=
  {| kv_device := kv_device kv; kv_attached := false; kv_data := kv_data kv |}.

(** [kv.to(device=device, non_blocking=non_blocking)]; the flag changes
    when the copy happens, not what is copied. *)
Definition to (device : string) (non_blocking : bool) (kv : KV) : KV :=
  {| kv_device := device; kv_attached := kv_attached kv; kv_data := kv_data kv |}.

(** [LSWTPreTrainedModel.trim_cache]:
    [[ kv[:, :, -trim:, :] for kv in cache ]] when [trim is not None]. *)
Definition trim_cache (cache : list KV) (trim : option Z) : list KV :=
  match trim with
  | Some t => map (slice_seq (- t)) cache
  | None => cache
  end.

(** [LSWTPreTrainedModel.cache_to]. *)
Definition cache_to (cache : option (list (list KV))) (device : string)
  (trim : Z) (non_blocking : bool) : option (list (list KV)) :=
  match cache with
  | Some c =>
      Some (map (map (fun kv => to device non_blocking
                                   (slice_seq (- trim) (detach kv)))) c)
  | None => None
  end.

(** *** [LSWTModel.forward]

    The layers ([layers.py]) are outside the model: they are the section's
    variables. *)
Context {Ids Emb Rope : Type}.
Variable input_embedding : Ids → Emb.
Variable input_proj : Emb → Emb.
Variable input_norm : Emb → Emb.
Variable output_norm : Emb → Emb.
Variable rope_embedding : Emb → option (list (list KV)) → Rope.
Variable blocks : nat → Emb → option (list KV) → Rope → Emb * list KV.
Variable n_layers : nat.

Record BaseModelOutputWithPast : Type := mkOutput {
  last_hidden_state : Emb;
  past_key_values : list (list KV);
  hidden_states : list Emb
}.

(** One iteration of [for i in range(self.config.n_layers)]; the loop
    state is the running embeddings, [hidden_state_list] and
    [past_key_value_list]. *)
Definition layer_step (past : option (list (list KV))) (max_key_values : option Z)
  (rope : Rope) (acc : result (Emb * list Emb * list (list KV))) (i : nat)
  : result (Emb * list Emb * list (list KV)) :=
  '(embeddings, hidden_state_list, past_key_value_list) ← acc;
  curr_key_values ← match past with
                     | Some p => kv ← getitem p i; Ok (Some kv)
                     | None => Ok None
                     end;
  let '(embeddings', new_key_values) := blocks i embeddings curr_key_values rope in
  Ok (embeddings',
      hidden_state_list ++ [embeddings'],
      past_key_value_list ++ [trim_cache new_key_values max_key_values]).

(** The body of [forward] once the input embeddings are known: input
    normalisation, rotary embeddings, the layer loop, output normalisation. *)
Definition forward_layers (embeddings : Emb) (past : option (list (list KV)))
  (max_key_values : option Z) : result BaseModelOutputWithPast :=
  let embeddings := input_norm embeddings in
  let rope := rope_embedding embeddings past in
  '(embeddings, hidden_state_list, past_key_value_list) ←
    foldl (layer_step past max_key_values rope)
          (Ok (embeddings, [embeddings], [])) (seq 0 n_layers);
  Ok {| last_hidden_state := output_norm embeddings;
        past_key_values := past_key_value_list;
        hidden_states := hidden_state_list |}.

(** [LSWTModel.forward]: the two guards, then the embedding of
    [input_ids] (or [inputs_embeds] as given), then the layers. *)
Definition forward (input_ids : option Ids) (inputs_embeds : option Emb)
  (past : option (list (list KV))) (max_key_values : option Z)
  : result BaseModelOutputWithPast :=
  match input_ids, inputs_embeds with
  | Some _, Some _ =>
      Raise (ValueError "You cannot specify both input_ids and inputs_embeds at the same time")
  | None, None =>
      Raise (ValueError "You have to specify either input_ids or inputs_embeds")
  | Some ids, None =>
      forward_layers (input_proj (input_embedding ids)) past max_key_values
  | None, Some embeds =>
      forward_layers embeds past max_key_values
  end.

End Model.
End Modeling.

(** ** minato.py *)

(** Arithmetic on tensor elements and Python floats.  The update rule is
    written against this interface, so that what is proved of its control
    flow holds for every arithmetic, rounded or exact. *)
Class Scalar (num : Type) : Type := {
  lit : Q → num;                      (* a numeric literal of Python *)
  tensor_of : num → num;              (* [torch.tensor(x)], [torch.zeros]: an element *)
  add : num → num → num;
  sub : num → num → num;
  mul : num → num → num;
  div : num → num → num;
  neg : num → num;
  abs : num → num;
  sign : num → num;                   (* -1, 0 or 1 *)
  clamp_max : num → num → num;        (* [x.clamp(None, hi)] *)
  leb : num → num → bool;             (* [x <= y] *)
  ltb : num → num → bool              (* [x < y] *)
}.

(** Exact rational arithmetic. *)
Definition Qcsign (x : Qc) : Qc :=
  match (x ?= 0)%Qc with
  | Lt => (- 1)%Qc
  | Eq => 0%Qc
  | Gt => 1%Qc
  end.

Definition Qcclamp_max (x hi : Qc) : Qc :=
  match (x ?= hi)%Qc with
  | Gt => hi
  | _ => x
  end.

#[global] Instance Qc_Scalar : Scalar Qc := {|
  lit := Q2Qc;
  tensor_of := fun x => x;
  add := Qcplus;
  sub := Qcminus;
  mul := Qcmult;
  div := Qcdiv;
  neg := Qcopp;
  abs := Qcabs;
  sign := Qcsign;
  clamp_max := Qcclamp_max;
  leb := fun x y => match (x ?= y)%Qc with Gt => false | _ => true end;
  ltb := fun x y => match (x ?= y)%Qc with Lt => true | _ => false end
|}.

(** Floating-point arithmetic, as the program computes.  A Python float
    is a binary64 number; the tensors of the optimizer hold binary32
    numbers ([torch.float32], the default dtype of parameters and the dtype
    of the step counter that [step] creates).  An operation on two Python
    floats is carried out in binary64.  An operation with a tensor element
    is carried out in binary32, a Python operand being converted to
    binary32 first.  Every operation rounds to nearest, ties to even, and
    rounds on its own: a kernel that fuses a product with a sum rounds once
    where two operations round twice, which makes no difference where the
    product is exact, as it is in the results on given numbers below. *)
Module Floats.
Local Open Scope Z_scope.

Inductive fnum : Type :=
  | PyF (x : spec_float)               (* a Python float, binary64 *)
  | T32 (x : spec_float).              (* an element of a float32 tensor *)

(** The Python float that a decimal literal denotes: the binary64 number
    nearest to it. *)
Definition double_of_Q (q : Q) : spec_float :=
  match Qnum q with
  | Z0 => S754_zero false
  | Zpos a => SFdiv 53 1024 (S754_finite false a 0) (S754_finite false (Qden q) 0)
  | Zneg a => SFdiv 53 1024 (S754_finite true a 0) (S754_finite false (Qden q) 0)
  end.

(** Conversion of a binary64 number to binary32. *)
Definition to_float32 (x : spec_float) : spec_float :=
  match x with
  | S754_finite s m e => binary_round 24 128 s m e
  | _ => x
  end.

(** The operand of a tensor operation. *)
Definition elem (v : fnum) : spec_float :=
  match v with PyF x => to_float32 x | T32 x => x end.

Definition arith (op : Z → Z → spec_float → spec_float → spec_float) (x y : fnum)
  : fnum :=
  match x, y with
  | PyF a, PyF b => PyF (op 53 1024 a b)
  | _, _ => T32 (op 24 128 (elem x) (elem y))
  end.

Definition pointwise (f : spec_float → spec_float) (v : fnum) : fnum :=
  match v with PyF x => PyF (f x) | T32 x => T32 (f x) end.

Definition one64 : spec_float := S754_finite false 4503599627370496 (-52).
Definition one32 : spec_float := S754_finite false 8388608 (-23).

(** [torch.sign]: [(0 < x) - (x < 0)], so zero for both zeros and for NaN. *)
Definition SFsign (one x : spec_float) : spec_float :=
  match x with
  | S754_finite s _ _ | S754_infinity s => if s then SFopp one else one
  | _ => S754_zero false
  end.

(** [min(x, hi)], keeping a NaN [x]. *)
Definition SFclamp_max (x hi : spec_float) : spec_float :=
  if SFltb hi x then hi else x.

Definition compare_with (cmp : spec_float → spec_float → bool) (x y : fnum) : bool :=
  match x, y with
  | PyF a, PyF b => cmp a b
  | _, _ => cmp (elem x) (elem y)
  end.

#[global] Instance float_Scalar : Scalar fnum := {|
  lit := fun q => PyF (double_of_Q q);
  tensor_of := fun v => T32 (elem v);
  add := arith SFadd;
  sub := arith SFsub;
  mul := arith SFmul;
  div := arith SFdiv;
  neg := pointwise SFopp;
  abs := pointwise SFabs;
  sign := fun v => match v with
                   | PyF x => PyF (SFsign one64 x)
                   | T32 x => T32 (SFsign one32 x)
                   end;
  clamp_max := fun x hi => match x, hi with
                           | PyF a, PyF b => PyF (SFclamp_max a b)
                           | _, _ => T32 (SFclamp_max (elem x) (elem hi))
                           end;
  leb := compare_with SFleb;
  ltb := compare_with SFltb
|}.

(** The binary32 number nearest to an integer. *)
Definition f32_of_Z (k : Z) : spec_float := binary_normalize 24 128 k 0 false.

(** The rational number that a finite floating-point number is. *)
Definition F2Q (x : spec_float) : Q :=
  match x with
  | S754_finite s m (Zneg p) => (cond_Zopp s (Zpos m) # 2 ^ p)%Q
  | S754_finite s m e => inject_Z (cond_Zopp s (Zpos m) * 2 ^ e)
  | _ => 0%Q
  end.

Definition exact_value (v : fnum) : Qc :=
  match v with PyF x | T32 x => Q2Qc (F2Q x) end.

Definition is_T32 (v : fnum) : bool :=
  match v with T32 _ => true | PyF _ => false end.

(** A tensor element that is zero. *)
Definition zero_elem (v : fnum) : bool :=
  match v with T32 (S754_zero _) => true | _ => false end.

(** The number is finite as a binary32 operand. *)
Definition finite32 (v : fnum) : bool :=
  match elem v with S754_zero _ | S754_finite _ _ _ => true | _ => false end.

(** Finite as a binary32 operand, and positive or [+0]. *)
Definition nonneg32 (v : fnum) : bool :=
  match elem v with S754_zero false | S754_finite false _ _ => true | _ => false end.

End Floats.

Module MinatoMod.
Section Optimizer.

Context {num : Type} `{Scalar num}.

(** A tensor of the optimizer: its placement, its dtype class, its layout
    and its real storage (for a complex tensor the interleaved real and
    imaginary parts, which is what [torch.view_as_real] exposes). *)
Record Tensor : Type := mkTensor {
  is_cuda : bool;
  is_complex : bool;
  is_sparse : bool;
  data : list num
}.

Definition with_data (t : Tensor) (d : list num) : Tensor :=
  {| is_cuda := is_cuda t; is_complex := is_complex t;
     is_sparse := is_sparse t; data := d |}.

(** [torch.view_as_real]: a real view sharing the storage of a complex
    tensor; torch raises on a tensor that is not complex. *)
Definition view_as_real (t : Tensor) : result Tensor :=
  if is_complex t
  then Ok {| is_cuda := is_cuda t; is_complex := false;
             is_sparse := is_sparse t; data := data t |}
  else Raise (RuntimeError "view_as_real is only supported for complex tensors").

(** The learning rate of a parameter group: a Python float, or a
    zero-dimensional tensor. *)
Inductive pynum : Type :=
  | PyFloat (x : num)
  | PyTensor (x : num).

Definition value (v : pynum) : num :=
  match v with PyFloat x | PyTensor x => x end.

(** [v.neg()]: a method of tensors, not of Python floats. *)
Definition neg_method (v : pynum) : result num :=
  match v with
  | PyTensor x => Ok (neg x)
  | PyFloat _ => Raise (AttributeError "'float' object has no attribute 'neg'")
  end.

Record hyper : Type := mkHyper {
  beta : num;
  lr : pynum;
  weight_decay : num;
  maximize : bool;
  capturable : bool
}.

(** [(exp_avg.abs() / (0.0 + 1e-15)).clamp(None, 1)] *)
Definition ratio_of (exp_avg : list num) : list num :=
  (fun m => clamp_max (div (abs m) (add (lit 0) (lit (1 # 1000000000000000)))) (lit 1))
    <$> exp_avg.

(** [param.addcmul_(t1, t2, value=v)]: [param + v * t1 * t2], elementwise. *)
Definition addcmul (param t1 t2 : list num) (v : num) : list num :=
  zip_with (fun p x => add p (mul v x)) param (zip_with mul t1 t2).

(** The body of the loop of [_single_tensor_minato] for one parameter.
    It returns the new contents of [param], [exp_avg] and [step_t], which
    the source updates in place. *)
Definition update_param (h : hyper) (param grad exp_avg step_t : Tensor)
  : result (Tensor * Tensor * Tensor) :=
  let grad := if maximize h then with_data grad (neg <$> data grad) else grad in
  _ ← (if capturable h
       then if is_cuda param && is_cuda step_t then Ok () else Raise AssertionError
       else Ok ());
  '(grad_v, exp_avg_v, param_v) ←
    (if is_complex param
     then g ← view_as_real grad; m ← view_as_real exp_avg; p ← view_as_real param;
          Ok (g, m, p)
     else Ok (grad, exp_avg, param));
  (* update step *)
  let step_d := (fun s => add s (lit 1)) <$> data step_t in
  (* Perform stepweight decay *)
  let param_d :=
    (fun p => mul p (sub (lit 1) (mul (value (lr h)) (weight_decay h)))) <$> data param_v in
  (* exp_avg.mul_(beta).add_(grad, alpha=1 - beta) *)
  let exp_avg_d :=
    zip_with (fun m g => add (mul m (beta h)) (mul (sub (lit 1) (beta h)) g))
             (data exp_avg_v) (data grad_v) in
  step_size_neg ← (if capturable h then neg_method (lr h) else Ok (neg (value (lr h))));
  let ratio := ratio_of exp_avg_d in
  let param_d := addcmul param_d (sign <$> exp_avg_d) ratio step_size_neg in
  Ok (with_data param param_d, with_data exp_avg exp_avg_d, with_data step_t step_d).

(** One iteration of [for i, param in enumerate(params)]. *)
Definition minato_iter (h : hyper) (grads : list Tensor)
  (acc : result (list Tensor * list Tensor * list Tensor)) (i : nat)
  : result (list Tensor * list Tensor * list Tensor) :=
  '(params, exp_avgs, state_steps) ← acc;
  param ← getitem params i;
  grad ← getitem grads i;
  exp_avg ← getitem exp_avgs i;
  step_t ← getitem state_steps i;
  '(param', exp_avg', step_t') ← update_param h param grad exp_avg step_t;
  Ok (<[i := param']> params, <[i := exp_avg']> exp_avgs, <[i := step_t']> state_steps).

(** [_single_tensor_minato]: the lists after the in-place updates, as
    (params, exp_avgs, state_steps). *)
Definition _single_tensor_minato (params grads exp_avgs state_steps : list Tensor)
  (h : hyper) : result (list Tensor * list Tensor * list Tensor) :=
  foldl (minato_iter h grads) (Ok (params, exp_avgs, state_steps))
        (seq 0 (length params)).

(** What iteration [i] computes from the [i]-th entries of the lists. *)
Definition item_update (h : hyper) (params grads exp_avgs state_steps : list Tensor)
  (i : nat) : result (Tensor * Tensor * Tensor) :=
  param ← getitem params i;
  grad ← getitem grads i;
  exp_avg ← getitem exp_avgs i;
  step_t ← getitem state_steps i;
  update_param h param grad exp_avg step_t.

(** The state of the loop of [_single_tensor_minato] after [n]
    iterations, in terms of the lists it started from. *)
Definition loop_post (h : hyper) (grads ps0 ms0 ss0 : list Tensor) (n : nat)
  (r : result (list Tensor * list Tensor * list Tensor)) : Prop :=
  match r with
  | Ok (ps, ms, ss) =>
      (length ps = length ps0 ∧ length ms = length ms0 ∧ length ss = length ss0)
      ∧ (∀ k, n ≤ k → ps !! k = ps0 !! k ∧ ms !! k = ms0 !! k ∧ ss !! k = ss0 !! k)
      ∧ (∀ k, k < n → ∃ p' m' s',
            item_update h ps0 grads ms0 ss0 k = Ok (p', m', s')
            ∧ ps !! k = Some p' ∧ ms !! k = Some m' ∧ ss !! k = Some s')
  | Raise e => ∃ k, k < n ∧ item_update h ps0 grads ms0 ss0 k = Raise e
  end.

(** [minato]: every element of [state_steps] is a tensor here, so the
    [isinstance] guard passes and the call is forwarded. *)
Definition minato (params grads exp_avgs state_steps : list Tensor) (h : hyper)
  : result (list Tensor * list Tensor * list Tensor) :=
  _single_tensor_minato params grads exp_avgs state_steps h.

(** [t.is_cuda], as a proposition. *)
Definition on_cuda (t : Tensor) : Prop := is_cuda t = true.

(** The parameters and step counters of a loop state are on the
    accelerator. *)
Definition all_on_cuda (acc : result (list Tensor * list Tensor * list Tensor)) : Prop :=
  match acc with
  | Ok (params, _, state_steps) => Forall on_cuda params ∧ Forall on_cuda state_steps
  | Raise _ => True
  end.

(** *** The [Minato] class *)

(** A [torch.nn.Parameter]: [p_id] stands for the identity of the object,
    the key of [self.state]. *)
Record Param : Type := mkParam {
  p_id : nat;
  p_data : Tensor;
  p_grad : option Tensor
}.

(** An entry of [self.param_groups]. *)
Record Group : Type := mkGroup {
  g_params : list Param;
  g_hyper : hyper
}.

(** [self.state[p]]: created by the first [step] that sees a gradient of [p]. *)
Record PState : Type := mkPState {
  st_step : Tensor;
  st_exp_avg : Tensor
}.

Record Minato : Type := mkMinato {
  defaults : hyper;
  param_groups : list Group;
  state : gmap nat PState
}.

(** What [get_param_groups] passes as [params]: dictionaries with the key
    ['params'] and, for the second one, ['weight_decay']. *)
Record group_spec : Type := mkSpec {
  gs_params : list Param;
  gs_weight_decay : option num
}.

(** Values passed as keyword arguments to the optimizer constructors. *)
Inductive pyval : Type :=
  | VFloat (x : num)
  | VTensor (x : num)
  | VBool (b : bool)
  | VTuple (x y : pyval)               (* a pair, such as [betas] *)
  | VParams (gs : list group_spec).

Definition kwargs : Type := list (string * pyval).

(** Binding of a call made with keyword arguments only against the
    parameter names of a function without a [**kwargs] catch-all: a
    keyword that names no parameter raises [TypeError]. *)
Definition bind_kwargs (fname : string) (names : list string) (kw : kwargs)
  : result (gmap string pyval) :=
  match List.find (fun a => negb (bool_decide (a.1 ∈ names))) kw with
  | Some a => Raise (TypeError (fname +:+ " got an unexpected keyword argument '"
                                      +:+ a.1 +:+ "'"))
  | None => Ok (list_to_map kw)
  end.

Definition float_arg (args : gmap string pyval) (name : string) (dflt : num)
    : result pynum :=
  match args !! name with
  | None => Ok (PyFloat dflt)
  | Some (VFloat x) => Ok (PyFloat x)
  | Some (VTensor x) => Ok (PyTensor x)
  | Some (VBool b) => Ok (PyFloat (lit (if b then 1 else 0)))
  | Some (VTuple _ _) | Some (VParams _) =>
      Raise (TypeError "'<=' not supported between instances of 'float' and a sequence")
  end.

(** The truth value of an argument used as a flag. *)
Definition bool_arg (args : gmap string pyval) (name : string) (dflt : bool) : bool :=
  match args !! name with
  | Some (VBool b) => b
  | Some (VFloat x) | Some (VTensor x) => negb (leb x (lit 0) && leb (lit 0) x)
  | Some (VTuple _ _) | Some (VParams (_ :: _)) => true
  | Some (VParams []) => false
  | None => dflt
  end.

(** [Minato.__init__(self, params, lr=1e-4, beta=0.9, weight_decay=2e-1, *,
    maximize=False, capturable=False)], in the order of the source: the
    binding of the arguments, the three range checks, each comparing its
    own argument, and then [Optimizer.__init__(params, defaults)].  The
    messages of the [ValueError]s are given without the formatted number.
    Of [Optimizer.__init__], which is torch's, the model keeps the type
    check of [params], the rejection of an empty list and the defaults of
    the groups; torch also rejects a parameter that is in two groups, which
    is not modelled: the groups are taken to be disjoint. *)
Definition Minato_init (kw : kwargs) : result Minato :=
  args ← bind_kwargs "Minato.__init__()"
            ["params"; "lr"; "beta"; "weight_decay"; "maximize"; "capturable"] kw;
  params ← match args !! "params" with
            | Some v => Ok v
            | None => Raise (TypeError "Minato.__init__() missing 1 required positional argument: 'params'")
            end;
  lr_ ← float_arg args "lr" (lit (1 # 10000));
  if negb (leb (lit 0) (value lr_)) then Raise (ValueError "Invalid learning rate")
  else
  beta_ ← float_arg args "beta" (lit (9 # 10));
  if negb (leb (lit 0) (value beta_) && ltb (value beta_) (lit 1))
  then Raise (ValueError "Invalid beta parameter")
  else
  wd_ ← float_arg args "weight_decay" (lit (2 # 10));
  if negb (leb (lit 0) (value wd_))
  then Raise (ValueError "Invalid weight_decay value")
  else
  let maximize_ := bool_arg args "maximize" false in
  let capturable_ := bool_arg args "capturable" false in
  let dflt := {| beta := value beta_; lr := lr_; weight_decay := value wd_;
                 maximize := maximize_; capturable := capturable_ |} in
  match params with
  | VParams [] => Raise (ValueError "optimizer got an empty parameter list")
  | VParams gs =>
        Ok {| defaults := dflt;
              param_groups :=
                (fun gs => {| g_params := gs_params gs;
                              g_hyper := {| beta := beta dflt; lr := lr dflt;
                                            weight_decay := default (weight_decay dflt)
                                                                    (gs_weight_decay gs);
                                            maximize := maximize dflt;
                                            capturable := capturable dflt |} |}) <$> gs;
              state := ∅ |}
  | _ => Raise (TypeError "params argument given to the optimizer should be an iterable of Tensors or dicts")
  end.

(** State initialisation of [step]: the step counter is a tensor on the
    device of [p] in capturable mode and a CPU scalar tensor otherwise;
    [exp_avg] is [zeros_like(p)]. *)
Definition init_state (capt : bool) (p : Param) : PState :=
  {| st_step := {| is_cuda := if capt then is_cuda (p_data p) else false;
                   is_complex := false; is_sparse := false;
                   data := [tensor_of (lit 0)] |};
     st_exp_avg := with_data (p_data p)
                     ((fun _ => tensor_of (lit 0)) <$> data (p_data p)) |}.

(** The four lists that [step] builds for one group. *)
Record gathered : Type := mkGathered {
  ga_state : gmap nat PState;
  ga_params : list Param;          (* params_with_grad *)
  ga_grads : list Tensor;
  ga_exp_avgs : list Tensor;
  ga_steps : list Tensor
}.

(** [for p in group['params']: ...] of [step]. *)
Fixpoint gather (capt : bool) (ps : list Param) (st : gmap nat PState)
  : result gathered :=
  match ps with
  | [] => Ok (mkGathered st [] [] [] [])
  | p :: ps' =>
      match p_grad p with
      | None => gather capt ps' st
      | Some g =>
          if is_sparse g
          then Raise (RuntimeError "Hero does not support sparse gradients")
          else
            let s := default (init_state capt p) (st !! p_id p) in
            r ← gather capt ps' (<[p_id p := s]> st);
            Ok (mkGathered (ga_state r) (p :: ga_params r) (g :: ga_grads r)
                           (st_exp_avg s :: ga_exp_avgs r) (st_step s :: ga_steps r))
      end
  end.

(** The in-place updates seen from the parameters of the group: the k-th
    parameter with a gradient holds the k-th updated tensor. *)
Fixpoint scatter (ps : list Param) (new : list Tensor) : list Param :=
  match ps with
  | [] => []
  | p :: ps' =>
      match p_grad p, new with
      | Some _, d :: new' =>
          {| p_id := p_id p; p_data := d; p_grad := p_grad p |} :: scatter ps' new'
      | _, _ => p :: scatter ps' new
      end
  end.

(** The in-place updates seen from [self.state]. *)
Fixpoint store (ids : list nat) (exp_avgs steps : list Tensor)
  (st : gmap nat PState) : gmap nat PState :=
  match ids, exp_avgs, steps with
  | i :: ids', m :: exp_avgs', s :: steps' =>
      store ids' exp_avgs' steps' (<[i := {| st_step := s; st_exp_avg := m |}]> st)
  | _, _, _ => st
  end.

(** The body of [for group in self.param_groups] of [step]. *)
Definition step_group (capt : bool) (acc : result (list Group * gmap nat PState))
  (group : Group) : result (list Group * gmap nat PState) :=
  '(done, st) ← acc;
  r ← gather capt (g_params group) st;
  '(params', exp_avgs', steps') ←
    minato (p_data <$> ga_params r) (ga_grads r) (ga_exp_avgs r) (ga_steps r)
           (g_hyper group);
  Ok (done ++ [{| g_params := scatter (g_params group) params';
                  g_hyper := g_hyper group |}],
      store (p_id <$> ga_params r) exp_avgs' steps' (ga_state r)).

(** [Minato.step] with [closure=None]. *)
Definition step (opt : Minato) : result Minato :=
  '(groups, st) ← foldl (step_group (capturable (defaults opt)))
                        (Ok ([], state opt)) (param_groups opt);
  Ok {| defaults := defaults opt; param_groups := groups; state := st |}.

(** What happens between two calls of [step]: the backward passes and
    [zero_grad] leave each parameter with a gradient or with [None]. *)
Definition set_grads (grads : nat → option Tensor) (opt : Minato) : Minato :=
  {| defaults := defaults opt;
     param_groups :=
       (fun g => {| g_params :=
                      (fun p => {| p_id := p_id p; p_data := p_data p;
                                   p_grad := grads (p_id p) |}) <$> g_params g;
                    g_hyper := g_hyper g |}) <$> param_groups opt;
     state := state opt |}.

(** Successive optimizer steps, one per element of [gradss]. *)
Fixpoint run_steps (opt : Minato) (gradss : list (nat → option Tensor))
  : result Minato :=
  match gradss with
  | [] => Ok opt
  | grads :: rest => opt' ← step (set_grads grads opt); run_steps opt' rest
  end.

(** The elements of the step counter of the parameter [i]; the counter
    that [step] would create is the content of a missing entry. *)
Definition step_value (st : gmap nat PState) (i : nat) : list num :=
  match st !! i with
  | Some s => data (st_step s)
  | None => [tensor_of (lit 0)]
  end.

(** [params_with_grad] of a group. *)
Definition with_grad (ps : list Param) : list Param :=
  filter (λ p, is_Some (p_grad p)) ps.

Definition group_ids (g : Group) : list nat := p_id <$> g_params g.

(** The parameter is real-valued. *)
Definition real_param (p : Param) : Prop := is_complex (p_data p) = false.

(** What a step keeps of a group: its hyperparameters, the identities of
    its parameters, and that they are real-valued if they were. *)
Definition same_group (g g' : Group) : Prop :=
  g_hyper g' = g_hyper g
  ∧ group_ids g' = group_ids g
  ∧ (Forall real_param (g_params g) → Forall real_param (g_params g')).

(** The step counter of [i] after an update, given the state before it. *)
Definition bumped (st st' : gmap nat PState) (i : nat) : Prop :=
  ∃ s', st' !! i = Some s'
        ∧ data (st_step s') = (λ x, add x (lit 1)) <$> step_value st i.

(** Eager groups of real-valued parameters. *)
Definition eager_real (groups : list Group) : Prop :=
  Forall (λ g, capturable (g_hyper g) = false ∧ Forall real_param (g_params g)) groups.

(** No gradient is sparse. *)
Definition dense_grads (ps : list Param) : Prop :=
  Forall (λ p, ∀ g, p_grad p = Some g → is_sparse g = false) ps.

Definition dense (grads : nat → option Tensor) : Prop :=
  ∀ i g, grads i = Some g → is_sparse g = false.

Definition param_ids (opt : Minato) : list nat :=
  g ← param_groups opt; group_ids g.

End Optimizer.
End MinatoMod.

(** ** trainer.py *)

Module TrainerMod.
Import Modeling MinatoMod.

(** The fields of [LSWTConfigTraining] that the trainer reads.  Sizes and
    counts are natural numbers, [lr_cooldown_tokens] is an integer and the
    remaining hyperparameters are floats of type [F]. *)
Record LSWTConfigTraining (F : Type) : Type := mkConfig {
  optimizer : string;
  opt_beta_1 : F;
  opt_beta_2 : F;
  opt_eps : F;
  opt_rho : F;
  opt_weight_decay : F;
  batch_size : N;
  batch_size_step : N;
  length_sequence : N;
  lr_warmup_steps : N;
  lr_cooldown_tokens : Z;
  lr_cooldown_ratio : F;
  lr_max : F
}.
Arguments mkConfig {F}.
Arguments optimizer {F}.
Arguments opt_beta_1 {F}.
Arguments opt_beta_2 {F}.
Arguments opt_eps {F}.
Arguments opt_rho {F}.
Arguments opt_weight_decay {F}.
Arguments batch_size {F}.
Arguments batch_size_step {F}.
Arguments length_sequence {F}.
Arguments lr_warmup_steps {F}.
Arguments lr_cooldown_tokens {F}.
Arguments lr_cooldown_ratio {F}.
Arguments lr_max {F}.

(** The configuration [c] with [optimizer] set to [name]. *)
Definition with_optimizer {F : Type} (name : string) (c : LSWTConfigTraining F)
    : LSWTConfigTraining F :=
  mkConfig name (opt_beta_1 c) (opt_beta_2 c) (opt_eps c) (opt_rho c)
           (opt_weight_decay c) (batch_size c) (batch_size_step c)
           (length_sequence c) (lr_warmup_steps c) (lr_cooldown_tokens c)
           (lr_cooldown_ratio c) (lr_max c).

(** [a // b] on non-negative integers. *)
Definition floordiv (a b : N) : result N :=
  if (b =? 0)%N then Raise ZeroDivisionError else Ok (a / b)%N.

(** [[ None for _ in range(batch_groups) ]] *)
Definition none_slots {C : Type} (batch_groups : N) : list (option C) :=
  replicate (N.to_nat batch_groups) None.

(** [Trainer._load_cache] *)
Definition _load_cache {F C : Type} (train_config : LSWTConfigTraining F)
    : result (list (option C)) :=
  batch_groups ← floordiv (batch_size train_config) (batch_size_step train_config);
  Ok (none_slots batch_groups).

(** [TrainerDDP._load_cache] *)
Definition _load_cache_ddp {F C : Type} (train_config : LSWTConfigTraining F)
    (ddp_world_size : N) : result (list (option C)) :=
  batch_groups ← floordiv (batch_size train_config)
                          (batch_size_step train_config * ddp_world_size);
  Ok (none_slots batch_groups).

(** *** The learning-rate schedule *)

Definition tokens_seen (c : LSWTConfigTraining R) (optimizer_step : N) : Z :=
  Z.of_N optimizer_step * Z.of_N (batch_size c) * Z.of_N (length_sequence c).

Definition warmup_tokens (c : LSWTConfigTraining R) : Z :=
  Z.of_N (lr_warmup_steps c) * Z.of_N (batch_size c) * Z.of_N (length_sequence c).

Definition warmup_ratio (c : LSWTConfigTraining R) (optimizer_step : N) : R :=
  Rmin (IZR (Z.of_N optimizer_step) / IZR (Z.of_N (lr_warmup_steps c))) 1.

(** The three successive values of the variable [cooldown_ratio]. *)
Definition cooldown_progress (c : LSWTConfigTraining R) (optimizer_step : N) : R :=
  Rmin (Rmax (IZR (tokens_seen c optimizer_step - warmup_tokens c)) 0
          / IZR (lr_cooldown_tokens c - warmup_tokens c)) 1.

Definition cooldown_cosine (c : LSWTConfigTraining R) (optimizer_step : N) : R :=
  cos (cooldown_progress c optimizer_step * PI) * 0.5 + 0.5.

Definition cooldown_ratio (c : LSWTConfigTraining R) (optimizer_step : N) : R :=
  cooldown_cosine c optimizer_step * (1 - lr_cooldown_ratio c) + lr_cooldown_ratio c.

(** [Trainer.get_schedule], with [self.optimizer_step] as an argument.
    Both divisions raise on a zero divisor. *)
Definition get_schedule (c : LSWTConfigTraining R) (optimizer_step : N) : result R :=
  if (lr_warmup_steps c =? 0)%N then Raise ZeroDivisionError
  else if (lr_cooldown_tokens c - warmup_tokens c =? 0)%Z then Raise ZeroDivisionError
  else Ok (Rmin (warmup_ratio c optimizer_step) (cooldown_ratio c optimizer_step)).

(** *** Optimizer construction *)

Section LoadOptimizer.
Context {num : Type} `{Scalar num}.

(** The optimizer classes are outside the three files: [trainer.py]
    imports [Minato] from [optimizer.minato] and [LaProp] from
    [optimizer.laprop], and [AdamW] and [ZeroRedundancyOptimizer] come from
    torch.  Each constructor is a parameter: it receives the keyword
    arguments of the call and returns the optimizer or raises. *)
Context {MinatoT AdamWT LaPropT ZeroT : Type}.
Variable Minato : @kwargs num → result MinatoT.
Variable AdamW : @kwargs num → result AdamWT.
Variable LaProp : @kwargs num → result LaPropT.

Inductive optimizer_class : Type := ClassLaProp | ClassMinato.
Variable ZeroRedundancyOptimizer : optimizer_class → @kwargs num → result ZeroT.

(** The value of [self.model.get_param_groups()]. *)
Variable get_param_groups : list (@group_spec num).

Inductive Optimizer : Type :=
| OptMinato (o : MinatoT)
| OptAdamW (o : AdamWT)
| OptLaProp (o : LaPropT)
| OptZero (o : ZeroT).

Definition betas (c : LSWTConfigTraining num) : @pyval num :=
  VTuple (VFloat (opt_beta_1 c)) (VFloat (opt_beta_2 c)).

(** [Trainer._load_optimizer] *)
Definition _load_optimizer (train_config : LSWTConfigTraining num) : result Optimizer :=
  if String.eqb (optimizer train_config) "Minato" then
    OptMinato <$> Minato
      [ ("params", VParams get_param_groups);
        ("lr", VFloat (lit 0));
        ("betas", betas train_config);
        ("eps", VFloat (opt_eps train_config));
        ("rho", VFloat (opt_rho train_config));
        ("weight_decay", VFloat (opt_weight_decay train_config)) ]
  else if String.eqb (optimizer train_config) "AdamW" then
    OptAdamW <$> AdamW
      [ ("params", VParams get_param_groups);
        ("lr", VFloat (lit 0));
        ("betas", betas train_config);
        ("eps", VFloat (opt_eps train_config));
        ("weight_decay", VFloat (opt_weight_decay train_config));
        ("fused", VBool true) ]
  else if String.eqb (optimizer train_config) "LaProp" then
    OptLaProp <$> LaProp
      [ ("params", VParams get_param_groups);
        ("lr", VFloat (lit 0));
        ("betas", betas train_config);
        ("eps", VFloat (opt_eps train_config));
        ("weight_decay", VFloat (opt_weight_decay train_config)) ]
  else Raise (ValueError "Invalid optimizer").

(** [TrainerDDP._load_optimizer] *)
Definition _load_optimizer_ddp (train_config : LSWTConfigTraining num)
    : result Optimizer :=
  if String.eqb (optimizer train_config) "LaProp" then
    OptZero <$> ZeroRedundancyOptimizer ClassLaProp
      [ ("params", VParams get_param_groups);
        ("lr", VFloat (lit 0));
        ("betas", betas train_config);
        ("eps", VFloat (opt_eps train_config));
        ("weight_decay", VFloat (opt_weight_decay train_config)) ]
  else if String.eqb (optimizer train_config) "Minato" then
    OptZero <$> ZeroRedundancyOptimizer ClassMinato
      [ ("params", VParams get_param_groups);
        ("lr", VFloat (lit 0));
        ("betas", betas train_config);
        ("rho", VFloat (opt_rho train_config));
        ("eps", VFloat (opt_eps train_config));
        ("weight_decay", VFloat (opt_weight_decay train_config)) ]
  else Raise (ValueError "Invalid optimizer").

End LoadOptimizer.

(** *** The batch step of the distributed trainer *)

Section BatchStep.
Context {A Tok Loss Acc Opt : Type}.

Local Abbreviation Cache := (list (list (@KV A))).

(** The state of a [TrainerDDP] that a batch step reads and writes.
    [backward_log] is not a field of the class: it records, for every
    backward pass, the index of the accumulation group and the value
    that [self.model.require_backward_grad_sync] had when it ran, which
    is what decides whether that pass synchronises gradients. *)
Record TrainerState : Type := mkState {
  train_config : LSWTConfigTraining R;
  batch_groups : Z;
  require_backward_grad_sync : bool;
  past_key_values_list : list (option Cache);
  metrics_loss : list Loss;
  metrics_acc : list Acc;
  optimizer_step : N;
  the_optimizer : Opt;
  backward_log : list (nat * bool)
}.

(** "[idx] is the last of the [batch_groups] groups", on naturals. *)
Definition sync_flag (s : TrainerState) (idx : nat) : bool :=
  bool_decide (idx + 1 = Z.to_nat (batch_groups s)).

(** Computations of the trainer: the state survives an exception. *)
Definition M (X : Type) : Type := TrainerState → TrainerState * result X.

Definition ret_ {X} (x : X) : M X := fun s => (s, Ok x).
Definition bind_ {X Y} (m : M X) (k : X → M Y) : M Y :=
  fun s => match m s with
           | (s', Ok x) => k x s'
           | (s', Raise e) => (s', Raise e)
           end.
Definition lift_ {X} (r : result X) : M X := fun s => (s, r).
Definition get_state : M TrainerState := fun s => (s, Ok s).
Definition modify_ (f : TrainerState → TrainerState) : M unit :=
  fun s => (f s, Ok ()).

#[local] Instance M_ret : MRet M := @ret_.
#[local] Instance M_bind : MBind M := fun _ _ k m => bind_ m k.

Definition set_sync (b : bool) (s : TrainerState) : TrainerState :=
  mkState (train_config s) (batch_groups s) b (past_key_values_list s)
          (metrics_loss s) (metrics_acc s) (optimizer_step s) (the_optimizer s)
          (backward_log s).

Definition set_slot (idx : nat) (c : option Cache) (s : TrainerState) : TrainerState :=
  mkState (train_config s) (batch_groups s) (require_backward_grad_sync s)
          (<[idx := c]> (past_key_values_list s))
          (metrics_loss s) (metrics_acc s) (optimizer_step s) (the_optimizer s)
          (backward_log s).

Definition update_metrics (l : Loss) (a : Acc) (s : TrainerState) : TrainerState :=
  mkState (train_config s) (batch_groups s) (require_backward_grad_sync s)
          (past_key_values_list s)
          (metrics_loss s ++ [l]) (metrics_acc s ++ [a]) (optimizer_step s)
          (the_optimizer s) (backward_log s).

Definition log_backward (idx : nat) (s : TrainerState) : TrainerState :=
  mkState (train_config s) (batch_groups s) (require_backward_grad_sync s)
          (past_key_values_list s)
          (metrics_loss s) (metrics_acc s) (optimizer_step s) (the_optimizer s)
          (backward_log s ++ [(idx, require_backward_grad_sync s)]).

Definition incr_optimizer_step (s : TrainerState) : TrainerState :=
  mkState (train_config s) (batch_groups s) (require_backward_grad_sync s)
          (past_key_values_list s)
          (metrics_loss s) (metrics_acc s) (optimizer_step s + 1)%N
          (the_optimizer s) (backward_log s).

Definition set_optimizer (o : Opt) (s : TrainerState) : TrainerState :=
  mkState (train_config s) (batch_groups s) (require_backward_grad_sync s)
          (past_key_values_list s)
          (metrics_loss s) (metrics_acc s) (optimizer_step s) o (backward_log s).

(** Forward pass, loss, accuracy and the accumulation of gradients of
    one group, as a function of the tokens and the restored cache. *)
Variable sub_step_compute : Tok → Tok → option Cache → Loss * Acc * option Cache.

(** [scaler.unscale_], gradient clipping, [scaler.step], [scaler.update]
    and [zero_grad], given the learning rate set on the groups. *)
Variable optimizer_update : R → Opt → Opt.

(** [Trainer.train_sub_step]; [idx] only labels the entry that the
    backward pass leaves in the log. *)
Definition train_sub_step (idx : nat) (tokens_x tokens_y : Tok)
    (past_key_values : option Cache) : M (Loss * Acc * option Cache) :=
  _ ← modify_ (log_backward idx);
  ret_ (sub_step_compute tokens_x tokens_y past_key_values).

(** [Trainer.train_optim_step] *)
Definition train_optim_step : M unit :=
  _ ← modify_ incr_optimizer_step;
  s ← get_state;
  ratio ← lift_ (get_schedule (train_config s) (optimizer_step s));
  modify_ (set_optimizer (optimizer_update (ratio * lr_max (train_config s))%R
                                           (the_optimizer s))).

(** The body of [for idx in range(self.batch_groups)] of
    [TrainerDDP.train_batch_step]. *)
Definition ddp_group_step (tokens_xs tokens_ys : list Tok) (idx : nat) : M unit :=
  s ← get_state;
  _ ← modify_ (set_sync (bool_decide (Z.of_nat idx = batch_groups s - 1)%Z));
  slot ← lift_ (getitem (past_key_values_list s) idx);
  let past_key_values := cache_to slot "cuda" 0 true in
  _ ← modify_ (set_slot idx None);
  tokens_x ← lift_ (getitem tokens_xs idx);
  tokens_y ← lift_ (getitem tokens_ys idx);
  '(loss, accuracy, past_key_values) ←
    train_sub_step idx tokens_x tokens_y past_key_values;
  let past_key_values := cache_to past_key_values "cpu" 0 true in
  _ ← modify_ (set_slot idx past_key_values);
  modify_ (update_metrics loss accuracy).

Fixpoint for_each (idxs : list nat) (body : nat → M unit) : M unit :=
  match idxs with
  | [] => ret_ ()
  | idx :: rest => _ ← body idx; for_each rest body
  end.

(** [TrainerDDP.train_batch_step]; [tokens_xs] and [tokens_ys] are the
    chunks returned by [torch.split]. *)
Definition train_batch_step_ddp (tokens_xs tokens_ys : list Tok) : M unit :=
  s ← get_state;
  _ ← for_each (seq 0 (Z.to_nat (batch_groups s))) (ddp_group_step tokens_xs tokens_ys);
  train_optim_step.

End BatchStep.

End TrainerMod.

(** ** Concrete inputs of the examples *)

Module Examples.
Import Modeling MinatoMod TrainerMod.

(** A tensor of shape (1, 1, 3, 1) holding the positions 1, 2, 3. *)
Definition kv123 : @KV nat :=
  {| kv_device := "cpu"; kv_attached := true; kv_data := [[[[1]; [2]; [3]]]] |}.

(** A real, dense CPU tensor with the given elements. *)
Definition cpu_tensor (xs : list Qc) : @Tensor Qc :=
  {| is_cuda := false; is_complex := false; is_sparse := false; data := xs |}.

(** The same on the accelerator. *)
Definition cuda_tensor (xs : list Qc) : @Tensor Qc :=
  {| is_cuda := true; is_complex := false; is_sparse := false; data := xs |}.

(** [beta = 0.9], [lr = 0.1], [weight_decay = 0], eager mode. *)
Definition scenario_hyper : @hyper Qc :=
  {| beta := Q2Qc (9 # 10); lr := PyFloat (Q2Qc (1 # 10)); weight_decay := 0%Qc;
     maximize := false; capturable := false |}.

(** An optimizer over a single real parameter, as constructed: one group,
    no state yet. *)
Definition one_param_optimizer : @Minato Qc :=
  {| defaults := scenario_hyper;
     param_groups :=
       [ {| g_params := [ {| p_id := 0; p_data := cpu_tensor [Q2Qc 5];
                             p_grad := None |} ];
            g_hyper := scenario_hyper |} ];
     state := ∅ |}.

(** Backward passes that leave the gradient 1 on every parameter. *)
Definition unit_grads : nat → option (@Tensor Qc) :=
  λ _, Some (cpu_tensor [1%Qc]).

(** The same objects in floating point.  A real, dense CPU tensor of
    dtype float32 with the given elements. *)
Definition cpu32 (xs : list spec_float) : @Tensor Floats.fnum :=
  {| is_cuda := false; is_complex := false; is_sparse := false;
     data := Floats.T32 <$> xs |}.

(** The float32 numbers 0.1 (the nearest to one tenth) and 5. *)
Definition tenth32 : spec_float := S754_finite false 13421773 (-27)%Z.
Definition five32 : spec_float := S754_finite false 10485760 (-21)%Z.

(** [beta = 0.9], [lr = 0.1], [weight_decay = 0], eager mode. *)
Definition scenario_hyper32 : @hyper Floats.fnum :=
  {| beta := lit (9 # 10); lr := PyFloat (lit (1 # 10)); weight_decay := lit 0;
     maximize := false; capturable := false |}.

(** [beta = 0.9], [lr = 1e-9], [weight_decay = 0.1], eager mode. *)
Definition decay_hyper32 : @hyper Floats.fnum :=
  {| beta := lit (9 # 10); lr := PyFloat (lit (1 # 1000000000));
     weight_decay := lit (1 # 10); maximize := false; capturable := false |}.

Definition one_param_optimizer32 : @Minato Floats.fnum :=
  {| defaults := scenario_hyper32;
     param_groups :=
       [ {| g_params := [ {| p_id := 0; p_data := cpu32 [five32]; p_grad := None |} ];
            g_hyper := scenario_hyper32 |} ];
     state := ∅ |}.

Definition unit_grads32 : nat → option (@Tensor Floats.fnum) :=
  λ _, Some (cpu32 [Floats.one32]).

(** 2^24 + 1 backward passes. *)
Definition many_grads32 : list (nat → option (@Tensor Floats.fnum)) :=
  replicate (N.to_nat 16777217) unit_grads32.

(** A configuration that asks for ['AdamW'], with rational hyperparameters. *)
Definition adamw_config : LSWTConfigTraining Qc :=
  {| optimizer := "AdamW";
     opt_beta_1 := Q2Qc (9 # 10); opt_beta_2 := Q2Qc (95 # 100);
     opt_eps := Q2Qc (1 # 100000000); opt_rho := 0%Qc;
     opt_weight_decay := Q2Qc (1 # 10);
     batch_size := 4; batch_size_step := 2; length_sequence := 8;
     lr_warmup_steps := 2; lr_cooldown_tokens := 1000;
     lr_cooldown_ratio := Q2Qc (1 # 10); lr_max := Q2Qc (1 # 1000) |}.

(** A training configuration over the reals: 2 warmup steps, batches of
    4 sequences of 8 tokens, a cooldown budget of 1000 tokens and a floor
    of one tenth. *)
Definition schedule_config : LSWTConfigTraining R :=
  {| optimizer := "Minato";
     opt_beta_1 := 0.9%R; opt_beta_2 := 0.95%R; opt_eps := 0%R; opt_rho := 0%R;
     opt_weight_decay := 0.1%R;
     batch_size := 4; batch_size_step := 2; length_sequence := 8;
     lr_warmup_steps := 2; lr_cooldown_tokens := 1000;
     lr_cooldown_ratio := 0.1%R; lr_max := 0.001%R |}.

End Examples.

(** ** modeling.py: the language-model head, generation inputs, parameter groups *)

Module Generation.
Import Modeling MinatoMod.

(** [sub in s] on strings. *)
Fixpoint contains (sub s : string) : bool :=
  String.prefix sub s
  || match s with
     | EmptyString => false
     | String _ s' => contains sub s'
     end.

Section ParamGroups.
Context {num : Type} `{Scalar num}.

(** An item of [self.named_parameters()] with the [requires_grad] flag of
    the parameter. *)
Record NamedParam : Type := mkNamed {
  np_name : string;
  np_param : @Param num;
  requires_grad : bool
}.

Definition non_decay_names : list string := ["norm"; "bias"; "embedding.weight"].

(** [any( i in name for i in non_decay_names )] *)
Definition is_non_decay (name : string) : bool :=
  existsb (fun i => contains i name) non_decay_names.

(** [decay_params] and [non_decay_params] after the loop of
    [get_param_groups]. *)
Definition decay_params (named_parameters : list NamedParam) : list (@Param num) :=
  np_param <$> filter (fun n => requires_grad n && negb (is_non_decay (np_name n)))
                      named_parameters.

Definition non_decay_params (named_parameters : list NamedParam) : list (@Param num) :=
  np_param <$> filter (fun n => requires_grad n && is_non_decay (np_name n))
                      named_parameters.

(** [LSWTPreTrainedModel.get_param_groups] *)
Definition get_param_groups (named_parameters : list NamedParam)
    : list (@group_spec num) :=
  [ {| gs_params := decay_params named_parameters; gs_weight_decay := None |};
    {| gs_params := non_decay_params named_parameters;
       gs_weight_decay := Some (lit 0) |} ].

End ParamGroups.

Section Outputs.
Context {A Emb : Type}.

(** No row of a tensor holds more than [k] positions. *)
Definition at_most (k : nat) (kv : @KV A) : Prop :=
  Forall (Forall (fun positions => length positions ≤ k)) (kv_data kv).

(** What the layer loop of [forward] keeps, for lists of the given
    lengths: the running embeddings are the last hidden state, and every
    stored cache went through [trim_cache]. *)
Definition loop_inv (mkv : option Z) (hs0 pkv0 : nat)
    (st : Emb * list Emb * list (list (@KV A))) : Prop :=
  let '(e, hs, pkv) := st in
  last hs = Some e ∧ length hs = hs0 ∧ length pkv = pkv0
  ∧ Forall (fun kvs => ∃ raw, kvs = trim_cache raw mkv) pkv.

End Outputs.

Section CausalLM.
Context {A Tok Emb Rope Logits : Type}.

Local Abbreviation Cache := (list (list (@KV A))).

(** [input_ids]: a tensor of shape (batch, sequence) on a device. *)
Record InputIds : Type := mkIds {
  ids_device : string;
  ids_rows : list (list Tok)
}.

(** The layers, as in [Modeling]; [input_linear] is
    [input_embedding( _, mode='linear')]. *)
Variable input_embedding : InputIds → Emb.
Variable input_linear : Emb → Logits.
Variable input_proj : Emb → Emb.
Variable head_proj : Emb → Emb.
Variable input_norm : Emb → Emb.
Variable output_norm : Emb → Emb.
Variable rope_embedding : Emb → option Cache → Rope.
Variable blocks : nat → Emb → option (list (@KV A)) → Rope → Emb * list (@KV A).
Variable n_layers : nat.

(** [CausalLMOutputWithPast]; [loss] and [attentions] are always [None]. *)
Record CausalLMOutputWithPast : Type := mkLMOutput {
  logits : Logits;
  lm_past_key_values : option Cache;
  lm_hidden_states : option (list Emb)
}.

(** [LSWTForCausalLM.forward] *)
Definition forward_lm (input_ids : option InputIds) (inputs_embeds : option Emb)
    (past : option Cache) (use_cache return_dict output_attentions
    output_hidden_states : bool) (max_key_values : option Z)
    : result CausalLMOutputWithPast :=
  if negb return_dict then Raise AssertionError
  else if output_attentions then Raise AssertionError
  else
    base_outputs ← forward input_embedding input_proj input_norm output_norm
                            rope_embedding blocks n_layers
                            input_ids inputs_embeds past max_key_values;
    let embeddings := head_proj (last_hidden_state base_outputs) in
    Ok {| logits := input_linear embeddings;
          lm_past_key_values :=
            if use_cache then Some (past_key_values base_outputs) else None;
          lm_hidden_states :=
            if output_hidden_states
            then Some (hidden_states base_outputs ++ [last_hidden_state base_outputs])
            else None |}.

(** [xs[-1]] on a Python list. *)
Definition getitem_last {X} (xs : list X) : result X :=
  match last xs with
  | Some x => Ok x
  | None => Raise IndexError
  end.

(** [Trainer.forward_pass] (trainer.py): [use_cache] is [cache_length > 0]
    and the other flags keep their defaults. *)
Definition forward_pass (tokens : InputIds) (past : option Cache) (cache_length : Z)
    : result (Logits * option Cache * Emb) :=
  outputs ← forward_lm (Some tokens) None past (0 <? cache_length)%Z true false true
                       (Some cache_length);
  last_hidden_state ← match lm_hidden_states outputs with
                       | Some hs => getitem_last hs
                       | None => Raise (TypeError "'NoneType' object is not subscriptable")
                       end;
  Ok (logits outputs, lm_past_key_values outputs, last_hidden_state).

(** [kv.shape[2]] *)
Definition shape2 (kv : @KV A) : nat :=
  match kv_data kv with
  | (positions :: _) :: _ => length positions
  | _ => 0
  end.

(** [input_ids[:, -1 : ]] *)
Definition last_token (input_ids : InputIds) : InputIds :=
  {| ids_device := ids_device input_ids;
     ids_rows := slice_from (- 1) <$> ids_rows input_ids |}.

(** The dictionary returned by [prepare_inputs_for_generation]: the key
    ["inputs_embeds"] or the key ["input_ids"], and ["past_key_values"]. *)
Record ModelInputs : Type := mkInputs {
  mi_inputs_embeds : option Emb;
  mi_input_ids : option InputIds;
  mi_past_key_values : option Cache
}.

(** [LSWTForCausalLM.prepare_inputs_for_generation]; [max_key_values] is
    the entry of [kwargs], absent ([None]), present with the value [None]
    ([Some None]) or present with an integer. *)
Definition prepare_inputs_for_generation (input_ids : InputIds) (past : option Cache)
    (inputs_embeds : option Emb) (max_key_values : option (option Z))
    : result ModelInputs :=
  '(past, input_ids) ←
    match past with
    | Some p =>
        layer0 ← getitem p 0;
        kv0 ← getitem layer0 0;
        let past_length := shape2 kv0 in
        let max_key_values :=
          match max_key_values with
          | Some (Some z) => z
          | _ => 0%Z
          end in
        Ok (cache_to (Some p) (ids_device input_ids) max_key_values false,
            last_token input_ids)
    | None => Ok (None, input_ids)
    end;
  match inputs_embeds, past with
  | Some embeds, None =>
      Ok {| mi_inputs_embeds := Some embeds; mi_input_ids := None;
            mi_past_key_values := past |}
  | _, _ =>
      Ok {| mi_inputs_embeds := None; mi_input_ids := Some input_ids;
            mi_past_key_values := past |}
  end.

End CausalLM.
End Generation.

(** ** minato.py: what a step does to a parameter *)

Module StepEffect.
Import MinatoMod.

Section Effect.
Context {num : Type} `{Scalar num}.

(** The parameter [p] of a group with hyperparameters [h], and the same
    parameter [p'] after a step that took the state from [st] to [st'].
    Without a gradient, the tensor and the state entry are the ones before
    the step.  With a gradient, the tensor, the momentum and the counter are
    the results of the update rule on the tensor, the gradient and the state
    entry of [p] (a fresh entry if [p] had none). *)
Definition updated (capt : bool) (h : hyper) (st st' : gmap nat PState)
    (p p' : @Param num) : Prop :=
  p_id p' = p_id p ∧ p_grad p' = p_grad p
  ∧ match p_grad p with
    | None => p_data p' = p_data p ∧ st' !! p_id p = st !! p_id p
    | Some grad =>
        let s := default (init_state capt p) (st !! p_id p) in
        ∃ exp_avg' step_t',
          update_param h (p_data p) grad (st_exp_avg s) (st_step s)
          = Ok (p_data p', exp_avg', step_t')
          ∧ st' !! p_id p = Some {| st_step := step_t'; st_exp_avg := exp_avg' |}
    end.

(** The same for the groups of an optimizer. *)
Definition groups_updated (capt : bool) (st st' : gmap nat PState)
    (gs gs' : list (@Group num)) : Prop :=
  Forall2 (fun g g' => g_hyper g' = g_hyper g
                       ∧ Forall2 (updated capt (g_hyper g) st st')
                                 (g_params g) (g_params g'))
          gs gs'.

End Effect.
End StepEffect.

(** ** trainer.py: the dataset of the distributed trainer *)

Module TrainerData.
Import TrainerMod.

(** [list(range(start, stop, step))] on integers. *)
Definition range3 (start stop step : Z) : result (list Z) :=
  if (step =? 0)%Z then Raise (ValueError "range() arg 3 must not be zero")
  else
    let len := if (0 <? step)%Z
               then ((stop - start + step - 1) / step)%Z
               else ((start - stop - step - 1) / (- step))%Z in
    Ok ((fun i => (start + Z.of_nat i * step)%Z) <$> seq 0 (Z.to_nat len)).

(** The arguments of the call of [PileDataset] that are computed from the
    configuration and from the placement of the process; the tokenizer and
    the path pattern are passed on as they are. *)
Record PileDatasetArgs : Type := mkPileArgs {
  pd_seq_length : N;
  pd_batch_size : N;
  pd_pile_shards : list Z
}.

(** [TrainerDDP._load_dataset], up to the [PileDataset] it constructs. *)
Definition _load_dataset_ddp {F : Type} (train_config : LSWTConfigTraining F)
    (dataset : string) (ddp_rank ddp_world_size dataset_shards : N)
    : result PileDatasetArgs :=
  if String.eqb dataset "pile" then
    batch_size ← floordiv (batch_size train_config) ddp_world_size;
    pile_shards ← range3 (Z.of_N ddp_rank) (Z.of_N dataset_shards)
                         (Z.of_N ddp_world_size);
    Ok {| pd_seq_length := length_sequence train_config;
          pd_batch_size := batch_size;
          pd_pile_shards := pile_shards |}
  else Raise (ValueError "Invalid dataset choice").

End TrainerData.

(** ** trainer.py: the batch step of the base trainer *)

Module TrainerBase.
Import Modeling TrainerMod.

Section BaseStep.
Context {A Tok Loss Acc Opt : Type}.

Local Abbreviation Cache := (list (list (@KV A))).
Local Abbreviation State := (@TrainerState A Loss Acc Opt).

#[local] Existing Instance M_ret.
#[local] Existing Instance M_bind.

Variable sub_step_compute : Tok → Tok → option Cache → Loss * Acc * option Cache.
Variable optimizer_update : R → Opt → Opt.

(** The body of [for idx in range(self.batch_groups)] of
    [Trainer.train_batch_step]. *)
Definition group_step (tokens_xs tokens_ys : list Tok) (idx : nat)
    : M (A := A) (Loss := Loss) (Acc := Acc) (Opt := Opt) unit :=
  s ← get_state;
  slot ← lift_ (getitem (past_key_values_list s) idx);
  let past_key_values := cache_to slot "cuda" 0 true in
  _ ← modify_ (set_slot idx None);
  tokens_x ← lift_ (getitem tokens_xs idx);
  tokens_y ← lift_ (getitem tokens_ys idx);
  '(loss, accuracy, past_key_values) ←
    train_sub_step sub_step_compute idx tokens_x tokens_y past_key_values;
  let past_key_values := cache_to past_key_values "cpu" 0 true in
  _ ← modify_ (set_slot idx past_key_values);
  modify_ (update_metrics loss accuracy).

(** [Trainer.train_batch_step]; [tokens_xs] and [tokens_ys] are the
    chunks returned by [torch.split]. *)
Definition train_batch_step (tokens_xs tokens_ys : list Tok)
    : M (A := A) (Loss := Loss) (Acc := Acc) (Opt := Opt) unit :=
  s ← get_state;
  _ ← for_each (seq 0 (Z.to_nat (batch_groups s))) (group_step tokens_xs tokens_ys);
  train_optim_step optimizer_update.

(** The cache that the group [idx] leaves in its slot, given the cache
    [old] it found there: moved to the accelerator, passed through the
    sub-step, moved back to the CPU. *)
Definition slot_after (tokens_x tokens_y : Tok) (old : option Cache) : option Cache :=
  cache_to (sub_step_compute tokens_x tokens_y (cache_to old "cuda" 0 true)).2
           "cpu" 0 true.

(** Two trainer states that differ at most in the gradient
    synchronisation flag of the model, now and at the logged backward
    passes. *)
Definition same_but_sync (s1 s2 : State) : Prop :=
  train_config s1 = train_config s2
  ∧ batch_groups s1 = batch_groups s2
  ∧ past_key_values_list s1 = past_key_values_list s2
  ∧ metrics_loss s1 = metrics_loss s2
  ∧ metrics_acc s1 = metrics_acc s2
  ∧ optimizer_step s1 = optimizer_step s2
  ∧ the_optimizer s1 = the_optimizer s2
  ∧ fst <$> backward_log s1 = fst <$> backward_log s2.

(** A cache slot that holds nothing on the accelerator: empty, or a cache
    whose tensors are all on the CPU and detached from the autograd graph. *)
Definition offloaded (slot : option Cache) : Prop :=
  match slot with
  | None => True
  | Some c => Forall (Forall (fun kv => kv_device kv = "cpu" ∧ kv_attached kv = false)) c
  end.

End BaseStep.
End TrainerBase.

(** ** Further concrete inputs *)

Module MoreExamples.
Import Modeling MinatoMod TrainerMod Generation TrainerBase Examples.

(** A toy backbone of two layers over numbers: layer [i] adds [i] to the
    running value and returns one tensor of three positions. *)
Definition toy_blocks (i : nat) (e : nat) (kv : option (list (@KV nat))) (rope : unit)
    : nat * list (@KV nat) :=
  (e + i, [kv123]).

Definition toy_forward (input_ids : option nat) (inputs_embeds : option nat)
    (past : option (list (list (@KV nat)))) (max_key_values : option Z)
    : result (@BaseModelOutputWithPast nat nat) :=
  forward (fun ids : nat => ids) (fun e => e) (fun e => e) (fun e => e)
          (fun _ _ => tt) toy_blocks 2 input_ids inputs_embeds past max_key_values.

(** The output of the toy backbone on the input 7 with a cache limit of 2. *)
Definition toy_output : @BaseModelOutputWithPast nat nat :=
  {| last_hidden_state := 8;
     past_key_values := [trim_cache [kv123] (Some 2%Z); trim_cache [kv123] (Some 2%Z)];
     hidden_states := [7; 7; 8] |}.

(** Three named parameters: a trainable weight, a trainable bias of a
    normalisation layer, and a frozen embedding. *)
Definition toy_named : list (@NamedParam Qc) :=
  [ {| np_name := "blocks.0.attn.weight";
       np_param := {| p_id := 0; p_data := cpu_tensor [Q2Qc 5]; p_grad := None |};
       requires_grad := true |};
    {| np_name := "blocks.0.norm.bias";
       np_param := {| p_id := 1; p_data := cpu_tensor [Q2Qc 1]; p_grad := None |};
       requires_grad := true |};
    {| np_name := "input_embedding.embedding.weight";
       np_param := {| p_id := 2; p_data := cpu_tensor [Q2Qc 3]; p_grad := None |};
       requires_grad := false |} ].

(** The one-parameter optimizer after a backward pass, and after the step
    that follows. *)
Definition one_param_with_grad : @Minato Qc := set_grads unit_grads one_param_optimizer.

Definition one_param_stepped : @Minato Qc :=
  match step one_param_with_grad with
  | Ok opt' => opt'
  | Raise _ => one_param_with_grad
  end.

(** Capturable mode with the learning rate left as a Python float. *)
Definition capturable_float_hyper : @hyper Qc :=
  {| beta := Q2Qc (9 # 10); lr := PyFloat (Q2Qc (1 # 10)); weight_decay := 0%Qc;
     maximize := false; capturable := true |}.

Definition capturable_float_group : @Group Qc :=
  {| g_params := [ {| p_id := 0; p_data := cuda_tensor [Q2Qc 5];
                      p_grad := Some (cuda_tensor [1%Qc]) |} ];
     g_hyper := capturable_float_hyper |}.

Definition capturable_float_optimizer : @Minato Qc :=
  {| defaults := capturable_float_hyper;
     param_groups := [capturable_float_group];
     state := ∅ |}.

(** A trainer with two accumulation groups and empty cache slots; tokens,
    losses, accuracies and the optimizer are numbers. *)
Definition toy_trainer : @TrainerState nat nat nat nat :=
  {| train_config := schedule_config;
     batch_groups := 2;
     require_backward_grad_sync := true;
     past_key_values_list := [None; None];
     metrics_loss := [];
     metrics_acc := [];
     optimizer_step := 0;
     the_optimizer := 0;
     backward_log := [] |}.

(** A sub-step that returns the two chunks as loss and accuracy, and a
    cache of one tensor. *)
Definition toy_sub_step (x y : nat) (past : option (list (list (@KV nat))))
    : nat * nat * option (list (list (@KV nat))) :=
  (x, y, Some [[kv123]]).

Definition toy_optimizer_update (lr_ : R) (opt : nat) : nat := S opt.

End MoreExamples.

(* ===================================================================== *)
(** * Part II: properties                                                 *)
(* ===================================================================== *)

(** ** Results and slices *)

Lemma bind_Ok_inv {A B} (m : result A) (k : A → result B) (b : B) :
  m ≫= k = Ok b → ∃ a, m = Ok a ∧ k a = Ok b.
Proof. destruct m as [a|e]; simpl; [eauto | discriminate]. Qed.

Lemma result_bind_Ok {A B} (a : A) (k : A → result B) : Ok a ≫= k = k a.
Proof. reflexivity. Qed.

Lemma result_bind_Raise {A B} (e : exn) (k : A → result B) : Raise e ≫= k = Raise e.
Proof. reflexivity. Qed.

Lemma getitem_Ok {A} (xs : list A) (i : nat) (x : A) :
  getitem xs i = Ok x ↔ xs !! i = Some x.
Proof. unfold getitem. destruct (xs !! i); split; congruence. Qed.

Lemma getitem_lt {A} (xs : list A) (i : nat) :
  i < length xs → ∃ x, getitem xs i = Ok x.
Proof.
  intros Hi. destruct (lookup_lt_is_Some_2 xs i Hi) as [x Hx].
  exists x. by apply getitem_Ok.
Qed.

Lemma slice_from_zero {A} (xs : list A) : slice_from 0 xs = xs.
Proof.
  unfold slice_from. simpl.
  replace (Z.to_nat (Z.min 0 (Z.of_nat (length xs)))) with 0%nat by lia.
  reflexivity.
Qed.

Lemma slice_from_neg {A} (k : Z) (xs : list A) :
  (1 ≤ k ≤ Z.of_nat (length xs))%Z →
  slice_from (- k) xs = drop (length xs - Z.to_nat k) xs.
Proof.
  intros Hk. unfold slice_from.
  destruct (Z.ltb_spec (- k) 0) as [_|?]; [|lia].
  f_equal. lia.
Qed.

Lemma length_slice_from_neg {A} (k : Z) (xs : list A) :
  (1 ≤ k ≤ Z.of_nat (length xs))%Z →
  length (slice_from (- k) xs) = Z.to_nat k.
Proof. intros Hk. rewrite slice_from_neg, length_drop by done. lia. Qed.

(** ** The KV cache *)

Section CacheProperties.
Context {A : Type}.
Implicit Types (kv : @Modeling.KV A) (cache : list (@Modeling.KV A)).
Import Modeling.

Lemma slice_seq_zero kv : slice_seq 0 kv = kv.
Proof.
  destruct kv as [d a x]. unfold slice_seq. simpl. f_equal.
  rewrite <- (list_fmap_id x) at 2. apply list_fmap_ext. intros _ heads _.
  rewrite <- (list_fmap_id heads) at 2. apply list_fmap_ext. intros _ row _.
  apply slice_from_zero.
Qed.

Lemma slice_seq_last (L : nat) (k : Z) kv :
  has_seq_len L kv → (1 ≤ k ≤ Z.of_nat L)%Z →
  slice_seq (- k) kv = last_positions (Z.to_nat k) kv
  ∧ has_seq_len (Z.to_nat k) (slice_seq (- k) kv).
Proof.
  intros Hlen Hk. unfold has_seq_len, slice_seq, last_positions in *.
  destruct kv as [d a x]. simpl in *. split.
  - f_equal. apply Forall_fmap_ext_1. eapply Forall_impl; [exact Hlen|].
    intros heads Hh. simpl. apply Forall_fmap_ext_1.
    eapply Forall_impl; [exact Hh|]. intros row Hr. simpl in *.
    apply slice_from_neg. lia.
  - apply Forall_fmap. eapply Forall_impl; [exact Hlen|].
    intros heads Hh. simpl. apply Forall_fmap.
    eapply Forall_impl; [exact Hh|]. intros row Hr. simpl in *.
    apply length_slice_from_neg. lia.
Qed.

Lemma trim_cache_zero cache : trim_cache cache (Some 0%Z) = cache.
Proof.
  unfold trim_cache. simpl. rewrite <- (list_fmap_id cache) at 2.
  apply list_fmap_ext. intros _ kv _. apply slice_seq_zero.
Qed.

End CacheProperties.

Section TrimCache.
Context {A : Type}.
Import Modeling.

(** C1 (as amended): on a cache whose tensors have sequence length [L],
    [trim_cache] with [1 <= k <= L] returns, tensor by tensor, the last [k]
    positions, so tensors of sequence length exactly [k]; with [keep = 0]
    and with [keep = None] it returns the cache unchanged. *)
Theorem trim_cache_keeps_last (cache : list (@KV A)) (L : nat) (k : Z) :
  Forall (has_seq_len L) cache →
  (1 ≤ k ≤ Z.of_nat L)%Z →
  trim_cache cache (Some k) = last_positions (Z.to_nat k) <$> cache
  ∧ Forall (has_seq_len (Z.to_nat k)) (trim_cache cache (Some k))
  ∧ trim_cache cache (Some 0%Z) = cache
  ∧ trim_cache cache None = cache.
Proof.
  intros Hlen Hk. split; [|split; [|split]].
  - unfold trim_cache. apply Forall_fmap_ext_1.
    eapply Forall_impl; [exact Hlen|]. intros kv Hkv.
    by apply (slice_seq_last L).
  - unfold trim_cache. apply Forall_fmap.
    eapply Forall_impl; [exact Hlen|]. intros kv Hkv.
    by apply (slice_seq_last L).
  - apply trim_cache_zero.
  - reflexivity.
Qed.

End TrimCache.

Lemma trim_cache_keeps_last_witness :
  Modeling.trim_cache [Examples.kv123] (Some 2%Z)
    = Modeling.last_positions 2 <$> [Examples.kv123]
  ∧ Forall (Modeling.has_seq_len 2) (Modeling.trim_cache [Examples.kv123] (Some 2%Z))
  ∧ Modeling.trim_cache [Examples.kv123] (Some 0%Z) = [Examples.kv123]
  ∧ Modeling.trim_cache [Examples.kv123] None = [Examples.kv123].
Proof.
  apply (trim_cache_keeps_last [Examples.kv123] 3 2).
  - repeat constructor.
  - lia.
Defined.

(** C1 (as stated) fails for [keep = 0]: on a cache of sequence length 3 the
    result has sequence length 3, not 0. *)
Lemma trim_cache_keep_zero_not_empty :
  Forall (Modeling.has_seq_len 3) [Examples.kv123]
  ∧ (0 ≤ 0 ≤ 3)%Z
  ∧ Modeling.trim_cache [Examples.kv123] (Some 0%Z) = [Examples.kv123]
  ∧ ¬ Forall (Modeling.has_seq_len 0) (Modeling.trim_cache [Examples.kv123] (Some 0%Z)).
Proof.
  split; [repeat constructor|]. split; [lia|]. split; [reflexivity|].
  intros Hall. apply Forall_cons_1 in Hall as [Hkv _].
  unfold Modeling.has_seq_len in Hkv. simpl in Hkv.
  apply Forall_cons_1 in Hkv as [Hh _]. apply Forall_cons_1 in Hh as [Hrow _].
  simpl in Hrow. discriminate.
Qed.

Section CacheTo.
Context {A F : Type}.
Import Modeling TrainerMod.

(** C10: [cache_to] maps an absent cache to [None] for every device, trim
    value and [non_blocking] flag; every slot created by [_load_cache]
    (and by its distributed override) is absent, so the first restore of
    any slot yields [None]. *)
Theorem cache_to_absent (device : string) (trim : Z) (non_blocking : bool)
    (train_config : LSWTConfigTraining F) (ddp_world_size : N)
    (slots : list (option (list (list (@KV A))))) :
  _load_cache train_config = Ok slots
  ∨ _load_cache_ddp train_config ddp_world_size = Ok slots →
  @cache_to A None device trim non_blocking = None
  ∧ ∀ idx slot, slots !! idx = Some slot →
      slot = None ∧ cache_to slot device trim non_blocking = None.
Proof.
  intros Hload. split; [reflexivity|]. intros idx slot Hslot.
  assert (∃ n, slots = none_slots n) as [n ->].
  { destruct Hload as [Hl|Hl].
    - unfold _load_cache in Hl. apply bind_Ok_inv in Hl as (n & _ & Hn).
      exists n. congruence.
    - unfold _load_cache_ddp in Hl. apply bind_Ok_inv in Hl as (n & _ & Hn).
      exists n. congruence. }
  unfold none_slots in Hslot. apply lookup_replicate in Hslot as [-> _].
  split; reflexivity.
Qed.

End CacheTo.

(** ** The input contract of the forward pass *)

Section Forward.
Context {A Ids Emb Rope : Type}.
Import Modeling.
Variable input_embedding : Ids → Emb.
Variable input_proj : Emb → Emb.
Variable input_norm : Emb → Emb.
Variable output_norm : Emb → Emb.
Variable rope_embedding : Emb → option (list (list (@KV A))) → Rope.
Variable blocks : nat → Emb → option (list (@KV A)) → Rope → Emb * list (@KV A).
Variable n_layers : nat.

Local Abbreviation layer := (layer_step (A:=A) blocks).
Local Abbreviation fwd :=
  (forward input_embedding input_proj input_norm output_norm rope_embedding
           blocks n_layers).

Lemma layer_step_Raise past mkv rope acc i e :
  layer past mkv rope acc i = Raise e → acc = Raise e ∨ e = IndexError.
Proof.
  unfold layer_step. destruct acc as [[[emb hs] pkv]|e']; simpl.
  - destruct past as [p|]; simpl.
    + unfold getitem. destruct (p !! i); simpl.
      * destruct (blocks _ _ _ _). discriminate.
      * intros [= <-]. by right.
    + destruct (blocks _ _ _ _). discriminate.
  - intros [= ->]. by left.
Qed.

Lemma layer_loop_Raise past mkv rope idxs acc e :
  foldl (layer past mkv rope) acc idxs = Raise e → acc = Raise e ∨ e = IndexError.
Proof.
  revert acc. induction idxs as [|i idxs IH]; intros acc; cbn [foldl].
  - by left.
  - intros Hr. apply IH in Hr as [Hr| ->]; [|by right].
    by apply layer_step_Raise in Hr.
Qed.

Lemma layer_loop_Ok past mkv rope idxs st :
  (∀ p, past = Some p → ∀ i, i ∈ idxs → i < length p) →
  ∃ st', foldl (layer past mkv rope) (Ok st) idxs = Ok st'.
Proof.
  revert st. induction idxs as [|i idxs IH]; intros st Hin; cbn [foldl].
  - by exists st.
  - destruct st as [[emb hs] pkv].
    assert (∃ st1, layer past mkv rope (Ok (emb, hs, pkv)) i = Ok st1) as [st1 ->].
    { unfold layer_step. simpl. destruct past as [p|]; simpl.
      - destruct (getitem_lt p i) as [x ->].
        { apply (Hin p eq_refl). by left. }
        simpl. destruct (blocks _ _ _ _). eauto.
      - destruct (blocks _ _ _ _). eauto. }
    apply IH. intros p Hp j Hj. apply (Hin p Hp). by right.
Qed.

Lemma forward_layers_no_ValueError emb past mkv msg :
  forward_layers input_norm output_norm rope_embedding blocks n_layers emb past mkv
    ≠ Raise (ValueError msg).
Proof.
  unfold forward_layers.
  destruct (foldl _ _ _) as [[[e hs] pkv]|e] eqn:Hloop; simpl; [discriminate|].
  apply layer_loop_Raise in Hloop as [?| ->]; discriminate.
Qed.

Lemma forward_layers_Ok emb past mkv :
  (∀ p, past = Some p → n_layers ≤ length p) →
  ∃ out, forward_layers input_norm output_norm rope_embedding blocks n_layers
                        emb past mkv = Ok out.
Proof.
  intros Hp. unfold forward_layers.
  edestruct (layer_loop_Ok past mkv) as [[[e hs] pkv] ->].
  - intros p Hpast i Hi. apply elem_of_seq in Hi. specialize (Hp p Hpast). lia.
  - simpl. eauto.
Qed.

(** C8: [forward] raises the [ValueError] of its input contract exactly
    when [input_ids] and [inputs_embeds] are both given or both absent, with
    the message of the respective guard; with exactly one of them it does
    not raise it, and it returns its output whenever [past_key_values], if
    given, has an entry for each layer. *)
Theorem forward_input_contract (input_ids : option Ids) (inputs_embeds : option Emb)
    (past : option (list (list (@KV A)))) (max_key_values : option Z) :
  ((∃ msg, fwd input_ids inputs_embeds past max_key_values = Raise (ValueError msg))
     ↔ (is_Some input_ids ↔ is_Some inputs_embeds))
  ∧ (is_Some input_ids ∧ is_Some inputs_embeds →
       fwd input_ids inputs_embeds past max_key_values
       = Raise (ValueError "You cannot specify both input_ids and inputs_embeds at the same time"))
  ∧ (input_ids = None ∧ inputs_embeds = None →
       fwd input_ids inputs_embeds past max_key_values
       = Raise (ValueError "You have to specify either input_ids or inputs_embeds"))
  ∧ (¬ (is_Some input_ids ↔ is_Some inputs_embeds) →
       (∀ p, past = Some p → n_layers ≤ length p) →
       ∃ out, fwd input_ids inputs_embeds past max_key_values = Ok out).
Proof.
  unfold forward. destruct input_ids as [ids|], inputs_embeds as [embeds|].
  - split; [|split; [|split]].
    + split; [intros _; split; eauto | eauto].
    + done.
    + intros [[=] _].
    + intros Hn. exfalso. apply Hn. split; eauto.
  - split; [|split; [|split]].
    + split.
      * intros [msg Hm]. by apply forward_layers_no_ValueError in Hm.
      * intros [Hs _]. destruct Hs as [x [=]]; eauto.
    + intros [_ [x [=]]].
    + intros [[=] _].
    + intros _ Hp. by apply forward_layers_Ok.
  - split; [|split; [|split]].
    + split.
      * intros [msg Hm]. by apply forward_layers_no_ValueError in Hm.
      * intros [_ Hs]. destruct Hs as [x [=]]; eauto.
    + intros [[x [=]] _].
    + intros [_ [=]].
    + intros _ Hp. by apply forward_layers_Ok.
  - split; [|split; [|split]].
    + split; [intros _; split; intros [x [=]] | eauto].
    + intros [[x [=]] _].
    + done.
    + intros Hn. exfalso. apply Hn. split; intros [x [=]].
Qed.

End Forward.

(** ** Gradient synchronisation in the distributed batch step *)

Section DDP.
Context {A Tok Loss Acc Opt : Type}.
Import Modeling TrainerMod.
Variable sub_step_compute :
  Tok → Tok → option (list (list (@KV A))) → Loss * Acc * option (list (list (@KV A))).
Variable optimizer_update : R → Opt → Opt.

Local Abbreviation State := (@TrainerState A Loss Acc Opt).
Local Abbreviation group_step := (ddp_group_step (Opt:=Opt) sub_step_compute).

Lemma sync_flag_source (s : State) (idx : nat) :
  bool_decide (Z.of_nat idx = batch_groups s - 1)%Z = sync_flag s idx.
Proof. unfold sync_flag. apply bool_decide_ext. lia. Qed.

(** One accumulation group: either the group runs, and its backward pass
    is logged with the flag computed from its index, or an index is out of
    range and no backward pass happens. *)
Lemma ddp_group_step_spec (xs ys : list Tok) (idx : nat) (s : State) :
  let s' := (group_step xs ys idx s).1 in
  let r := (group_step xs ys idx s).2 in
  batch_groups s' = batch_groups s
  ∧ length (past_key_values_list s') = length (past_key_values_list s)
  ∧ train_config s' = train_config s
  ∧ optimizer_step s' = optimizer_step s
  ∧ ((r = Ok () ∧ backward_log s' = backward_log s ++ [(idx, sync_flag s idx)])
     ∨ ((∃ e, r = Raise e) ∧ backward_log s' = backward_log s))
  ∧ (idx < length (past_key_values_list s) → idx < length xs → idx < length ys →
     r = Ok ()).
Proof.
  unfold ddp_group_step, train_sub_step, mbind, M_bind, bind_, get_state, modify_,
    lift_, ret_. simpl. rewrite sync_flag_source.
  unfold getitem.
  destruct (past_key_values_list s !! idx) as [slot|] eqn:Hslot; simpl.
  2:{ repeat split; try done.
      - right. eauto.
      - intros Hlt. apply lookup_lt_is_Some_2 in Hlt as [? ?]. congruence. }
  destruct (xs !! idx) as [x|] eqn:Hx; simpl.
  2:{ rewrite length_insert. repeat split; try done.
      - right. eauto.
      - intros _ Hlt. apply lookup_lt_is_Some_2 in Hlt as [? ?]. congruence. }
  destruct (ys !! idx) as [y|] eqn:Hy; simpl.
  2:{ rewrite length_insert. repeat split; try done.
      - right. eauto.
      - intros _ _ Hlt. apply lookup_lt_is_Some_2 in Hlt as [? ?]. congruence. }
  destruct (sub_step_compute _ _ _) as [[loss acc] pkv]. simpl.
  rewrite !length_insert. repeat split; try done. by left.
Qed.

Lemma for_each_cons (body : nat → M ()) (idx : nat) (rest : list nat) (s : State) :
  for_each (idx :: rest) body s
  = match body idx s with
    | (s', Ok _) => for_each rest body s'
    | (s', Raise e) => (s', Raise e)
    end.
Proof. reflexivity. Qed.

(** The loop over the groups [a, a+1, ..., a+n-1]. *)
Lemma ddp_loop_spec (xs ys : list Tok) (n a : nat) (s : State) :
  let s' := (for_each (seq a n) (group_step xs ys) s).1 in
  let r := (for_each (seq a n) (group_step xs ys) s).2 in
  batch_groups s' = batch_groups s
  ∧ train_config s' = train_config s
  ∧ optimizer_step s' = optimizer_step s
  ∧ (∃ k, k ≤ n
       ∧ backward_log s' = backward_log s ++ ((λ i, (i, sync_flag s i)) <$> seq a k)
       ∧ (r = Ok () → k = n))
  ∧ (a + n ≤ length (past_key_values_list s) → a + n ≤ length xs →
     a + n ≤ length ys → r = Ok ()).
Proof.
  revert a s. induction n as [|n IH]; intros a s; cbn [seq].
  - simpl. split; [done|]. split; [done|]. split; [done|]. split; [|done].
    exists 0. simpl. by rewrite app_nil_r.
  - rewrite for_each_cons.
    pose proof (ddp_group_step_spec xs ys a s) as Hg. cbv zeta in Hg.
    destruct (group_step xs ys a s) as [s1 r1] eqn:Hs1. simpl in Hg.
    destruct Hg as (Hbg & Hlen & Hcfg & Hstep & Hlog & Hok).
    destruct r1 as [[]|e].
    + destruct Hlog as [[_ Hlog]|[[e [=]] _]].
      specialize (IH (S a) s1). cbv zeta in IH.
      destruct (for_each (seq (S a) n) (group_step xs ys) s1) as [s2 r2]. simpl in *.
      destruct IH as (Hbg2 & Hcfg2 & Hstep2 & (k & Hk & Hlog2 & Hkn) & Hok2).
      split; [congruence|]. split; [congruence|]. split; [congruence|]. split.
      * exists (S k). split; [lia|]. split.
        -- rewrite Hlog2, Hlog, <- app_assoc. simpl. do 2 f_equal.
           apply list_fmap_ext. intros _ i _. unfold sync_flag. by rewrite Hbg.
        -- intros Hr. f_equal. by apply Hkn.
      * intros H1 H2 H3. apply Hok2; lia.
    + destruct Hlog as [[[=] _]|[_ Hlog]]. simpl.
      split; [done|]. split; [done|]. split; [done|]. split.
      * exists 0. simpl. rewrite app_nil_r. split; [lia|]. split; [done|]. discriminate.
      * intros H1 H2 H3. exfalso. assert (Raise e = Ok ()) as [=]. apply Hok; lia.
Qed.

Lemma train_optim_step_spec (s : State) :
  let s' := (train_optim_step optimizer_update s).1 in
  let r := (train_optim_step optimizer_update s).2 in
  backward_log s' = backward_log s
  ∧ optimizer_step s' = (optimizer_step s + 1)%N
  ∧ (∀ v, get_schedule (train_config s) (optimizer_step s + 1) = Ok v → r = Ok ()).
Proof.
  unfold train_optim_step, mbind, M_bind, bind_, get_state, modify_, lift_. simpl.
  destruct (get_schedule _ _) as [v|e]; simpl; repeat split; try done.
Qed.

(** C9: in a batch step of the distributed trainer with [G] accumulation
    groups, the backward passes run for the groups 0, 1, ... in this order,
    each with [require_backward_grad_sync] equal to "this is group G-1":
    the flag is set for the last group and clear for every earlier one.
    When the cache slots and the token chunks cover the [G] groups, all [G]
    backward passes run. *)
Theorem ddp_sync_only_last_group (xs ys : list Tok) (s : State) :
  let G := Z.to_nat (batch_groups s) in
  let s' := (train_batch_step_ddp sub_step_compute optimizer_update xs ys s).1 in
  let r := (train_batch_step_ddp sub_step_compute optimizer_update xs ys s).2 in
  ∃ k, k ≤ G
    ∧ backward_log s'
        = backward_log s ++ ((λ i, (i, bool_decide (i + 1 = G))) <$> seq 0 k)
    ∧ (∀ i b, (i, b) ∈ (λ i, (i, bool_decide (i + 1 = G))) <$> seq 0 k →
         (b = true ↔ i = G - 1) ∧ (i < G - 1 → b = false))
    ∧ (r = Ok () → k = G)
    ∧ (G ≤ length (past_key_values_list s) → G ≤ length xs → G ≤ length ys →
         k = G
         ∧ (∀ v, get_schedule (train_config s) (optimizer_step s + 1) = Ok v →
              r = Ok ())).
Proof.
  cbv zeta. unfold train_batch_step_ddp, mbind, M_bind, bind_, get_state. simpl.
  pose proof (ddp_loop_spec xs ys (Z.to_nat (batch_groups s)) 0 s) as Hl.
  cbv zeta in Hl.
  destruct (for_each _ _ s) as [s1 r1]. simpl in Hl.
  destruct Hl as (Hbg & Hcfg & Hstep & (k & Hk & Hlog & Hkn) & Hok).
  exists k. split; [done|].
  assert (∀ i b, (i, b) ∈ (λ i, (i, bool_decide (i + 1 = Z.to_nat (batch_groups s))))
                             <$> seq 0 k →
            (b = true ↔ i = Z.to_nat (batch_groups s) - 1)
            ∧ (i < Z.to_nat (batch_groups s) - 1 → b = false)) as Hflags.
  { intros i b Hin. apply list_elem_of_fmap in Hin as (j & [= -> ->] & Hj).
    apply elem_of_seq in Hj. split.
    - rewrite bool_decide_eq_true. lia.
    - intros Hlt. apply bool_decide_eq_false. lia. }
  destruct r1 as [[]|e].
  - pose proof (train_optim_step_spec s1) as Ho. cbv zeta in Ho.
    destruct (train_optim_step optimizer_update s1) as [s2 r2]. simpl in *.
    destruct Ho as (Hlog2 & _ & Hr2).
    split; [by rewrite Hlog2, Hlog|]. split; [done|].
    split; [intros _; by apply Hkn|].
    intros H1 H2 H3. split; [by apply Hkn|].
    intros v Hv. apply (Hr2 v). by rewrite Hcfg, Hstep.
  - simpl. split; [done|]. split; [done|]. split; [discriminate|].
    intros H1 H2 H3. exfalso. assert (Raise e = Ok ()) as [=]. apply Hok; lia.
Qed.

End DDP.

(** ** The learning-rate schedule *)

Section Schedule.
Import TrainerMod.
Local Open Scope R_scope.

Variable c : LSWTConfigTraining R.
Hypothesis floor_range : 0 <= lr_cooldown_ratio c <= 1.
Hypothesis warmup_pos : (1 ≤ lr_warmup_steps c)%N.
Hypothesis cooldown_beyond : (warmup_tokens c < lr_cooldown_tokens c)%Z.

Lemma Rmin_mono (a b x y : R) : a <= b → x <= y → Rmin a x <= Rmin b y.
Proof. intros. unfold Rmin. repeat destruct (Rle_dec _ _); lra. Qed.

Lemma Rmax_mono (a b x y : R) : a <= b → x <= y → Rmax a x <= Rmax b y.
Proof. intros. unfold Rmax. repeat destruct (Rle_dec _ _); lra. Qed.

Lemma Rdiv_mono (a b d : R) : 0 < d → a <= b → a / d <= b / d.
Proof.
  intros Hd Hab. unfold Rdiv. apply Rmult_le_compat_r; [|done].
  left. by apply Rinv_0_lt_compat.
Qed.

Lemma warmup_steps_pos : 1 <= IZR (Z.of_N (lr_warmup_steps c)).
Proof. apply IZR_le. lia. Qed.

Lemma cooldown_window_pos : 0 < IZR (lr_cooldown_tokens c - warmup_tokens c).
Proof. apply IZR_lt. lia. Qed.

Lemma tokens_seen_mono (s1 s2 : N) :
  (s1 ≤ s2)%N → (tokens_seen c s1 ≤ tokens_seen c s2)%Z.
Proof.
  intros Hs. unfold tokens_seen.
  apply Z.mul_le_mono_nonneg_r; [lia|]. apply Z.mul_le_mono_nonneg_r; lia.
Qed.

Lemma tokens_seen_warmup : tokens_seen c (lr_warmup_steps c) = warmup_tokens c.
Proof. reflexivity. Qed.

Lemma warmup_ratio_range (s : N) : 0 <= warmup_ratio c s <= 1.
Proof.
  unfold warmup_ratio. pose proof warmup_steps_pos as Hw.
  assert (0 <= IZR (Z.of_N s)) by (apply IZR_le; lia).
  assert (0 <= IZR (Z.of_N s) / IZR (Z.of_N (lr_warmup_steps c))).
  { apply Rle_mult_inv_pos; lra. }
  unfold Rmin. destruct (Rle_dec _ _); lra.
Qed.

Lemma warmup_ratio_mono (s1 s2 : N) :
  (s1 ≤ s2)%N → warmup_ratio c s1 <= warmup_ratio c s2.
Proof.
  intros Hs. unfold warmup_ratio. pose proof warmup_steps_pos as Hw.
  apply Rmin_mono; [|lra]. apply Rdiv_mono; [lra|]. apply IZR_le. lia.
Qed.

Lemma warmup_ratio_done (s : N) :
  (lr_warmup_steps c ≤ s)%N → warmup_ratio c s = 1.
Proof.
  intros Hs. unfold warmup_ratio. pose proof warmup_steps_pos as Hw.
  apply Rmin_right.
  assert (IZR (Z.of_N (lr_warmup_steps c)) <= IZR (Z.of_N s)) as Hle
    by (apply IZR_le; lia).
  apply (Rdiv_mono _ _ (IZR (Z.of_N (lr_warmup_steps c)))) in Hle; [|lra].
  unfold Rdiv in Hle at 1. rewrite Rinv_r in Hle; lra.
Qed.

Lemma cooldown_progress_range (s : N) : 0 <= cooldown_progress c s <= 1.
Proof.
  unfold cooldown_progress. pose proof cooldown_window_pos as Hd.
  set (t := IZR (tokens_seen c s - warmup_tokens c)).
  assert (0 <= Rmax t 0) by apply Rmax_r.
  assert (0 <= Rmax t 0 / IZR (lr_cooldown_tokens c - warmup_tokens c)).
  { apply Rle_mult_inv_pos; lra. }
  unfold Rmin. destruct (Rle_dec _ _); lra.
Qed.

Lemma cooldown_progress_mono (s1 s2 : N) :
  (s1 ≤ s2)%N → cooldown_progress c s1 <= cooldown_progress c s2.
Proof.
  intros Hs. unfold cooldown_progress. pose proof cooldown_window_pos as Hd.
  apply Rmin_mono; [|lra]. apply Rdiv_mono; [lra|].
  apply Rmax_mono; [|lra]. apply IZR_le.
  pose proof (tokens_seen_mono s1 s2 Hs). lia.
Qed.

Lemma cooldown_progress_warmup (s : N) :
  (s ≤ lr_warmup_steps c)%N → cooldown_progress c s = 0.
Proof.
  intros Hs. unfold cooldown_progress.
  assert (IZR (tokens_seen c s - warmup_tokens c) <= 0) as Ht.
  { apply IZR_le. pose proof (tokens_seen_mono _ _ Hs).
    rewrite tokens_seen_warmup in *. lia. }
  rewrite Rmax_right by done. unfold Rdiv. rewrite Rmult_0_l.
  apply Rmin_left. lra.
Qed.

Lemma cooldown_progress_end (s : N) :
  (lr_cooldown_tokens c ≤ tokens_seen c s)%Z → cooldown_progress c s = 1.
Proof.
  intros Hs. unfold cooldown_progress. pose proof cooldown_window_pos as Hd.
  apply Rmin_right.
  assert (IZR (lr_cooldown_tokens c - warmup_tokens c)
          <= IZR (tokens_seen c s - warmup_tokens c)) as Hle
    by (apply IZR_le; lia).
  rewrite Rmax_left by lra.
  apply (Rdiv_mono _ _ (IZR (lr_cooldown_tokens c - warmup_tokens c))) in Hle; [|lra].
  unfold Rdiv in Hle at 1. rewrite Rinv_r in Hle; lra.
Qed.

Lemma cooldown_cosine_range (s : N) : 0 <= cooldown_cosine c s <= 1.
Proof.
  unfold cooldown_cosine. pose proof (COS_bound (cooldown_progress c s * PI)). lra.
Qed.

Lemma cooldown_cosine_mono (s1 s2 : N) :
  (s1 ≤ s2)%N → cooldown_cosine c s2 <= cooldown_cosine c s1.
Proof.
  intros Hs. unfold cooldown_cosine.
  pose proof (cooldown_progress_range s1) as H1.
  pose proof (cooldown_progress_range s2) as H2.
  pose proof (cooldown_progress_mono s1 s2 Hs) as H12.
  pose proof PI_RGT_0 as Hpi.
  assert (cos (cooldown_progress c s2 * PI) <= cos (cooldown_progress c s1 * PI)).
  { apply cos_decr_1; nra. }
  lra.
Qed.

Lemma cooldown_ratio_range (s : N) :
  lr_cooldown_ratio c <= cooldown_ratio c s <= 1.
Proof.
  unfold cooldown_ratio. pose proof (cooldown_cosine_range s). nra.
Qed.

Lemma cooldown_ratio_mono (s1 s2 : N) :
  (s1 ≤ s2)%N → cooldown_ratio c s2 <= cooldown_ratio c s1.
Proof.
  intros Hs. unfold cooldown_ratio. pose proof (cooldown_cosine_mono s1 s2 Hs). nra.
Qed.

Lemma cooldown_ratio_warmup (s : N) :
  (s ≤ lr_warmup_steps c)%N → cooldown_ratio c s = 1.
Proof.
  intros Hs. unfold cooldown_ratio, cooldown_cosine.
  rewrite cooldown_progress_warmup by done. rewrite Rmult_0_l, cos_0. lra.
Qed.

Lemma cooldown_ratio_end (s : N) :
  (lr_cooldown_tokens c ≤ tokens_seen c s)%Z →
  cooldown_ratio c s = lr_cooldown_ratio c.
Proof.
  intros Hs. unfold cooldown_ratio, cooldown_cosine.
  rewrite cooldown_progress_end by done. rewrite Rmult_1_l, cos_PI. lra.
Qed.

Lemma end_is_after_warmup (s : N) :
  (lr_cooldown_tokens c ≤ tokens_seen c s)%Z → (lr_warmup_steps c ≤ s)%N.
Proof.
  intros Hs. destruct (N.le_gt_cases (lr_warmup_steps c) s) as [|Hlt]; [done|].
  assert (s ≤ lr_warmup_steps c)%N as Hle by lia.
  pose proof (tokens_seen_mono _ _ Hle). rewrite tokens_seen_warmup in *. lia.
Qed.

(** C6: with a floor in [0, 1], at least one warmup step and a cooldown
    budget strictly beyond the warmup tokens, [get_schedule] returns, at
    every step, the minimum of the warmup ratio [min(step / warmup_steps, 1)]
    and of the cosine cooldown over the tokens seen
    [step * batch_size * length_sequence], rescaled into [floor, 1].  The
    value lies in [0, 1]; up to [lr_warmup_steps] it is the linear ramp
    [step / warmup_steps], which does not decrease; from there on it is the
    cooldown, which does not increase; and it equals the floor once
    [step * batch_size * length_sequence] reaches [lr_cooldown_tokens]. *)
Theorem get_schedule_shape :
  let tokens := λ s : N,
    (Z.of_N s * Z.of_N (batch_size c) * Z.of_N (length_sequence c))%Z in
  let cooldown := λ s : N,
    (cos (Rmin (Rmax (IZR (tokens s - tokens (lr_warmup_steps c))) 0
                / IZR (lr_cooldown_tokens c - tokens (lr_warmup_steps c))) 1 * PI)
     * 0.5 + 0.5) * (1 - lr_cooldown_ratio c) + lr_cooldown_ratio c in
  ∃ ratio : N → R,
    (∀ s, get_schedule c s = Ok (ratio s))
    ∧ (∀ s, ratio s
            = Rmin (Rmin (IZR (Z.of_N s) / IZR (Z.of_N (lr_warmup_steps c))) 1)
                   (cooldown s)
            ∧ lr_cooldown_ratio c <= cooldown s <= 1)
    ∧ (∀ s, 0 <= ratio s <= 1)
    ∧ (∀ s, (s ≤ lr_warmup_steps c)%N →
            ratio s = IZR (Z.of_N s) / IZR (Z.of_N (lr_warmup_steps c)))
    ∧ (∀ s, (lr_warmup_steps c ≤ s)%N → ratio s = cooldown s)
    ∧ (∀ s1 s2, (s1 ≤ s2)%N → (s2 ≤ lr_warmup_steps c)%N → ratio s1 <= ratio s2)
    ∧ (∀ s1 s2, (lr_warmup_steps c ≤ s1)%N → (s1 ≤ s2)%N → ratio s2 <= ratio s1)
    ∧ (∀ s, (lr_cooldown_tokens c ≤ tokens s)%Z → ratio s = lr_cooldown_ratio c).
Proof.
  intros tokens cooldown.
  exists (λ s, Rmin (warmup_ratio c s) (cooldown_ratio c s)).
  split; [|split; [|split; [|split; [|split; [|split; [|split]]]]]].
  - intros s. unfold get_schedule.
    destruct (N.eqb_spec (lr_warmup_steps c) 0) as [Hz|_]; [lia|].
    destruct (Z.eqb_spec (lr_cooldown_tokens c - warmup_tokens c) 0) as [Hz|_]; [lia|].
    reflexivity.
  - intros s. split; [reflexivity|]. apply (cooldown_ratio_range s).
  - intros s. pose proof (warmup_ratio_range s). pose proof (cooldown_ratio_range s).
    unfold Rmin. destruct (Rle_dec _ _); lra.
  - intros s Hs. cbv beta. rewrite cooldown_ratio_warmup by done.
    pose proof (warmup_ratio_range s) as Hr.
    rewrite (Rmin_left (warmup_ratio c s) 1) by lra.
    unfold warmup_ratio. apply Rmin_left.
    pose proof warmup_steps_pos as Hw.
    assert (IZR (Z.of_N s) <= IZR (Z.of_N (lr_warmup_steps c))) as Hle
      by (apply IZR_le; lia).
    apply (Rdiv_mono _ _ (IZR (Z.of_N (lr_warmup_steps c)))) in Hle; [|lra].
    unfold Rdiv in Hle at 2. rewrite Rinv_r in Hle; lra.
  - intros s Hs. change (cooldown s) with (cooldown_ratio c s). cbv beta.
    rewrite warmup_ratio_done by done.
    apply Rmin_right. apply cooldown_ratio_range.
  - intros s1 s2 H12 H2.
    rewrite !cooldown_ratio_warmup by lia.
    apply Rmin_mono; [|lra]. by apply warmup_ratio_mono.
  - intros s1 s2 H1 H12.
    rewrite !warmup_ratio_done by lia.
    apply Rmin_mono; [lra|]. by apply cooldown_ratio_mono.
  - intros s Hs. change (tokens s) with (tokens_seen c s) in Hs.
    rewrite warmup_ratio_done by (by apply end_is_after_warmup).
    rewrite cooldown_ratio_end by done. apply Rmin_right. lra.
Qed.

End Schedule.

(** ** The update rule of Minato *)

Section UpdateRule.
Context {num : Type} `{Scalar num}.
Import MinatoMod.
Implicit Types (h : @hyper num) (param grad exp_avg step_t : @Tensor num).

Lemma update_param_flags h param grad exp_avg step_t param' exp_avg' step_t' :
  update_param h param grad exp_avg step_t = Ok (param', exp_avg', step_t') →
  (is_cuda param' = is_cuda param ∧ is_complex param' = is_complex param)
  ∧ (is_cuda exp_avg' = is_cuda exp_avg ∧ is_complex exp_avg' = is_complex exp_avg)
  ∧ (is_cuda step_t' = is_cuda step_t ∧ data step_t' = (λ s, add s (lit 1)) <$> data step_t).
Proof.
  unfold update_param. intros Hu.
  apply bind_Ok_inv in Hu as (_ & _ & Hu).
  apply bind_Ok_inv in Hu as ([[g m] p] & _ & Hu).
  apply bind_Ok_inv in Hu as (v & _ & Hu).
  injection Hu as <- <- <-. done.
Qed.

(** With the parameter and its step counter on the accelerator and a
    tensor learning rate, the two branches of the update coincide. *)
Lemma update_param_capturable (b x w : num) (mx : bool) param grad exp_avg step_t :
  on_cuda param → on_cuda step_t →
  update_param (mkHyper b (PyTensor x) w mx true) param grad exp_avg step_t
  = update_param (mkHyper b (PyTensor x) w mx false) param grad exp_avg step_t.
Proof.
  unfold on_cuda. intros Hp Hs. unfold update_param. simpl. by rewrite Hp, Hs.
Qed.

Lemma minato_iter_capturable (b x w : num) (mx : bool) grads acc i :
  all_on_cuda acc →
  minato_iter (mkHyper b (PyTensor x) w mx true) grads acc i
  = minato_iter (mkHyper b (PyTensor x) w mx false) grads acc i
  ∧ all_on_cuda (minato_iter (mkHyper b (PyTensor x) w mx false) grads acc i).
Proof.
  destruct acc as [[[ps ms] ss]|e]; [|intros _; by split]. intros [Hps Hss].
  unfold minato_iter. rewrite !result_bind_Ok. unfold getitem.
  destruct (ps !! i) as [p|] eqn:Hp; [|by split].
  destruct (grads !! i) as [g|]; [|by split].
  destruct (ms !! i) as [m|]; [|by split].
  destruct (ss !! i) as [s|] eqn:Hs; [|by split].
  assert (on_cuda p) as Hpc by exact (Forall_lookup_1 on_cuda ps i p Hps Hp).
  assert (on_cuda s) as Hsc by exact (Forall_lookup_1 on_cuda ss i s Hss Hs).
  rewrite !result_bind_Ok.
  rewrite update_param_capturable by done. split; [done|].
  destruct (update_param _ p g m s) as [[[p' m'] s']|e] eqn:Hu; [|done].
  rewrite result_bind_Ok. cbn [all_on_cuda].
  apply update_param_flags in Hu as ((Hp' & _) & _ & (Hs' & _)).
  split; apply Forall_insert; try done; unfold on_cuda; congruence.
Qed.

Lemma minato_loop_capturable (b x w : num) (mx : bool) grads idxs acc :
  all_on_cuda acc →
  foldl (minato_iter (mkHyper b (PyTensor x) w mx true) grads) acc idxs
  = foldl (minato_iter (mkHyper b (PyTensor x) w mx false) grads) acc idxs.
Proof.
  revert acc. induction idxs as [|i idxs IH]; intros acc Hacc; cbn [foldl]; [done|].
  destruct (minato_iter_capturable b x w mx grads acc i Hacc) as [-> Hinv].
  by apply IH.
Qed.

(** With a learning rate that is a tensor, and every parameter and step
    counter on the accelerator, the two modes give the same outcome. *)
Lemma capturable_matches_eager (params grads exp_avgs state_steps : list (@Tensor num))
    (beta lr_value weight_decay : num) (maximize : bool) :
  Forall on_cuda params →
  Forall on_cuda state_steps →
  _single_tensor_minato params grads exp_avgs state_steps
    (mkHyper beta (PyTensor lr_value) weight_decay maximize true)
  = _single_tensor_minato params grads exp_avgs state_steps
      (mkHyper beta (PyTensor lr_value) weight_decay maximize false).
Proof.
  intros Hps Hss. unfold _single_tensor_minato.
  by apply minato_loop_capturable.
Qed.

Lemma view_as_real_data (t v : @Tensor num) :
  view_as_real t = Ok v → data v = data t.
Proof. unfold view_as_real. destruct (is_complex t); [|done]. by intros [= <-]. Qed.

(** The contents of the tensors after a successful update. *)
Lemma update_param_data h param grad exp_avg step_t param' exp_avg' step_t' :
  update_param h param grad exp_avg step_t = Ok (param', exp_avg', step_t') →
  let g := if maximize h then neg <$> data grad else data grad in
  data exp_avg'
    = zip_with (λ m g, add (mul m (beta h)) (mul (sub (lit 1) (beta h)) g))
               (data exp_avg) g
  ∧ data param'
    = addcmul ((λ p, mul p (sub (lit 1) (mul (value (lr h)) (weight_decay h))))
                 <$> data param)
              (sign <$> data exp_avg') (ratio_of (data exp_avg'))
              (neg (value (lr h))).
Proof.
  unfold update_param. intros Hu.
  apply bind_Ok_inv in Hu as (_ & _ & Hu).
  apply bind_Ok_inv in Hu as ([[g m] p] & Hviews & Hu).
  apply bind_Ok_inv in Hu as (v & Hv & Hu).
  injection Hu as <- <- <-. cbn [data with_data].
  assert (data g = (if maximize h then neg <$> data grad else data grad)
          ∧ data m = data exp_avg ∧ data p = data param) as (-> & -> & ->).
  { destruct (is_complex param).
    - apply bind_Ok_inv in Hviews as (g1 & Hg & Hviews).
      apply bind_Ok_inv in Hviews as (m1 & Hm & Hviews).
      apply bind_Ok_inv in Hviews as (p1 & Hp & Hviews).
      apply view_as_real_data in Hg, Hm, Hp.
      assert (g1 = g ∧ m1 = m ∧ p1 = p) as (-> & -> & ->).
      { by injection Hviews as -> -> ->. }
      rewrite Hg, Hm, Hp. by destruct (maximize h).
    - assert ((if maximize h then with_data grad (neg <$> data grad) else grad) = g
              ∧ exp_avg = m ∧ param = p) as (<- & <- & <-).
      { by injection Hviews as -> -> ->. }
      by destruct (maximize h). }
  assert (v = neg (value (lr h))) as ->.
  { destruct (capturable h); [|by injection Hv].
    destruct (lr h); simpl in *; [discriminate|by injection Hv]. }
  done.
Qed.

(** The eager update of a real parameter always returns. *)
Lemma update_param_eager_Ok h param grad exp_avg step_t :
  capturable h = false → is_complex param = false →
  ∃ r, update_param h param grad exp_avg step_t = Ok r.
Proof. intros Hc Hx. unfold update_param. rewrite Hc, Hx. simpl. eauto. Qed.

End UpdateRule.

(** ** Floating-point facts

    What the proofs below need of the IEEE operations: a product or a sum
    that is representable is returned as it is. *)

Section FloatFacts.
Import Floats.
Local Open Scope Z_scope.

Lemma iter_pos_nat {A} (f : A → A) (n : positive) (x : A) :
  SpecFloat.iter_pos f n x = Nat.iter (Pos.to_nat n) f x.
Proof.
  revert x. induction n as [n IH|n IH|]; intros x; cbn [SpecFloat.iter_pos].
  - rewrite !IH, Pos2Nat.inj_xI, <- Nat.iter_add, <- Nat.iter_succ_r. f_equal. lia.
  - rewrite !IH, Pos2Nat.inj_xO, <- Nat.iter_add. f_equal. lia.
  - reflexivity.
Qed.

Lemma shift_nat (m : positive) (n : nat) :
  Zpos (Nat.iter n xO m) = Zpos m * 2 ^ Z.of_nat n.
Proof.
  induction n as [|n IH]; [simpl; lia|].
  rewrite Nat.iter_succ, Pos2Z.inj_xO, IH, Nat2Z.inj_succ, Z.pow_succ_r by lia. lia.
Qed.

Lemma digits2_shift (m : positive) (n : nat) :
  Zpos (digits2_pos (Nat.iter n xO m)) = Zpos (digits2_pos m) + Z.of_nat n.
Proof.
  induction n as [|n IH]; [simpl; lia|].
  rewrite Nat.iter_succ. cbn [digits2_pos]. rewrite Pos2Z.inj_succ, IH. lia.
Qed.

Lemma shr_shift (m : positive) (n : nat) :
  Nat.iter n shr_1 {| shr_m := Zpos (Nat.iter n xO m); shr_r := false; shr_s := false |}
  = {| shr_m := Zpos m; shr_r := false; shr_s := false |}.
Proof.
  induction n as [|n IH]; [done|].
  rewrite Nat.iter_succ_r.
  change (Nat.iter (S n) xO m) with (xO (Nat.iter n xO m)).
  cbn [shr_1 orb]. exact IH.
Qed.

Lemma digits2_pos_bounds (p : positive) :
  2 ^ (Zpos (digits2_pos p) - 1) ≤ Zpos p < 2 ^ Zpos (digits2_pos p).
Proof.
  induction p as [p IH|p IH|]; cbn [digits2_pos]; [| |simpl; lia].
  all: rewrite Pos2Z.inj_succ;
       replace (Z.succ (Zpos (digits2_pos p)) - 1) with (Z.succ (Zpos (digits2_pos p) - 1)) by lia;
       rewrite !Z.pow_succ_r by lia; lia.
Qed.

Lemma binary_round_aux_shift prec emax s m e (n : nat) :
  bounded prec emax m e = true →
  binary_round_aux prec emax s (Zpos (Nat.iter n xO m)) (e - Z.of_nat n) loc_Exact
  = S754_finite s m e.
Proof.
  intros Hb. unfold bounded in Hb. apply andb_true_iff in Hb as [Hc He].
  unfold canonical_mantissa in Hc. apply Z.eqb_eq in Hc.
  unfold binary_round_aux, shr_fexp. cbn [Zdigits2 shr_record_of_loc].
  rewrite digits2_shift.
  replace (Zpos (digits2_pos m) + Z.of_nat n + (e - Z.of_nat n))
    with (Zpos (digits2_pos m) + e) by lia.
  rewrite Hc. replace (e - (e - Z.of_nat n)) with (Z.of_nat n) by lia.
  assert (shr {| shr_m := Zpos (Nat.iter n xO m); shr_r := false; shr_s := false |}
              (e - Z.of_nat n) (Z.of_nat n)
          = ({| shr_m := Zpos m; shr_r := false; shr_s := false |}, e)) as ->.
  { destruct n as [|n].
    - simpl. f_equal. lia.
    - assert (S n = Pos.to_nat (Pos.of_succ_nat n)) as ->
        by (by rewrite SuccNat2Pos.id_succ).
      rewrite positive_nat_Z. unfold shr. rewrite iter_pos_nat, shr_shift.
      f_equal. lia. }
  cbn [shr_m loc_of_shr_record round_nearest_even Zdigits2].
  rewrite Hc, Z.sub_diag. cbn [shr shr_record_of_loc shr_m]. by rewrite He.
Qed.

Lemma binary_round_aux_exact prec emax s (M : positive) (E : Z) m e :
  bounded prec emax m e = true → E ≤ e → Zpos M = Zpos m * 2 ^ (e - E) →
  binary_round_aux prec emax s (Zpos M) E loc_Exact = S754_finite s m e.
Proof.
  intros Hb HE HM.
  assert (M = Nat.iter (Z.to_nat (e - E)) xO m) as ->.
  { apply Pos2Z.inj. rewrite shift_nat, Z2Nat.id by lia. done. }
  replace E with (e - Z.of_nat (Z.to_nat (e - E))) at 2 by lia.
  by apply binary_round_aux_shift.
Qed.

Lemma shl_align_value (mx : positive) (ex ex' : Z) :
  ex' ≤ ex →
  Zpos (fst (shl_align mx ex ex')) = Zpos mx * 2 ^ (ex - ex')
  ∧ snd (shl_align mx ex ex') = ex'.
Proof.
  intros Hle. unfold shl_align. destruct (ex' - ex) as [|d|d] eqn:Hd; [|lia|].
  - cbn [fst snd]. replace (ex - ex') with 0 by lia. split; lia.
  - cbn [fst snd]. split; [|done]. rewrite Pos2Nat.inj_iter.
    change (nat_rect _ mx (λ _, xO) (Pos.to_nat d)) with (Nat.iter (Pos.to_nat d) xO mx).
    rewrite shift_nat. f_equal. f_equal. lia.
Qed.

Lemma binary_round_exact prec emax s (M : positive) (E : Z) m e :
  bounded prec emax m e = true →
  (E ≤ e ∧ Zpos M = Zpos m * 2 ^ (e - E)) ∨ (e ≤ E ∧ Zpos m = Zpos M * 2 ^ (E - e)) →
  binary_round prec emax s M E = S754_finite s m e.
Proof.
  intros Hb HM. pose proof Hb as Hb'. unfold bounded in Hb'.
  apply andb_true_iff in Hb' as [Hc _].
  unfold canonical_mantissa in Hc. apply Z.eqb_eq in Hc.
  assert (Zpos (digits2_pos M) + E = Zpos (digits2_pos m) + e) as Hd.
  { destruct HM as [[HE HM]|[HE HM]].
    - assert (M = Nat.iter (Z.to_nat (e - E)) xO m) as ->.
      { apply Pos2Z.inj. rewrite shift_nat, Z2Nat.id by lia. done. }
      rewrite digits2_shift. lia.
    - assert (m = Nat.iter (Z.to_nat (E - e)) xO M) as ->.
      { apply Pos2Z.inj. rewrite shift_nat, Z2Nat.id by lia. done. }
      rewrite digits2_shift. lia. }
  unfold binary_round. rewrite Hd, Hc.
  destruct HM as [[HE HM]|[HE HM]].
  - unfold shl_align. destruct (e - E) as [|d|d] eqn:Hs; [| |lia].
    all: apply binary_round_aux_exact; [done|lia|by rewrite Hs].
  - destruct (shl_align_value M E e HE) as [Hf Hs].
    destruct (shl_align M E e) as [mz ez]. cbn [fst snd] in Hf, Hs. subst ez.
    apply binary_round_aux_exact; [done|lia|].
    rewrite Z.sub_diag, Hf, HM. lia.
Qed.

(** Float32 numbers that hold the integers up to 2^24. *)
Lemma f32_repr (k : positive) :
  Zpos k ≤ 2 ^ 24 →
  ∃ m e, bounded 24 128 m e = true ∧ -23 ≤ e ≤ 1
         ∧ Zpos m * 2 ^ (e + 23) = Zpos k * 2 ^ 23.
Proof.
  intros Hk. pose proof (digits2_pos_bounds k) as [Hlo Hhi].
  set (d := Zpos (digits2_pos k)) in *.
  assert (1 ≤ d) as Hd1 by (unfold d; lia).
  assert (d ≤ 25) as Hd.
  { destruct (Z_le_gt_dec d 25) as [|Hgt]; [done|].
    assert (2 ^ 25 ≤ 2 ^ (d - 1)) by (apply Z.pow_le_mono_r; lia). lia. }
  destruct (Z.eq_dec d 25) as [Hd25|Hd25].
  - rewrite Hd25 in Hlo. assert (Zpos k = 2 ^ 24) as -> by (simpl in *; lia).
    exists 8388608%positive, 1. split; [reflexivity|]. split; [lia|reflexivity].
  - exists (Nat.iter (Z.to_nat (24 - d)) xO k), (d - 24).
    split; [|split; [lia|]].
    + unfold bounded, canonical_mantissa. apply andb_true_iff. split.
      * apply Z.eqb_eq. rewrite digits2_shift, Z2Nat.id by lia. fold d.
        unfold fexp, emin. lia.
      * apply Z.leb_le. lia.
    + rewrite shift_nat, Z2Nat.id by lia.
      rewrite <- Z.mul_assoc, <- Z.pow_add_r by lia. f_equal. f_equal. lia.
Qed.

Lemma f32_of_Z_repr (k m : positive) (e : Z) :
  bounded 24 128 m e = true → -23 ≤ e ≤ 1 →
  Zpos m * 2 ^ (e + 23) = Zpos k * 2 ^ 23 →
  f32_of_Z (Zpos k) = S754_finite false m e.
Proof.
  intros Hb He Hm. unfold f32_of_Z, binary_normalize.
  apply binary_round_exact; [done|].
  destruct (Z_le_gt_dec e 0) as [He0|He0].
  - right. split; [done|]. rewrite Z.sub_0_l.
    apply (Z.mul_reg_r _ _ (2 ^ (e + 23))); [apply Z.pow_nonzero; lia|].
    rewrite Hm, <- Z.mul_assoc, <- Z.pow_add_r by lia. f_equal. f_equal. lia.
  - left. assert (e = 1) as -> by lia. split; [lia|].
    change (1 - 0) with 1. change (1 + 23) with 24 in Hm. lia.
Qed.

Lemma f32_succ (k : Z) :
  0 ≤ k < 2 ^ 24 → SFadd 24 128 (f32_of_Z k) one32 = f32_of_Z (k + 1).
Proof.
  intros [Hk0 Hk]. destruct k as [|k|k]; [reflexivity| |lia].
  destruct (f32_repr k) as (m & e & Hb & He & Hm); [lia|].
  destruct (f32_repr (k + 1)) as (m' & e' & Hb' & He' & Hm'); [lia|].
  rewrite (f32_of_Z_repr k m e Hb He Hm).
  change (Zpos k + 1) with (Zpos (k + 1)).
  rewrite (f32_of_Z_repr (k + 1) m' e' Hb' He' Hm').
  unfold SFadd, one32. rewrite Z.min_r by lia.
  destruct (shl_align_value m e (-23)) as [Hf _]; [lia|].
  change (shl_align 8388608 (-23) (-23)) with (8388608%positive, -23).
  cbn [fst cond_Zopp]. rewrite <- Pos2Z.inj_add. unfold binary_normalize.
  apply binary_round_exact; [done|]. left. split; [lia|].
  rewrite Pos2Z.inj_add, Hf.
  replace (e - -23) with (e + 23) by lia. replace (e' - -23) with (e' + 23) by lia.
  rewrite Hm, Hm'. rewrite Pos2Z.inj_add. lia.
Qed.

Lemma f32_saturated : SFadd 24 128 (f32_of_Z (2 ^ 24)) one32 = f32_of_Z (2 ^ 24).
Proof. vm_compute. reflexivity. Qed.

Lemma F2Q_f32_of_Z (k : Z) : 0 ≤ k ≤ 2 ^ 24 → F2Q (f32_of_Z k) == inject_Z k.
Proof.
  intros [Hk0 Hk]. destruct k as [|k|k]; [reflexivity| |lia].
  destruct (f32_repr k) as (m & e & Hb & He & Hm); [lia|].
  rewrite (f32_of_Z_repr k m e Hb He Hm). unfold F2Q, cond_Zopp.
  destruct e as [|e|e].
  - change (0 + 23) with 23 in Hm. apply Z.mul_reg_r in Hm; [|lia].
    rewrite Hm. by rewrite Z.mul_1_r.
  - assert (e = 1%positive) as -> by lia. change (1 + 23) with 24 in Hm.
    apply inject_Z_injective. lia.
  - unfold Qeq, inject_Z. cbn [Qnum Qden]. rewrite Pos2Z.inj_pow.
    apply (Z.mul_reg_r _ _ (2 ^ (Zneg e + 23))); [apply Z.pow_nonzero; lia|].
    rewrite Z.mul_1_r, Hm, <- Z.mul_assoc, <- Z.pow_add_r by lia.
    f_equal. f_equal. lia.
Qed.

Lemma to_float32_opp (x : spec_float) : to_float32 (SFopp x) = SFopp (to_float32 x).
Proof.
  destruct x as [s|s| |s m e]; try reflexivity.
  cbn [SFopp to_float32]. unfold binary_round, binary_round_aux.
  destruct (shl_align _ _ _) as [mz ez].
  destruct (shr_fexp _ _ _ _ _) as [mrs' e'].
  destruct (shr_fexp _ _ _ _ _) as [mrs'' e''].
  destruct (shr_m mrs''); [reflexivity| |reflexivity].
  by destruct (_ <=? _).
Qed.

Lemma SFmul_one32 (x : spec_float) :
  valid_binary 24 128 x = true → SFmul 24 128 x one32 = x.
Proof.
  destruct x as [s|s| |s m e]; intros Hv; unfold SFmul, one32.
  1,2: by rewrite xorb_false_r.
  - reflexivity.
  - rewrite xorb_false_r. apply binary_round_aux_exact; [exact Hv|lia|].
    rewrite Pos2Z.inj_mul. replace (e - (e + -23)) with 23 by lia. reflexivity.
Qed.

Lemma SFadd_neg_zero (prec emax : Z) (x : spec_float) :
  SFadd prec emax x (S754_zero true) = x.
Proof. destruct x as [[]|[]| |s m e]; reflexivity. Qed.

End FloatFacts.

(** ** Weight decay and the sign step *)

Section DecayOrder.
Import MinatoMod Floats.
Implicit Types (h : @hyper fnum) (param grad exp_avg step_t : @Tensor fnum).

Lemma arith_T32_l op (x : spec_float) (y : fnum) :
  arith op (T32 x) y = T32 (op 24%Z 128%Z x (elem y)).
Proof. reflexivity. Qed.

Lemma arith_T32_r op (x : fnum) (y : spec_float) :
  arith op x (T32 y) = T32 (op 24%Z 128%Z (elem x) y).
Proof. by destruct x. Qed.

Lemma elem_neg (v : fnum) : elem (neg v) = SFopp (elem v).
Proof. destruct v; [apply to_float32_opp|reflexivity]. Qed.

Lemma lit_one : lit 1 = PyF one64.
Proof. vm_compute. reflexivity. Qed.

Lemma to_float32_one : to_float32 one64 = one32.
Proof. vm_compute. reflexivity. Qed.

Lemma zero_elem_neg (g : fnum) : zero_elem g = true → zero_elem (neg g) = true.
Proof. by destruct g as [x|[s|s| |s m e]]. Qed.

(** The momentum stays zero on a zero gradient. *)
Lemma zero_momentum (b c m g : fnum) :
  zero_elem m = true → zero_elem g = true → finite32 b = true → finite32 c = true →
  zero_elem (add (mul m b) (mul c g)) = true.
Proof.
  destruct m as [x|[s1|s1| |s1 m1 e1]]; try discriminate.
  destruct g as [x|[s2|s2| |s2 m2 e2]]; try discriminate.
  intros _ _ Hb Hc. unfold finite32 in Hb, Hc.
  change (zero_elem (arith SFadd (arith SFmul (T32 (S754_zero s1)) b)
                                 (arith SFmul c (T32 (S754_zero s2)))) = true).
  rewrite arith_T32_r, (arith_T32_l SFmul), arith_T32_l. cbn [elem].
  destruct (elem b) as [sb|sb| |sb mb eb]; try discriminate;
    destruct (elem c) as [sc|sc| |sc mc ec]; try discriminate;
    destruct s1, s2, sb, sc; reflexivity.
Qed.

(** The direction of the step is zero on a zero momentum. *)
Lemma zero_step (m : fnum) :
  zero_elem m = true →
  mul (sign m)
      (clamp_max (div (abs m) (add (lit 0) (lit (1 # 1000000000000000)))) (lit 1))
  = T32 (S754_zero false).
Proof.
  destruct m as [x|[[]|s| |s m e]]; try discriminate; intros _; vm_compute; reflexivity.
Qed.

(** A step of size zero leaves a tensor element as it is. *)
Lemma add_zero_step (y : spec_float) (l : fnum) :
  nonneg32 l = true → add (T32 y) (mul (neg l) (T32 (S754_zero false))) = T32 y.
Proof.
  intros Hl. unfold nonneg32 in Hl.
  change (arith SFadd (T32 y) (arith SFmul (neg l) (T32 (S754_zero false))) = T32 y).
  rewrite arith_T32_r, arith_T32_l. cbn [elem]. rewrite elem_neg.
  destruct (elem l) as [[]|[]| |[] ml el]; try discriminate;
    cbn [SFopp SFmul xorb negb]; by rewrite SFadd_neg_zero.
Qed.

(** C4 (as amended): in every update that returns, each element of the
    parameter is first multiplied by [1 - lr * weight_decay]; the momentum
    is then updated from the old momentum and the gradient alone, and the
    sign step [- lr * sign(m') * ratio(m')] is added to the decayed value,
    not decayed itself.  With Python floats [lr] and [weight_decay] the
    factor is computed in binary64 and converted to float32, and the
    product is a float32 product.  For a float32 parameter with zero
    gradient and zero momentum, with [beta] and [1 - beta] finite and [lr]
    finite and not negative, the result is that float32 product.  The
    eager update of a real parameter always returns. *)
Theorem weight_decay_precedes_step h param grad exp_avg step_t :
  let decayed :=
    (λ p, mul p (sub (lit 1) (mul (value (lr h)) (weight_decay h)))) <$> data param in
  (capturable h = false → is_complex param = false →
     is_ok (update_param h param grad exp_avg step_t) = true)
  ∧ (∀ p l w, value (lr h) = PyF l → weight_decay h = PyF w →
       mul (T32 p) (sub (lit 1) (mul (value (lr h)) (weight_decay h)))
       = T32 (SFmul 24 128 p
                (to_float32 (SFsub 53 1024 one64 (SFmul 53 1024 l w)))))
  ∧ ∀ param' exp_avg' step_t',
      update_param h param grad exp_avg step_t = Ok (param', exp_avg', step_t') →
      data exp_avg'
        = zip_with (λ m g, add (mul m (beta h)) (mul (sub (lit 1) (beta h)) g))
                   (data exp_avg)
                   (if maximize h then neg <$> data grad else data grad)
      ∧ data param'
        = zip_with (λ p x, add p (mul (neg (value (lr h))) x)) decayed
                   (zip_with mul (sign <$> data exp_avg') (ratio_of (data exp_avg')))
      ∧ (Forall (λ p, is_T32 p = true) (data param) →
         Forall (λ g, zero_elem g = true) (data grad) →
         Forall (λ m, zero_elem m = true) (data exp_avg) →
         length (data grad) = length (data param) →
         length (data exp_avg) = length (data param) →
         finite32 (beta h) = true → finite32 (sub (lit 1) (beta h)) = true →
         nonneg32 (value (lr h)) = true →
         data param' = decayed).
Proof.
  intros decayed. split; [|split].
  { intros Hc Hx.
    by destruct (update_param_eager_Ok h param grad exp_avg step_t Hc Hx) as [r ->]. }
  { intros p l w -> ->. rewrite lit_one. reflexivity. }
  intros param' exp_avg' step_t' Hu.
  apply update_param_data in Hu as [Hm Hp]. cbv zeta in Hm, Hp.
  split; [exact Hm|]. split; [exact Hp|].
  intros Hpt Hg0 Hm0 Hlg Hlm Hb Hb1 Hlr.
  set (g := if maximize h then neg <$> data grad else data grad) in *.
  assert (length g = length (data grad)) as Hlg'.
  { unfold g. destruct (maximize h); [apply length_fmap|done]. }
  assert (Forall (λ g, zero_elem g = true) g) as Hg0'.
  { unfold g. destruct (maximize h); [|done].
    apply Forall_fmap. eapply Forall_impl; [exact Hg0|]. intros x. apply zero_elem_neg. }
  apply list_eq. intros j. rewrite Hp. unfold addcmul, decayed.
  rewrite lookup_zip_with, !list_lookup_fmap.
  destruct (data param !! j) as [p|] eqn:Hjp; [|done]. cbn [fmap option_fmap option_map mbind option_bind].
  assert (j < length (data param))%nat as Hj by (eapply lookup_lt_Some; eauto).
  destruct (lookup_lt_is_Some_2 g j) as [gj Hjg]; [lia|].
  destruct (lookup_lt_is_Some_2 (data exp_avg) j) as [m Hjm]; [lia|].
  assert (zero_elem gj = true) as Hgj by exact (Forall_lookup_1 _ _ _ _ Hg0' Hjg).
  assert (zero_elem m = true) as Hmj by exact (Forall_lookup_1 _ _ _ _ Hm0 Hjm).
  assert (is_T32 p = true) as Hpj by exact (Forall_lookup_1 _ _ _ _ Hpt Hjp).
  rewrite lookup_zip_with, list_lookup_fmap. unfold ratio_of. rewrite list_lookup_fmap.
  rewrite Hm, lookup_zip_with, Hjm, Hjg.
  cbn [fmap option_fmap option_map mbind option_bind]. f_equal.
  rewrite zero_step by (by apply zero_momentum).
  destruct p as [x|x]; [discriminate|].
  change (mul (T32 x) ?c) with (arith SFmul (T32 x) c). rewrite arith_T32_l.
  by apply add_zero_step.
Qed.

End DecayOrder.

(** ** One update on given numbers *)

Section Scenario.
Import MinatoMod Examples.

Lemma scenario_momentum :
  (0 * Q2Qc (9 # 10) + (1 - Q2Qc (9 # 10)) * 1 = Q2Qc (1 # 10))%Qc.
Proof. apply Qc_is_canon. vm_compute. reflexivity. Qed.

Lemma scenario_ratio : ratio_of [Q2Qc (1 # 10)] = [1%Qc].
Proof. unfold ratio_of. simpl. f_equal. Qed.

(** The update in exact arithmetic. *)
Lemma scenario_update_param (p0 t : Qc) :
  update_param scenario_hyper (cpu_tensor [p0]) (cpu_tensor [1%Qc]) (cpu_tensor [0%Qc])
               (cpu_tensor [t])
  = Ok (cpu_tensor [(p0 - Q2Qc (1 # 10))%Qc], cpu_tensor [Q2Qc (1 # 10)],
        cpu_tensor [(t + 1)%Qc]).
Proof.
  unfold update_param, scenario_hyper, cpu_tensor, with_data, addcmul.
  cbn [maximize capturable is_complex is_cuda is_sparse data beta lr weight_decay value
       mbind result_bind bind fmap list_fmap zip_with add sub mul neg lit sign
       Qc_Scalar].
  rewrite scenario_momentum, scenario_ratio.
  replace (Qcsign (Q2Qc (1 # 10))) with 1%Qc by reflexivity.
  do 5 f_equal. ring.
Qed.

End Scenario.

Section FloatScenario.
Import MinatoMod Examples Floats.

Lemma scenario_momentum32 :
  add (mul (T32 (S754_zero false)) (lit (9 # 10)))
      (mul (sub (lit 1) (lit (9 # 10))) (T32 one32))
  = T32 tenth32.
Proof. vm_compute. reflexivity. Qed.

Lemma scenario_ratio32 : ratio_of [T32 tenth32] = [T32 one32].
Proof. vm_compute. reflexivity. Qed.

Lemma scenario_factor32 : sub (lit 1) (mul (lit (1 # 10)) (lit 0)) = PyF one64.
Proof. vm_compute. reflexivity. Qed.

Lemma scenario_step32 :
  mul (neg (lit (1 # 10)))
      (mul (sign (T32 tenth32))
           (clamp_max (div (abs (T32 tenth32)) (add (lit 0) (lit (1 # 1000000000000000))))
                      (lit 1)))
  = T32 (SFopp tenth32).
Proof. vm_compute. reflexivity. Qed.

Lemma scenario_update_param32 (p0 t : spec_float) :
  valid_binary 24 128 p0 = true →
  update_param scenario_hyper32 (cpu32 [p0]) (cpu32 [one32]) (cpu32 [S754_zero false])
               (cpu32 [t])
  = Ok (cpu32 [SFadd 24 128 p0 (SFopp tenth32)], cpu32 [tenth32],
        cpu32 [SFadd 24 128 t one32]).
Proof.
  intros Hv.
  unfold update_param, scenario_hyper32, cpu32, with_data, addcmul, ratio_of.
  cbn [maximize capturable is_complex is_cuda is_sparse data beta lr weight_decay value
       mbind result_bind bind fmap list_fmap zip_with].
  rewrite scenario_momentum32, scenario_step32, scenario_factor32, lit_one.
  change (mul (T32 p0) (PyF one64)) with (T32 (SFmul 24 128 p0 (to_float32 one64))).
  change (add (T32 t) (PyF one64)) with (T32 (SFadd 24 128 t (to_float32 one64))).
  rewrite to_float32_one, SFmul_one32 by done. reflexivity.
Qed.

(** C5 (as amended): one eager update of a one-element float32 parameter
    with zero momentum, gradient 1, [beta = 0.9], [lr = 0.1] and
    [weight_decay = 0] leaves [exp_avg] at the float32 number 0.1 (the
    nearest to one tenth, 13421773 / 2^27), has [ratio = 1], and replaces
    the parameter [p0] by the float32 sum of [p0] and minus that number:
    a decrease by one tenth up to float32 rounding; a parameter that is
    zero becomes minus the float32 number 0.1.  The step counter goes up by
    one float32 addition. *)
Theorem scenario_single_update (p0 t : spec_float) :
  valid_binary 24 128 p0 = true →
  _single_tensor_minato [cpu32 [p0]] [cpu32 [one32]] [cpu32 [S754_zero false]]
                        [cpu32 [t]] scenario_hyper32
  = Ok ([cpu32 [SFadd 24 128 p0 (SFopp tenth32)]], [cpu32 [tenth32]],
        [cpu32 [SFadd 24 128 t one32]])
  ∧ ratio_of [T32 tenth32] = [T32 one32]
  ∧ tenth32 = elem (lit (1 # 10))
  ∧ exact_value (T32 tenth32) = Q2Qc (13421773 # 134217728)
  ∧ SFadd 24 128 (S754_zero false) (SFopp tenth32) = SFopp tenth32.
Proof.
  intros Hv. split; [|split; [exact scenario_ratio32|]].
  - unfold _single_tensor_minato, minato_iter. cbn [length seq foldl].
    rewrite !result_bind_Ok. unfold getitem. cbn [lookup list_lookup].
    rewrite !result_bind_Ok, scenario_update_param32 by done. reflexivity.
  - repeat split; vm_compute; reflexivity.
Qed.

End FloatScenario.

(** ** The optimizer step *)

Section StepProperties.
Context {num : Type} `{Scalar num}.
Import MinatoMod.
Implicit Types (h : @hyper num) (ps ms ss grads : list (@Tensor num)).
Implicit Types (st : gmap nat (@PState num)).

Lemma minato_iter_item h grads ps ms ss i :
  minato_iter h grads (Ok (ps, ms, ss)) i
  = item_update h ps grads ms ss i
      ≫= λ '(p', m', s'), Ok (<[i := p']> ps, <[i := m']> ms, <[i := s']> ss).
Proof.
  unfold minato_iter, item_update. rewrite result_bind_Ok.
  destruct (getitem ps i); [|done]. rewrite !result_bind_Ok.
  destruct (getitem grads i); [|done]. rewrite !result_bind_Ok.
  destruct (getitem ms i); [|done]. rewrite !result_bind_Ok.
  destruct (getitem ss i); [|done]. rewrite !result_bind_Ok.
  done.
Qed.

Lemma item_update_ext h grads ps ms ss ps0 ms0 ss0 i :
  ps !! i = ps0 !! i → ms !! i = ms0 !! i → ss !! i = ss0 !! i →
  item_update h ps grads ms ss i = item_update h ps0 grads ms0 ss0 i.
Proof. intros Hp Hm Hs. unfold item_update, getitem. by rewrite Hp, Hm, Hs. Qed.

Lemma item_update_Ok h grads ps ms ss i r :
  item_update h ps grads ms ss i = Ok r →
  ∃ p g m s, ps !! i = Some p ∧ grads !! i = Some g ∧ ms !! i = Some m
             ∧ ss !! i = Some s ∧ update_param h p g m s = Ok r.
Proof.
  unfold item_update. intros Hu.
  apply bind_Ok_inv in Hu as (p & Hp & Hu). apply bind_Ok_inv in Hu as (g & Hg & Hu).
  apply bind_Ok_inv in Hu as (m & Hm & Hu). apply bind_Ok_inv in Hu as (s & Hs & Hu).
  apply getitem_Ok in Hp, Hg, Hm, Hs. eauto 10.
Qed.

Lemma minato_loop_spec h grads ps0 ms0 ss0 (n : nat) :
  loop_post h grads ps0 ms0 ss0 n
    (foldl (minato_iter h grads) (Ok (ps0, ms0, ss0)) (seq 0 n)).
Proof.
  induction n as [|n IH].
  - simpl. split; [done|]. split; [done|]. intros k Hk. lia.
  - rewrite seq_S, foldl_app. cbn [foldl]. simpl (0 + n).
    destruct (foldl _ _ (seq 0 n)) as [[[ps ms] ss]|e].
    2:{ destruct IH as (k & Hk & He). exists k. split; [lia|done]. }
    destruct IH as ((Hlp & Hlm & Hls) & Hsame & Hdone).
    rewrite minato_iter_item.
    destruct (Hsame n (le_n n)) as (Hpn & Hmn & Hsn).
    rewrite (item_update_ext h grads ps ms ss ps0 ms0 ss0 n Hpn Hmn Hsn).
    destruct (item_update h ps0 grads ms0 ss0 n) as [[[p' m'] s']|e] eqn:Hitem.
    2:{ rewrite result_bind_Raise. exists n. split; [lia|done]. }
    rewrite result_bind_Ok. cbn [loop_post].
    apply item_update_Ok in Hitem as Hread.
    destruct Hread as (p & g & m & s & Hp & _ & Hm & Hs & _).
    rewrite <- Hpn in Hp. rewrite <- Hmn in Hm. rewrite <- Hsn in Hs.
    apply lookup_lt_Some in Hp, Hm, Hs.
    split; [by rewrite !length_insert|]. split.
    + intros k Hk. rewrite !list_lookup_insert_ne by lia. apply Hsame. lia.
    + intros k Hk. destruct (decide (k = n)) as [->|Hne].
      * exists p', m', s'. rewrite !list_lookup_insert_eq by done. done.
      * destruct (Hdone k) as (p1 & m1 & s1 & Hk1 & ? & ? & ?); [lia|].
        exists p1, m1, s1. rewrite !list_lookup_insert_ne by lia. done.
Qed.

(** *** Gathering and storing the state *)

Lemma with_grad_cons_None (p : @Param num) (ps : list (@Param num)) :
  p_grad p = None → with_grad (p :: ps) = with_grad ps.
Proof.
  intros Hg. unfold with_grad. rewrite filter_cons_False; [done|].
  rewrite Hg. by intros [? [=]].
Qed.

Lemma with_grad_cons_Some (p : @Param num) (ps : list (@Param num)) g :
  p_grad p = Some g → with_grad (p :: ps) = p :: with_grad ps.
Proof.
  intros Hg. unfold with_grad. rewrite filter_cons_True; [done|].
  rewrite Hg. eauto.
Qed.

Lemma with_grad_elem (p : @Param num) (ps : list (@Param num)) :
  p ∈ with_grad ps ↔ p ∈ ps ∧ is_Some (p_grad p).
Proof. unfold with_grad. rewrite list_elem_of_filter. tauto. Qed.

Lemma gather_spec (capt : bool) (ps : list (@Param num)) st r :
  gather capt ps st = Ok r →
  ga_params r = with_grad ps
  ∧ Forall2 (λ p g, p_grad p = Some g ∧ is_sparse g = false) (ga_params r) (ga_grads r)
  ∧ length (ga_exp_avgs r) = length (ga_params r)
  ∧ length (ga_steps r) = length (ga_params r)
  ∧ (∀ j, j ∉ p_id <$> with_grad ps → ga_state r !! j = st !! j)
  ∧ (NoDup (p_id <$> ps) → ∀ k p, with_grad ps !! k = Some p →
       ga_steps r !! k = Some (st_step (default (init_state capt p) (st !! p_id p)))).
Proof.
  revert st r. induction ps as [|p ps IH]; intros st r; cbn [gather].
  - intros [= <-]. cbn. split; [done|]. split; [constructor|]. done.
  - destruct (p_grad p) as [g|] eqn:Hg.
    2:{ intros Hr. rewrite (with_grad_cons_None p ps Hg).
        destruct (IH st r Hr) as (H1 & H2 & H3 & H4 & H5 & H6).
        split; [done|]. split; [done|]. split; [done|]. split; [done|].
        split; [done|]. intros Hnd. apply H6.
        rewrite ?fmap_cons in Hnd. by apply NoDup_cons in Hnd as [_ ?]. }
    destruct (is_sparse g) eqn:Hsp; [discriminate|].
    intros Hr. apply bind_Ok_inv in Hr as (r' & Hr' & Hr). injection Hr as <-.
    rewrite (with_grad_cons_Some p ps g Hg). cbn.
    destruct (IH _ r' Hr') as (H1 & H2 & H3 & H4 & H5 & H6).
    split; [by rewrite H1|]. split; [by constructor|].
    split; [by rewrite H3|]. split; [by rewrite H4|]. split.
    + intros j Hj. rewrite ?fmap_cons in Hj.
      apply not_elem_of_cons in Hj as [Hne Hj].
      rewrite (H5 j Hj). by rewrite lookup_insert_ne.
    + intros Hnd k q Hk. rewrite ?fmap_cons in Hnd.
      apply NoDup_cons in Hnd as [Hnotin Hnd].
      destruct k as [|k]; cbn in Hk |- *.
      * by injection Hk as <-.
      * specialize (H6 Hnd k q Hk). rewrite lookup_insert_ne in H6; [exact H6|].
        intros Heq. apply Hnotin. rewrite Heq. apply list_elem_of_fmap.
        exists q. split; [done|].
        apply list_elem_of_lookup_2 in Hk. by apply with_grad_elem in Hk as [? _].
Qed.

Lemma store_lookup (ids : list nat) ms ss st :
  length ms = length ids → length ss = length ids → NoDup ids →
  (∀ j, j ∉ ids → store ids ms ss st !! j = st !! j)
  ∧ (∀ k j, ids !! k = Some j →
       ∃ m s, ms !! k = Some m ∧ ss !! k = Some s
              ∧ store ids ms ss st !! j = Some {| st_step := s; st_exp_avg := m |}).
Proof.
  revert ms ss st. induction ids as [|i ids IH]; intros ms ss st Hm Hs Hnd.
  - split; [done|]. intros k j Hk. done.
  - destruct ms as [|m ms]; [done|]. destruct ss as [|s ss]; [done|].
    cbn in Hm, Hs. apply NoDup_cons in Hnd as [Hnotin Hnd].
    cbn [store].
    destruct (IH ms ss (<[i := {| st_step := s; st_exp_avg := m |}]> st))
      as [Hout Hin]; [lia|lia|done|].
    split.
    + intros j Hj. apply not_elem_of_cons in Hj as [Hne Hj].
      rewrite (Hout j Hj). by rewrite lookup_insert_ne.
    + intros k j Hk. destruct k as [|k]; cbn in Hk |- *.
      * injection Hk as <-. exists m, s. split; [done|]. split; [done|].
        rewrite (Hout i Hnotin). by rewrite lookup_insert_eq.
      * by apply Hin.
Qed.

Lemma scatter_spec (ps : list (@Param num)) new :
  Forall2 (λ p p', p_id p' = p_id p ∧ p_grad p' = p_grad p
                   ∧ (p_data p' = p_data p ∨ p_data p' ∈ new))
          ps (scatter ps new).
Proof.
  revert new. induction ps as [|p ps IH]; intros new; cbn [scatter]; [constructor|].
  destruct (p_grad p) as [g|] eqn:Hg.
  - destruct new as [|d new].
    + constructor; [rewrite Hg; auto|apply IH].
    + constructor.
      * cbn. split; [done|]. split; [done|]. right. by left.
      * eapply Forall2_impl; [apply IH|]. intros q q' (? & ? & [?|?]); cbn.
        -- auto.
        -- split; [done|]. split; [done|]. right. by right.
  - constructor; [rewrite Hg; auto|apply IH].
Qed.

Lemma scatter_ids (ps : list (@Param num)) new :
  p_id <$> scatter ps new = p_id <$> ps.
Proof.
  pose proof (scatter_spec ps new) as Hs.
  induction Hs as [|p p' ps ps' (Hid & _) _ IH]; [done|].
  rewrite !fmap_cons. by rewrite Hid, IH.
Qed.

(** *** One group *)

Lemma init_step_value (capt : bool) (p : @Param num) st :
  data (st_step (default (init_state capt p) (st !! p_id p))) = step_value st (p_id p).
Proof. unfold step_value. by destruct (st !! p_id p). Qed.

Lemma with_grad_ids_NoDup (ps : list (@Param num)) :
  NoDup (p_id <$> ps) → NoDup (p_id <$> with_grad ps).
Proof.
  intros Hnd. eapply sublist_NoDup; [exact Hnd|].
  apply fmap_sublist, sublist_filter.
Qed.

Lemma step_group_spec (capt : bool) done st (g : @Group num) done' st' :
  step_group capt (Ok (done, st)) g = Ok (done', st') →
  NoDup (group_ids g) →
  (∃ g', done' = done ++ [g'] ∧ same_group g g')
  ∧ (∀ j, j ∉ p_id <$> with_grad (g_params g) → st' !! j = st !! j)
  ∧ (∀ p, p ∈ with_grad (g_params g) → bumped st st' (p_id p)).
Proof.
  unfold step_group, same_group, bumped, group_ids. rewrite result_bind_Ok. intros Hstep Hnd.
  apply bind_Ok_inv in Hstep as (r & Hr & Hstep).
  apply bind_Ok_inv in Hstep as ([[params' exp_avgs'] steps'] & Hmin & Hstep).
  injection Hstep as <- <-.
  destruct (gather_spec capt _ st r Hr) as (Hwg & Hgrads & Hlm & Hls & Hout & Hsteps).
  pose proof (minato_loop_spec (g_hyper g) (ga_grads r) (p_data <$> ga_params r)
                (ga_exp_avgs r) (ga_steps r) (length (p_data <$> ga_params r))) as Hloop.
  unfold minato, _single_tensor_minato in Hmin. rewrite Hmin in Hloop.
  destruct Hloop as ((Hlp' & Hlm' & Hls') & _ & Hupd).
  rewrite length_fmap in Hlp', Hupd.
  assert (NoDup (p_id <$> ga_params r)) as Hnd'.
  { rewrite Hwg. by apply with_grad_ids_NoDup. }
  destruct (store_lookup (p_id <$> ga_params r) exp_avgs' steps' (ga_state r))
    as [Hstore_out Hstore_in].
  { rewrite length_fmap. lia. } { rewrite length_fmap. lia. } { done. }
  split; [|split].
  - eexists. split; [done|]. cbn. split; [done|]. split; [apply scatter_ids|].
    intros Hreal. rewrite Forall_forall in Hreal.
    apply Forall_forall. intros q' Hq'.
    pose proof (scatter_spec (g_params g) params') as Hsc.
    apply list_elem_of_lookup_1 in Hq' as [i Hi].
    destruct (Forall2_lookup_r _ _ _ _ _ Hsc Hi) as (q & Hq & _ & _ & Hdata).
    assert (real_param q) as Hq_real.
    { apply Hreal. by eapply list_elem_of_lookup_2. }
    unfold real_param in *. destruct Hdata as [->|Hin]; [done|].
    apply list_elem_of_lookup_1 in Hin as [k Hk].
    assert (k < length (ga_params r)) as Hklt.
    { apply lookup_lt_Some in Hk. lia. }
    destruct (Hupd k Hklt) as (p1 & m1 & s1 & Hitem & Hp1 & _ & _).
    apply item_update_Ok in Hitem as (p0 & g0 & m0 & s0 & Hp0 & _ & _ & _ & Hu).
    apply update_param_flags in Hu as ((_ & Hcx) & _).
    assert (p_data q' = p1) as -> by congruence. rewrite Hcx.
    rewrite list_lookup_fmap in Hp0.
    destruct (ga_params r !! k) as [q0|] eqn:Hq0; [|done]. injection Hp0 as <-.
    apply Hreal.
    apply list_elem_of_lookup_2 in Hq0. rewrite Hwg in Hq0.
    by apply with_grad_elem in Hq0 as [? _].
  - intros j Hj. rewrite Hstore_out by (by rewrite Hwg). by apply Hout.
  - intros p Hp. apply list_elem_of_lookup_1 in Hp as [k Hk].
    assert ((p_id <$> ga_params r) !! k = Some (p_id p)) as Hidk.
    { by rewrite list_lookup_fmap, Hwg, Hk. }
    destruct (Hstore_in k (p_id p) Hidk) as (m & s & _ & Hs & Hst).
    exists {| st_step := s; st_exp_avg := m |}. split; [done|]. cbn.
    assert (k < length (ga_params r)) as Hklt.
    { rewrite Hwg. by eapply lookup_lt_Some. }
    destruct (Hupd k Hklt) as (p1 & m1 & s1 & Hitem & _ & _ & Hs1).
    assert (s1 = s) as -> by congruence.
    apply item_update_Ok in Hitem as (p0 & g0 & m0 & s0 & _ & _ & _ & Hs0 & Hu).
    apply update_param_flags in Hu as (_ & _ & (_ & ->)).
    rewrite (Hsteps Hnd k p Hk) in Hs0. injection Hs0 as <-.
    by rewrite init_step_value.
Qed.

(** *** All groups *)

Lemma step_groups_Raise (capt : bool) (gs : list (@Group num)) e :
  foldl (step_group capt) (Raise e) gs = Raise e.
Proof. induction gs as [|g gs IH]; [done|]. exact IH. Qed.

Lemma with_grad_in_ids (g : @Group num) (gs : list (@Group num)) (p : @Param num) :
  g ∈ gs → p ∈ with_grad (g_params g) → p_id p ∈ gs ≫= group_ids.
Proof.
  intros Hg Hp. apply list_elem_of_bind. exists g. split; [|done].
  apply list_elem_of_fmap. exists p. split; [done|].
  by apply with_grad_elem in Hp as [? _].
Qed.

Lemma step_groups_spec (capt : bool) (gs : list (@Group num)) done st done' st' :
  foldl (step_group capt) (Ok (done, st)) gs = Ok (done', st') →
  NoDup (gs ≫= group_ids) →
  (∃ gs', done' = done ++ gs' ∧ Forall2 same_group gs gs')
  ∧ (∀ j, (∀ g p, g ∈ gs → p ∈ with_grad (g_params g) → p_id p ≠ j) →
          st' !! j = st !! j)
  ∧ (∀ g p, g ∈ gs → p ∈ with_grad (g_params g) → bumped st st' (p_id p)).
Proof.
  revert done st. induction gs as [|g gs IH]; intros done st; cbn [foldl].
  - intros [= <- <-] _. split; [|split].
    + exists []. by rewrite app_nil_r.
    + done.
    + intros g p Hg. by apply elem_of_nil in Hg.
  - destruct (step_group capt (Ok (done, st)) g) as [[done1 st1]|e] eqn:Hg.
    2:{ rewrite step_groups_Raise. discriminate. }
    intros Hfold Hnd. rewrite bind_cons in Hnd.
    apply NoDup_app in Hnd as (Hnd_g & Hdisj & Hnd_gs).
    destruct (step_group_spec capt done st g done1 st1 Hg Hnd_g)
      as ((g1 & -> & Hsame) & Hout_g & Hin_g).
    destruct (IH _ _ Hfold Hnd_gs) as ((gs' & -> & Hsames) & Hout & Hin).
    split; [|split].
    + exists (g1 :: gs'). split; [by rewrite <- app_assoc|]. by constructor.
    + intros j Hj. rewrite Hout.
      * apply Hout_g. intros Hin_j.
        apply list_elem_of_fmap in Hin_j as (p & -> & Hp).
        by apply (Hj g p (list_elem_of_here _ _)).
      * intros g2 p Hg2. apply Hj. by apply list_elem_of_further.
    + intros g0 p Hg0 Hp. apply elem_of_cons in Hg0 as [->|Hg0].
      * destruct (Hin_g p Hp) as (s1 & Hs1 & Hdata).
        exists s1. split; [|done]. rewrite Hout; [done|].
        intros g2 p2 Hg2 Hp2 Heq.
        apply (Hdisj (p_id p)).
        -- apply list_elem_of_fmap. exists p. split; [done|].
           by apply with_grad_elem in Hp as [? _].
        -- rewrite <- Heq. by apply (with_grad_in_ids g2).
      * destruct (Hin g0 p Hg0 Hp) as (s' & Hs' & Hdata).
        exists s'. split; [done|]. rewrite Hdata. f_equal.
        unfold step_value. rewrite Hout_g; [done|].
        intros Hin_g'. apply (Hdisj (p_id p)).
        -- apply list_elem_of_fmap in Hin_g' as (q & Hq & Hq').
           apply list_elem_of_fmap. exists q. split; [done|].
           by apply with_grad_elem in Hq' as [? _].
        -- by apply (with_grad_in_ids g0).
Qed.

Lemma step_spec (opt opt' : @Minato num) :
  step opt = Ok opt' →
  NoDup (param_ids opt) →
  defaults opt' = defaults opt
  ∧ Forall2 same_group (param_groups opt) (param_groups opt')
  ∧ (∀ j, (∀ g p, g ∈ param_groups opt → p ∈ with_grad (g_params g) → p_id p ≠ j) →
          state opt' !! j = state opt !! j)
  ∧ (∀ g p, g ∈ param_groups opt → p ∈ with_grad (g_params g) →
            bumped (state opt) (state opt') (p_id p)).
Proof.
  unfold step, param_ids. intros Hstep Hnd.
  apply bind_Ok_inv in Hstep as ([groups st'] & Hfold & Hstep).
  injection Hstep as <-. cbn.
  destruct (step_groups_spec _ _ _ _ _ _ Hfold Hnd) as ((gs' & -> & Hsame) & ? & ?).
  done.
Qed.

Lemma same_groups_ids (gs gs' : list (@Group num)) :
  Forall2 same_group gs gs' → gs' ≫= group_ids = gs ≫= group_ids.
Proof.
  induction 1 as [|g g' gs gs' (_ & Hid & _) _ IH]; [done|].
  rewrite !bind_cons. by rewrite Hid, IH.
Qed.

Lemma same_groups_eager_real (gs gs' : list (@Group num)) :
  Forall2 same_group gs gs' → eager_real gs → eager_real gs'.
Proof.
  unfold eager_real.
  induction 1 as [|g g' gs gs' (Hh & _ & Hreal) _ IH]; [done|].
  intros Hall. apply Forall_cons in Hall as [[Hc Hr] Hall].
  constructor; [|by apply IH]. split; [by rewrite Hh|by apply Hreal].
Qed.

(** *** Steps with given gradients *)

Lemma set_grads_ids gr (opt : @Minato num) :
  param_ids (set_grads gr opt) = param_ids opt.
Proof.
  unfold param_ids, set_grads. cbn.
  induction (param_groups opt) as [|g gs IH]; [done|].
  rewrite fmap_cons, !bind_cons, IH. f_equal.
  unfold group_ids. cbn. rewrite <- list_fmap_compose. done.
Qed.

Lemma set_grads_with_grad gr (opt : @Minato num) g p :
  g ∈ param_groups (set_grads gr opt) → p ∈ g_params g → p_grad p = gr (p_id p).
Proof.
  unfold set_grads. cbn. intros Hg Hp.
  apply list_elem_of_fmap in Hg as (g0 & -> & _). cbn in Hp.
  apply list_elem_of_fmap in Hp as (p0 & -> & _). done.
Qed.

Lemma set_grads_elem gr (opt : @Minato num) j :
  j ∈ param_ids opt →
  ∃ g p, g ∈ param_groups (set_grads gr opt) ∧ p ∈ g_params g
         ∧ p_id p = j ∧ p_grad p = gr j.
Proof.
  unfold param_ids. intros Hj.
  apply list_elem_of_bind in Hj as (g0 & Hj & Hg0).
  apply list_elem_of_fmap in Hj as (p0 & -> & Hp0).
  eexists _, {| p_id := p_id p0; p_data := p_data p0; p_grad := gr (p_id p0) |}.
  split; [|split; [|done]].
  - unfold set_grads. cbn. apply list_elem_of_fmap. exists g0. done.
  - cbn. apply list_elem_of_fmap. exists p0. done.
Qed.

Lemma set_grads_eager_real gr (opt : @Minato num) :
  eager_real (param_groups opt) → eager_real (param_groups (set_grads gr opt)).
Proof.
  unfold eager_real, set_grads. cbn. intros Hall.
  apply Forall_fmap. eapply Forall_impl; [exact Hall|].
  intros g [Hc Hr]. cbn. split; [done|].
  apply Forall_fmap. eapply Forall_impl; [exact Hr|]. done.
Qed.

(** The effect of one call of [step] on the state of the parameter [j]:
    untouched when [j] has no gradient, its counter incremented (and the
    entry created if it was missing) when it has one. *)
Lemma step_set_grads gr (opt opt' : @Minato num) :
  step (set_grads gr opt) = Ok opt' →
  NoDup (param_ids opt) →
  param_ids opt' = param_ids opt
  ∧ (eager_real (param_groups opt) → eager_real (param_groups opt'))
  ∧ (∀ j, gr j = None → state opt' !! j = state opt !! j)
  ∧ (∀ j, j ∈ param_ids opt → is_Some (gr j) → bumped (state opt) (state opt') j).
Proof.
  intros Hstep Hnd. rewrite <- (set_grads_ids gr) in Hnd.
  destruct (step_spec _ _ Hstep Hnd) as (_ & Hsame & Hout & Hin).
  split; [|split; [|split]].
  - rewrite <- (set_grads_ids gr opt). unfold param_ids.
    exact (same_groups_ids _ _ Hsame).
  - intros Her. eapply same_groups_eager_real; [exact Hsame|].
    by apply set_grads_eager_real.
  - intros j Hj. apply Hout. intros g p Hg Hp Heq. subst j.
    apply with_grad_elem in Hp as [Hp [x Hx]].
    rewrite (set_grads_with_grad gr opt g p Hg Hp) in Hx. congruence.
  - intros j Hj Hgr.
    destruct (set_grads_elem gr opt j Hj) as (g & p & Hg & Hp & <- & Hpg).
    apply (Hin g p Hg). apply with_grad_elem. split; [done|]. by rewrite Hpg.
Qed.

(** *** Eager steps on real parameters with dense gradients return *)

Lemma gather_total (capt : bool) (ps : list (@Param num)) st :
  dense_grads ps → ∃ r, gather capt ps st = Ok r.
Proof.
  unfold dense_grads. revert st.
  induction ps as [|p ps IH]; intros st Hd; cbn [gather]; [eauto|].
  apply Forall_cons in Hd as [Hp Hd].
  destruct (p_grad p) as [g|]; [|by apply IH].
  rewrite (Hp g eq_refl).
  destruct (IH (<[p_id p := default (init_state capt p) (st !! p_id p)]> st) Hd)
    as [r ->].
  rewrite result_bind_Ok. eauto.
Qed.

Lemma minato_total h grads ps ms ss :
  capturable h = false → Forall (λ t, is_complex t = false) ps →
  length grads = length ps → length ms = length ps → length ss = length ps →
  ∃ r, minato ps grads ms ss h = Ok r.
Proof.
  intros Hc Hreal Hg Hm Hs. unfold minato, _single_tensor_minato.
  pose proof (minato_loop_spec h grads ps ms ss (length ps)) as Hloop.
  destruct (foldl _ _ _) as [r|e]; [eauto|].
  destruct Hloop as (k & Hk & Hraise). exfalso.
  destruct (lookup_lt_is_Some_2 ps k) as [p Hp]; [lia|].
  destruct (lookup_lt_is_Some_2 grads k) as [g Hgk]; [lia|].
  destruct (lookup_lt_is_Some_2 ms k) as [m Hmk]; [lia|].
  destruct (lookup_lt_is_Some_2 ss k) as [s Hsk]; [lia|].
  unfold item_update, getitem in Hraise. rewrite Hp, Hgk, Hmk, Hsk in Hraise.
  rewrite !result_bind_Ok in Hraise.
  destruct (update_param_eager_Ok h p g m s Hc) as [r Hr].
  { exact (Forall_lookup_1 _ _ _ _ Hreal Hp). }
  congruence.
Qed.

(** In capturable mode the update needs a learning rate that is a tensor. *)
Lemma update_param_capturable_float h param grad exp_avg step_t x :
  capturable h = true → lr h = PyFloat x →
  is_ok (update_param h param grad exp_avg step_t) = false.
Proof.
  intros Hc Hlr.
  destruct (update_param h param grad exp_avg step_t) as [r|e] eqn:Hu; [|done].
  exfalso. unfold update_param in Hu.
  apply bind_Ok_inv in Hu as (_ & _ & Hu).
  apply bind_Ok_inv in Hu as ([[g m] p] & _ & Hu).
  apply bind_Ok_inv in Hu as (v & Hv & _).
  rewrite Hc, Hlr in Hv. discriminate.
Qed.

Lemma minato_capturable_float h grads ps ms ss x :
  capturable h = true → lr h = PyFloat x → ps ≠ [] →
  is_ok (minato ps grads ms ss h) = false.
Proof.
  intros Hc Hlr Hne.
  destruct (minato ps grads ms ss h) as [[[ps' ms'] ss']|e] eqn:Hmin; [|done].
  exfalso.
  pose proof (minato_loop_spec h grads ps ms ss (length ps)) as Hloop.
  unfold minato, _single_tensor_minato in Hmin. rewrite Hmin in Hloop.
  destruct Hloop as (_ & _ & Hupd).
  destruct ps as [|p0 ps]; [done|].
  destruct (Hupd 0) as (p' & m' & s' & Hitem & _); [cbn; lia|].
  apply item_update_Ok in Hitem as (p & g & m & s & _ & _ & _ & _ & Hu).
  pose proof (update_param_capturable_float h p g m s x Hc Hlr) as Hno.
  by rewrite Hu in Hno.
Qed.

(** A capturable update that returns has passed the assertion. *)
Lemma update_param_Ok_capturable h param grad exp_avg step_t r :
  update_param h param grad exp_avg step_t = Ok r → capturable h = true →
  is_cuda param = true ∧ is_cuda step_t = true.
Proof.
  unfold update_param. intros Hu Hc.
  apply bind_Ok_inv in Hu as (u & Hassert & _). rewrite Hc in Hassert.
  destruct (is_cuda param), (is_cuda step_t); try discriminate. done.
Qed.

(** With a learning rate that is a Python float, which is what the
    signature declares and what [Minato.step] passes from the group, the
    capturable branch calls [lr.neg()] and does not return for any
    non-empty list of parameters, while the eager update of real parameters
    with lists of matching length returns. *)
Lemma capturable_float_lr (params grads exp_avgs state_steps : list (@Tensor num))
    (beta_ weight_decay_ x : num) (maximize_ : bool) :
  params ≠ [] →
  is_ok (_single_tensor_minato params grads exp_avgs state_steps
           (mkHyper beta_ (PyFloat x) weight_decay_ maximize_ true)) = false
  ∧ (Forall (λ t, is_complex t = false) params →
     length grads = length params → length exp_avgs = length params →
     length state_steps = length params →
     is_ok (_single_tensor_minato params grads exp_avgs state_steps
              (mkHyper beta_ (PyFloat x) weight_decay_ maximize_ false)) = true).
Proof.
  intros Hne. split.
  - by apply (minato_capturable_float _ grads params exp_avgs state_steps x).
  - intros Hreal Hg Hm Hs.
    destruct (minato_total (mkHyper beta_ (PyFloat x) weight_decay_ maximize_ false)
                grads params exp_avgs state_steps eq_refl Hreal Hg Hm Hs) as [r Hr].
    unfold minato in Hr. by rewrite Hr.
Qed.


Lemma step_group_total (capt : bool) done st (g : @Group num) :
  capturable (g_hyper g) = false → Forall real_param (g_params g) →
  dense_grads (g_params g) →
  ∃ r, step_group capt (Ok (done, st)) g = Ok r.
Proof.
  intros Hc Hreal Hd. unfold step_group. rewrite result_bind_Ok.
  destruct (gather_total capt (g_params g) st Hd) as [r Hr]. rewrite Hr.
  rewrite result_bind_Ok.
  destruct (gather_spec capt _ st r Hr) as (Hwg & Hgrads & Hlm & Hls & _ & _).
  destruct (minato_total (g_hyper g) (ga_grads r) (p_data <$> ga_params r)
              (ga_exp_avgs r) (ga_steps r)) as [[[ps' ms'] ss'] Hmin].
  - done.
  - apply Forall_fmap. rewrite Hwg. apply Forall_forall. intros p Hp.
    apply with_grad_elem in Hp as [Hp _].
    rewrite Forall_forall in Hreal. by apply Hreal.
  - rewrite length_fmap. symmetry. by eapply Forall2_length.
  - by rewrite length_fmap.
  - by rewrite length_fmap.
  - rewrite Hmin, result_bind_Ok. eauto.
Qed.

Lemma step_groups_total (capt : bool) (gs : list (@Group num)) done st :
  eager_real gs → Forall (λ g, dense_grads (g_params g)) gs →
  ∃ r, foldl (step_group capt) (Ok (done, st)) gs = Ok r.
Proof.
  unfold eager_real. revert done st.
  induction gs as [|g gs IH]; intros done st Her Hd; cbn [foldl]; [eauto|].
  apply Forall_cons in Her as [[Hc Hr] Her]. apply Forall_cons in Hd as [Hdg Hd].
  destruct (step_group_total capt done st g Hc Hr Hdg) as [[done1 st1] ->].
  by apply IH.
Qed.

Lemma step_total (opt : @Minato num) :
  eager_real (param_groups opt) →
  Forall (λ g, dense_grads (g_params g)) (param_groups opt) →
  ∃ opt', step opt = Ok opt'.
Proof.
  intros Her Hd. unfold step.
  destruct (step_groups_total (capturable (defaults opt)) (param_groups opt)
              [] (state opt) Her Hd) as [[groups st] ->].
  rewrite result_bind_Ok. eauto.
Qed.

Lemma set_grads_dense gr (opt : @Minato num) :
  dense gr →
  Forall (λ g, dense_grads (g_params g)) (param_groups (set_grads gr opt)).
Proof.
  intros Hd. unfold set_grads, dense_grads. cbn.
  apply Forall_fmap, Forall_forall. intros g _. cbn.
  apply Forall_fmap, Forall_forall. intros p _. cbn. apply Hd.
Qed.

Lemma run_steps_total (gradss : list (nat → option (@Tensor num))) (opt : @Minato num) :
  NoDup (param_ids opt) → eager_real (param_groups opt) → Forall dense gradss →
  ∃ opt', run_steps opt gradss = Ok opt'.
Proof.
  revert opt. induction gradss as [|gr gradss IH]; intros opt Hnd Her Hd;
    cbn [run_steps]; [eauto|].
  apply Forall_cons in Hd as [Hgr Hd].
  destruct (step_total (set_grads gr opt)) as [opt1 Hstep].
  { by apply set_grads_eager_real. } { by apply set_grads_dense. }
  rewrite Hstep, result_bind_Ok.
  destruct (step_set_grads gr opt opt1 Hstep Hnd) as (Hids & Her1 & _ & _).
  apply IH; [by rewrite Hids|by apply Her1|done].
Qed.

End StepProperties.

(** ** The step counter *)

Section StepCounter.
Context {num : Type} `{Scalar num}.
Import MinatoMod.
Implicit Types (opt : @Minato num) (gradss : list (nat → option (@Tensor num))).

(** The counter of a parameter that has a gradient in every call is
    incremented once per call. *)
Lemma run_steps_count gradss opt opt' (j : nat) :
  run_steps opt gradss = Ok opt' →
  NoDup (param_ids opt) → j ∈ param_ids opt →
  Forall (λ grads, is_Some (grads j)) gradss →
  step_value (state opt') j
    = Nat.iter (length gradss) (fmap (λ x, add x (lit 1))) (step_value (state opt) j)
  ∧ (gradss ≠ [] ∨ is_Some (state opt !! j) → is_Some (state opt' !! j)).
Proof.
  revert opt. induction gradss as [|gr gradss IH]; intros opt Hrun Hnd Hj Hall;
    cbn [run_steps] in Hrun.
  - injection Hrun as <-. split; [done|]. intros [?|?]; done.
  - apply bind_Ok_inv in Hrun as (opt1 & Hstep & Hrun).
    apply Forall_cons in Hall as [Hgr Hall].
    destruct (step_set_grads gr opt opt1 Hstep Hnd) as (Hids & _ & _ & Hbump).
    destruct (Hbump j Hj Hgr) as (s1 & Hs1 & Hdata).
    destruct (IH opt1 Hrun) as [Hval Hsome]; [by rewrite Hids|by rewrite Hids|done|].
    split.
    + rewrite Hval. cbn [length]. rewrite Nat.iter_succ_r. f_equal.
      unfold step_value at 1. by rewrite Hs1, Hdata.
    + intros _. apply Hsome. right. by rewrite Hs1.
Qed.

End StepCounter.

Section FloatCounter.
Import MinatoMod Floats.
Implicit Types (opt : @Minato fnum) (gradss : list (nat → option (@Tensor fnum))).

(** A float32 counter that starts at zero holds [n] after [n] increments
    up to 2^24, and 2^24 from then on. *)
Lemma counter_after (n : nat) :
  Nat.iter n (fmap (λ x : fnum, add x (lit 1))) [tensor_of (lit 0)]
  = [T32 (f32_of_Z (Z.min (Z.of_nat n) (2 ^ 24)))].
Proof.
  induction n as [|n IH]; [reflexivity|].
  rewrite Nat.iter_succ, IH. cbn [fmap list_fmap]. rewrite lit_one. f_equal.
  change (add (T32 ?c) (PyF one64)) with (T32 (SFadd 24 128 c (to_float32 one64))).
  rewrite to_float32_one. f_equal.
  destruct (Z_lt_le_dec (Z.of_nat n) (2 ^ 24)) as [Hlt|Hge].
  - rewrite Z.min_l, Z.min_l by lia. rewrite f32_succ by lia. f_equal. lia.
  - rewrite Z.min_r, Z.min_r by lia. apply f32_saturated.
Qed.

Lemma exact_f32_of_Z (k : Z) :
  (0 ≤ k ≤ 2 ^ 24)%Z → exact_value (T32 (f32_of_Z k)) = Q2Qc (inject_Z k).
Proof.
  intros Hk. unfold exact_value. apply Qc_is_canon. simpl.
  by rewrite !Qred_correct, F2Q_f32_of_Z.
Qed.

Lemma run_steps_counter gradss opt opt' (i : nat) :
  NoDup (param_ids opt) → i ∈ param_ids opt → state opt !! i = None →
  Forall (λ grads, is_Some (grads i)) gradss →
  run_steps opt gradss = Ok opt' → gradss ≠ [] →
  ∃ s, state opt' !! i = Some s
       ∧ data (st_step s) = [T32 (f32_of_Z (Z.min (Z.of_nat (length gradss)) (2 ^ 24)))]
       ∧ exact_value <$> data (st_step s)
         = [Q2Qc (inject_Z (Z.min (Z.of_nat (length gradss)) (2 ^ 24)))].
Proof.
  intros Hnd Hi Hnone Hall Hrun Hne.
  destruct (run_steps_count gradss opt opt' i Hrun Hnd Hi Hall) as [Hval Hsome].
  destruct Hsome as [s Hs]; [by left|].
  exists s. split; [done|].
  unfold step_value in Hval. rewrite Hs, Hnone, counter_after in Hval.
  rewrite Hval. split; [done|]. cbn [fmap list_fmap]. f_equal.
  apply exact_f32_of_Z. lia.
Qed.

(** C7 (as amended): for a parameter [i] of an optimizer that holds no
    state for it yet, after [n] calls of [step] in each of which [i] had a
    gradient, the state of [i] exists and its step counter, a float32
    number, is exactly [n] as long as [n] is at most 2^24 = 16777216; from
    there on it stays at 2^24.  Before any such call, and after a call in
    which [i] had no gradient, there is still no state for [i].  In eager
    mode on real-valued parameters with dense gradients the [n] calls do
    return. *)
Theorem step_counter_counts_updates opt gradss (i : nat) :
  NoDup (param_ids opt) →
  i ∈ param_ids opt →
  state opt !! i = None →
  Forall (λ grads, is_Some (grads i)) gradss →
  (eager_real (param_groups opt) → Forall dense gradss →
     is_ok (run_steps opt gradss) = true)
  ∧ (∀ opt', run_steps opt gradss = Ok opt' →
       (gradss = [] → state opt' !! i = None)
       ∧ (gradss ≠ [] →
          ∃ s, state opt' !! i = Some s
               ∧ data (st_step s)
                 = [T32 (f32_of_Z (Z.min (Z.of_nat (length gradss)) (2 ^ 24)))]
               ∧ exact_value <$> data (st_step s)
                 = [Q2Qc (inject_Z (Z.min (Z.of_nat (length gradss)) (2 ^ 24)))]))
  ∧ (∀ grads opt', grads i = None → step (set_grads grads opt) = Ok opt' →
       state opt' !! i = None).
Proof.
  intros Hnd Hi Hnone Hall. split; [|split].
  - intros Her Hd. by destruct (run_steps_total gradss opt Hnd Her Hd) as [opt' ->].
  - intros opt' Hrun. split.
    + intros ->. cbn in Hrun. by injection Hrun as <-.
    + intros Hne. by apply (run_steps_counter gradss opt opt' i).
  - intros grads opt' Hg Hstep.
    destruct (step_set_grads grads opt opt' Hstep Hnd) as (_ & _ & Hsame & _).
    by rewrite (Hsame i Hg).
Qed.

End FloatCounter.

(** ** Optimizer construction *)

Section LoadOptimizer.
Context {num : Type} `{Scalar num}.
Context {MinatoT AdamWT LaPropT ZeroT : Type}.
Import MinatoMod TrainerMod.
Variable Minato : @kwargs num → result MinatoT.
Variable AdamW : @kwargs num → result AdamWT.
Variable LaProp : @kwargs num → result LaPropT.
Variable ZeroRedundancyOptimizer : optimizer_class → @kwargs num → result ZeroT.
Variable get_param_groups : list (@group_spec num).

Local Abbreviation load := (_load_optimizer (ZeroT:=ZeroT) Minato AdamW LaProp get_param_groups).
Local Abbreviation load_ddp :=
  (_load_optimizer_ddp (MinatoT:=MinatoT) (AdamWT:=AdamWT) (LaPropT:=LaPropT)
                       ZeroRedundancyOptimizer get_param_groups).

(** A name outside the three that [Trainer._load_optimizer] tests raises
    [ValueError]. *)
Lemma load_optimizer_unrecognized (c : LSWTConfigTraining num) :
  optimizer c ≠ "Minato" → optimizer c ≠ "AdamW" → optimizer c ≠ "LaProp" →
  load c = Raise (ValueError "Invalid optimizer").
Proof.
  intros H1 H2 H3. unfold _load_optimizer.
  apply String.eqb_neq in H1, H2, H3. by rewrite H1, H2, H3.
Qed.

(** The distributed trainer does not offer ['AdamW']. *)
Lemma load_optimizer_ddp_AdamW (c : LSWTConfigTraining num) :
  load_ddp (with_optimizer "AdamW" c) = Raise (ValueError "Invalid optimizer").
Proof. reflexivity. Qed.

Lemma fmap_Raise_inv {X Y} (f : X → Y) (r : result X) e :
  f <$> r = Raise e → r = Raise e.
Proof. destruct r; [discriminate|]. by intros [= ->]. Qed.

(** C2 (as amended): [Trainer._load_optimizer] resolves each of the names
    ['Minato'], ['AdamW'] and ['LaProp'] to its class and returns what the
    constructor of that class returns on the hyperparameters of the
    configuration, so that for these names an exception can only be the
    constructor's own; every other name raises
    [ValueError('Invalid optimizer')].  [TrainerDDP._load_optimizer] does the
    same for ['LaProp'] and ['Minato'], through [ZeroRedundancyOptimizer],
    and raises the [ValueError] for every other name, ['AdamW'] included. *)
Theorem load_optimizer_dispatch (c : LSWTConfigTraining num) :
  (optimizer c = "Minato" →
     load c = OptMinato <$> Minato
                [ ("params", VParams get_param_groups); ("lr", VFloat (lit 0));
                  ("betas", VTuple (VFloat (opt_beta_1 c)) (VFloat (opt_beta_2 c)));
                  ("eps", VFloat (opt_eps c)); ("rho", VFloat (opt_rho c));
                  ("weight_decay", VFloat (opt_weight_decay c)) ])
  ∧ (optimizer c = "AdamW" →
     load c = OptAdamW <$> AdamW
                [ ("params", VParams get_param_groups); ("lr", VFloat (lit 0));
                  ("betas", VTuple (VFloat (opt_beta_1 c)) (VFloat (opt_beta_2 c)));
                  ("eps", VFloat (opt_eps c));
                  ("weight_decay", VFloat (opt_weight_decay c));
                  ("fused", VBool true) ])
  ∧ (optimizer c = "LaProp" →
     load c = OptLaProp <$> LaProp
                [ ("params", VParams get_param_groups); ("lr", VFloat (lit 0));
                  ("betas", VTuple (VFloat (opt_beta_1 c)) (VFloat (opt_beta_2 c)));
                  ("eps", VFloat (opt_eps c));
                  ("weight_decay", VFloat (opt_weight_decay c)) ])
  ∧ (optimizer c ∉ ["Minato"; "AdamW"; "LaProp"] →
     load c = Raise (ValueError "Invalid optimizer"))
  ∧ (∀ e, load c = Raise e → optimizer c ∈ ["Minato"; "AdamW"; "LaProp"] →
          (∃ kw, Minato kw = Raise e) ∨ (∃ kw, AdamW kw = Raise e)
          ∨ (∃ kw, LaProp kw = Raise e))
  ∧ (optimizer c = "LaProp" →
     load_ddp c = OptZero <$> ZeroRedundancyOptimizer ClassLaProp
                    [ ("params", VParams get_param_groups); ("lr", VFloat (lit 0));
                      ("betas", VTuple (VFloat (opt_beta_1 c)) (VFloat (opt_beta_2 c)));
                      ("eps", VFloat (opt_eps c));
                      ("weight_decay", VFloat (opt_weight_decay c)) ])
  ∧ (optimizer c = "Minato" →
     load_ddp c = OptZero <$> ZeroRedundancyOptimizer ClassMinato
                    [ ("params", VParams get_param_groups); ("lr", VFloat (lit 0));
                      ("betas", VTuple (VFloat (opt_beta_1 c)) (VFloat (opt_beta_2 c)));
                      ("rho", VFloat (opt_rho c)); ("eps", VFloat (opt_eps c));
                      ("weight_decay", VFloat (opt_weight_decay c)) ])
  ∧ (optimizer c ∉ ["LaProp"; "Minato"] →
     load_ddp c = Raise (ValueError "Invalid optimizer"))
  ∧ (∀ e, load_ddp c = Raise e → optimizer c ∈ ["LaProp"; "Minato"] →
          ∃ cls kw, ZeroRedundancyOptimizer cls kw = Raise e).
Proof.
  unfold _load_optimizer, _load_optimizer_ddp, betas.
  destruct (String.eqb_spec (optimizer c) "Minato") as [HM|HM];
  destruct (String.eqb_spec (optimizer c) "AdamW") as [HA|HA];
  destruct (String.eqb_spec (optimizer c) "LaProp") as [HL|HL];
    try (rewrite HM in HA; discriminate); try (rewrite HM in HL; discriminate);
    try (rewrite HA in HL; discriminate).
  all: repeat match goal with |- _ ∧ _ => split end.
  all: try (intros Heq; first [ reflexivity | congruence ]).
  all: try (intros Hnot; exfalso; apply Hnot; rewrite ?HM, ?HA, ?HL;
            repeat constructor; fail).
  all: try (intros _; reflexivity).
  all: try (intros e He Hin; apply fmap_Raise_inv in He; eauto 6; fail).
  all: try (intros e He Hin; exfalso;
            repeat (apply elem_of_cons in Hin as [Hin|Hin]; [congruence|]);
            by apply elem_of_nil in Hin).
Qed.

End LoadOptimizer.

(** ** The theorems at concrete inputs *)

Lemma cache_to_absent_witness :
  @Modeling.cache_to nat None "cuda" 0 true = None
  ∧ ∀ idx slot, [None; None] !! idx = Some slot →
      slot = None ∧ @Modeling.cache_to nat slot "cuda" 0 true = None.
Proof.
  apply (cache_to_absent (A:=nat) "cuda" 0 true Examples.schedule_config 1 [None; None]).
  left. reflexivity.
Defined.


Lemma get_schedule_shape_witness :
  let c := Examples.schedule_config in
  let tokens := λ s : N,
    (Z.of_N s * Z.of_N (TrainerMod.batch_size c)
     * Z.of_N (TrainerMod.length_sequence c))%Z in
  let cooldown := λ s : N,
    ((cos (Rmin (Rmax (IZR (tokens s - tokens (TrainerMod.lr_warmup_steps c))) 0
                 / IZR (TrainerMod.lr_cooldown_tokens c
                        - tokens (TrainerMod.lr_warmup_steps c))) 1 * PI)
      * 0.5 + 0.5) * (1 - TrainerMod.lr_cooldown_ratio c)
     + TrainerMod.lr_cooldown_ratio c)%R in
  ∃ ratio : N → R,
    (∀ s, TrainerMod.get_schedule c s = Ok (ratio s))
    ∧ (∀ s, ratio s
            = Rmin (Rmin (IZR (Z.of_N s) / IZR (Z.of_N (TrainerMod.lr_warmup_steps c))) 1)
                   (cooldown s)
            ∧ (TrainerMod.lr_cooldown_ratio c <= cooldown s <= 1)%R)
    ∧ (∀ s, (0 <= ratio s <= 1)%R)
    ∧ (∀ s, (s ≤ TrainerMod.lr_warmup_steps c)%N →
            ratio s = (IZR (Z.of_N s) / IZR (Z.of_N (TrainerMod.lr_warmup_steps c)))%R)
    ∧ (∀ s, (TrainerMod.lr_warmup_steps c ≤ s)%N → ratio s = cooldown s)
    ∧ (∀ s1 s2, (s1 ≤ s2)%N → (s2 ≤ TrainerMod.lr_warmup_steps c)%N →
                (ratio s1 <= ratio s2)%R)
    ∧ (∀ s1 s2, (TrainerMod.lr_warmup_steps c ≤ s1)%N → (s1 ≤ s2)%N →
                (ratio s2 <= ratio s1)%R)
    ∧ (∀ s, (TrainerMod.lr_cooldown_tokens c ≤ tokens s)%Z →
            ratio s = TrainerMod.lr_cooldown_ratio c).
Proof.
  apply (get_schedule_shape Examples.schedule_config).
  - simpl. lra.
  - simpl. lia.
  - reflexivity.
Defined.

Lemma step_counter_counts_updates_witness :
  (MinatoMod.eager_real (MinatoMod.param_groups Examples.one_param_optimizer32) →
   Forall MinatoMod.dense [Examples.unit_grads32; Examples.unit_grads32] →
   is_ok (MinatoMod.run_steps Examples.one_param_optimizer32
            [Examples.unit_grads32; Examples.unit_grads32]) = true)
  ∧ (∀ opt', MinatoMod.run_steps Examples.one_param_optimizer32
               [Examples.unit_grads32; Examples.unit_grads32] = Ok opt' →
       ([Examples.unit_grads32; Examples.unit_grads32] = [] →
        MinatoMod.state opt' !! 0 = None)
       ∧ ([Examples.unit_grads32; Examples.unit_grads32] ≠ [] →
          ∃ s, MinatoMod.state opt' !! 0 = Some s
               ∧ MinatoMod.data (MinatoMod.st_step s)
                 = [Floats.T32 (Floats.f32_of_Z
                      (Z.min (Z.of_nat (length [Examples.unit_grads32;
                                                Examples.unit_grads32])) (2 ^ 24)))]
               ∧ Floats.exact_value <$> MinatoMod.data (MinatoMod.st_step s)
                 = [Q2Qc (inject_Z
                      (Z.min (Z.of_nat (length [Examples.unit_grads32;
                                                Examples.unit_grads32])) (2 ^ 24)))]))
  ∧ (∀ grads opt', grads 0 = None →
       MinatoMod.step (MinatoMod.set_grads grads Examples.one_param_optimizer32) = Ok opt' →
       MinatoMod.state opt' !! 0 = None).
Proof.
  apply (step_counter_counts_updates Examples.one_param_optimizer32
           [Examples.unit_grads32; Examples.unit_grads32] 0).
  - apply NoDup_singleton.
  - apply list_elem_of_here.
  - reflexivity.
  - repeat constructor; by eexists.
Defined.

(** C7 (as stated) fails from 2^24 updates on: after 2^24 + 1 calls of
    [step], each with a gradient for the parameter, the step counter of the
    parameter holds 16777216 and not 16777217, since the float32 sum
    16777216 + 1 is 16777216. *)
Lemma step_counter_stalls :
  Forall (λ grads, is_Some (grads 0)) Examples.many_grads32
  ∧ Z.of_nat (length Examples.many_grads32) = 16777217%Z
  ∧ ∃ opt' s,
      MinatoMod.run_steps Examples.one_param_optimizer32 Examples.many_grads32 = Ok opt'
      ∧ MinatoMod.state opt' !! 0 = Some s
      ∧ Floats.exact_value <$> MinatoMod.data (MinatoMod.st_step s)
        = [Q2Qc (inject_Z 16777216)]
      ∧ Q2Qc (inject_Z 16777216) ≠ Q2Qc (inject_Z 16777217).
Proof.
  assert (Z.of_nat (length Examples.many_grads32) = 16777217%Z) as Hlen.
  { unfold Examples.many_grads32. rewrite length_replicate, N_nat_Z. reflexivity. }
  assert (Forall (λ grads, is_Some (grads 0)) Examples.many_grads32) as Hall.
  { unfold Examples.many_grads32. apply Forall_replicate. by eexists. }
  assert (NoDup (MinatoMod.param_ids Examples.one_param_optimizer32)) as Hnd
    by apply NoDup_singleton.
  split; [exact Hall|]. split; [exact Hlen|].
  destruct (run_steps_total Examples.many_grads32 Examples.one_param_optimizer32)
    as [opt' Hrun]; [exact Hnd| |..].
  { repeat constructor. }
  { unfold Examples.many_grads32. apply Forall_replicate.
    intros i g [= <-]. reflexivity. }
  destruct (run_steps_counter Examples.many_grads32 Examples.one_param_optimizer32 opt' 0)
    as (s & Hs & _ & Hval);
    [exact Hnd|apply list_elem_of_here|reflexivity|exact Hall|exact Hrun| |].
  { intros Heq. rewrite Heq in Hlen. discriminate Hlen. }
  exists opt', s. split; [exact Hrun|]. split; [exact Hs|]. split.
  - rewrite Hval, Hlen. reflexivity.
  - intros Heq. apply (f_equal (λ q, Qnum (this q))) in Heq. discriminate Heq.
Qed.

Lemma scenario_single_update_witness :
  MinatoMod._single_tensor_minato
    [Examples.cpu32 [Examples.five32]] [Examples.cpu32 [Floats.one32]]
    [Examples.cpu32 [S754_zero false]] [Examples.cpu32 [S754_zero false]]
    Examples.scenario_hyper32
  = Ok ([Examples.cpu32 [SFadd 24 128 Examples.five32 (SFopp Examples.tenth32)]],
        [Examples.cpu32 [Examples.tenth32]],
        [Examples.cpu32 [SFadd 24 128 (S754_zero false) Floats.one32]])
  ∧ MinatoMod.ratio_of [Floats.T32 Examples.tenth32] = [Floats.T32 Floats.one32]
  ∧ Examples.tenth32 = Floats.elem (lit (1 # 10))
  ∧ Floats.exact_value (Floats.T32 Examples.tenth32) = Q2Qc (13421773 # 134217728)
  ∧ SFadd 24 128 (S754_zero false) (SFopp Examples.tenth32) = SFopp Examples.tenth32.
Proof.
  apply (scenario_single_update Examples.five32 (S754_zero false)). reflexivity.
Defined.

(** C5 (as stated) fails in float32: the momentum is the float32 number
    0.1, which is not one tenth; the parameter 5 becomes 10276045 / 2^21 =
    4.900000095367431640625, a decrease by 209715 / 2^21 and not by one
    tenth; and the parameter 2^24 is left as it is. *)
Lemma scenario_decrease_rounded :
  MinatoMod._single_tensor_minato
    [Examples.cpu32 [Examples.five32]] [Examples.cpu32 [Floats.one32]]
    [Examples.cpu32 [S754_zero false]] [Examples.cpu32 [S754_zero false]]
    Examples.scenario_hyper32
  = Ok ([Examples.cpu32 [S754_finite false 10276045 (-21)]],
        [Examples.cpu32 [Examples.tenth32]], [Examples.cpu32 [Floats.one32]])
  ∧ Floats.exact_value (Floats.T32 Examples.five32) = Q2Qc 5
  ∧ Floats.exact_value (Floats.T32 (S754_finite false 10276045 (-21)))
    = Q2Qc (10276045 # 2097152)
  ∧ (Floats.exact_value (Floats.T32 Examples.five32)
     - Floats.exact_value (Floats.T32 (S754_finite false 10276045 (-21))))%Qc
    = Q2Qc (209715 # 2097152)
  ∧ Q2Qc (209715 # 2097152) ≠ Q2Qc (1 # 10)
  ∧ Floats.exact_value (Floats.T32 Examples.tenth32) ≠ Q2Qc (1 # 10)
  ∧ MinatoMod._single_tensor_minato
      [Examples.cpu32 [Floats.f32_of_Z (2 ^ 24)]] [Examples.cpu32 [Floats.one32]]
      [Examples.cpu32 [S754_zero false]] [Examples.cpu32 [S754_zero false]]
      Examples.scenario_hyper32
    = Ok ([Examples.cpu32 [Floats.f32_of_Z (2 ^ 24)]],
          [Examples.cpu32 [Examples.tenth32]], [Examples.cpu32 [Floats.one32]]).
Proof.
  split; [vm_compute; reflexivity|].
  split; [apply Qc_is_canon; vm_compute; reflexivity|].
  split; [apply Qc_is_canon; vm_compute; reflexivity|].
  split; [apply Qc_is_canon; vm_compute; reflexivity|].
  split; [|split].
  - intros Heq. apply (f_equal (λ q, Qnum (this q))) in Heq. discriminate Heq.
  - intros Heq. apply (f_equal (λ q, Qden (this q))) in Heq. vm_compute in Heq.
    discriminate Heq.
  - vm_compute. reflexivity.
Qed.

(** C4 (as stated) fails in float32: with [lr = 1e-9] and
    [weight_decay = 0.1] the factor [1 - lr * weight_decay] is
    0.9999999999 as a Python float and 1 once converted to float32, so that
    a parameter 1 with zero gradient and zero momentum stays 1, which is
    not [1 * (1 - lr * weight_decay)]. *)
Lemma weight_decay_rounded_away :
  MinatoMod.update_param Examples.decay_hyper32
    (Examples.cpu32 [Floats.one32]) (Examples.cpu32 [S754_zero false])
    (Examples.cpu32 [S754_zero false]) (Examples.cpu32 [S754_zero false])
  = Ok (Examples.cpu32 [Floats.one32], Examples.cpu32 [S754_zero false],
        Examples.cpu32 [Floats.one32])
  ∧ Floats.exact_value (Floats.T32 Floats.one32) = 1%Qc
  ∧ Floats.to_float32
      (SFsub 53 1024 Floats.one64
         (SFmul 53 1024 (Floats.double_of_Q (1 # 1000000000))
                        (Floats.double_of_Q (1 # 10))))
    = Floats.one32
  ∧ (Floats.exact_value (Floats.T32 Floats.one32)
     * (1 - Floats.exact_value (lit (1 # 1000000000)) * Floats.exact_value (lit (1 # 10))) < 1)%Qc
  ∧ (Floats.exact_value (Floats.T32 Floats.one32) * (1 - Q2Qc (1 # 1000000000) * Q2Qc (1 # 10))
     < 1)%Qc.
Proof.
  split; [vm_compute; reflexivity|].
  split; [apply Qc_is_canon; vm_compute; reflexivity|].
  repeat split; vm_compute; reflexivity.
Qed.

(** Two steps of the one-parameter optimizer do return, with the counter at 2. *)
Example two_steps_run :
  is_ok (MinatoMod.run_steps Examples.one_param_optimizer
           [Examples.unit_grads; Examples.unit_grads]) = true.
Proof. vm_compute. reflexivity. Qed.

(** C2 (as stated) fails for the distributed trainer: ['AdamW'] is one of
    the recognized optimizers of the claim, and with constructors that
    always succeed the base trainer builds it, but
    [TrainerDDP._load_optimizer] has no branch for it and raises
    [ValueError]. *)
Lemma load_optimizer_ddp_rejects_AdamW :
  TrainerMod._load_optimizer_ddp (MinatoT:=unit) (AdamWT:=unit) (LaPropT:=unit)
    (λ _ _, Ok tt) [] Examples.adamw_config
  = Raise (ValueError "Invalid optimizer")
  ∧ TrainerMod._load_optimizer (ZeroT:=unit) (λ _, Ok tt) (λ _, Ok tt) (λ _, Ok tt)
      [] Examples.adamw_config
    = Ok (TrainerMod.OptAdamW tt).
Proof. split; reflexivity. Qed.

(** The class [Minato] of [training/minato.py] accepts the keywords it
    declares, and not the keywords [betas], [eps] and [rho] of the calls in
    [trainer.py], which are made for the class of [optimizer.minato]. *)
Example Minato_init_own_keywords :
  is_ok (MinatoMod.Minato_init
           [ ("params", MinatoMod.VParams [MinatoMod.mkSpec [] None; MinatoMod.mkSpec [] (Some 0%Qc)]);
             ("lr", MinatoMod.VFloat 0%Qc);
             ("beta", MinatoMod.VFloat (Q2Qc (9 # 10)));
             ("weight_decay", MinatoMod.VFloat (Q2Qc (1 # 10))) ]) = true
  ∧ MinatoMod.Minato_init
      [ ("params", MinatoMod.VParams [MinatoMod.mkSpec [] None; MinatoMod.mkSpec [] (Some 0%Qc)]);
        ("lr", MinatoMod.VFloat 0%Qc);
        ("betas", MinatoMod.VTuple (MinatoMod.VFloat (Q2Qc (9 # 10)))
                                   (MinatoMod.VFloat (Q2Qc (95 # 100))));
        ("weight_decay", MinatoMod.VFloat (Q2Qc (1 # 10))) ]
    = Raise (TypeError "Minato.__init__() got an unexpected keyword argument 'betas'").
Proof. split; vm_compute; reflexivity. Qed.

(* ===================================================================== *)
(** * Part III: further properties of the three files                     *)
(* ===================================================================== *)

(** ** Slices *)

Lemma slice_from_back {A} (k : Z) (xs : list A) :
  (1 ≤ k)%Z → slice_from (- k) xs = drop (length xs - Z.to_nat k) xs.
Proof.
  intros Hk. unfold slice_from.
  destruct (Z.ltb_spec (- k) 0) as [_|?]; [|lia]. f_equal. lia.
Qed.

Lemma slice_from_front {A} (m : Z) (xs : list A) :
  (0 ≤ m)%Z → slice_from m xs = drop (Z.to_nat m) xs.
Proof.
  intros Hm. unfold slice_from.
  destruct (Z.ltb_spec m 0) as [?|_]; [lia|].
  destruct (Z.le_gt_cases m (Z.of_nat (length xs))) as [Hle|Hgt].
  - f_equal. lia.
  - rewrite !drop_ge; [done|lia|lia].
Qed.

Lemma slice_from_back_twice {A} (j k : Z) (xs : list A) :
  (1 ≤ j ≤ k)%Z → slice_from (- j) (slice_from (- k) xs) = slice_from (- j) xs.
Proof.
  intros Hjk. rewrite !slice_from_back by lia.
  rewrite drop_drop, length_drop. f_equal. lia.
Qed.

Lemma slice_from_back_all {A} (k : Z) (xs : list A) :
  (Z.of_nat (length xs) ≤ k)%Z → slice_from (- k) xs = xs.
Proof.
  intros Hk. destruct (decide (k = 0%Z)) as [->|Hne].
  - apply slice_from_zero.
  - rewrite slice_from_back by lia.
    replace (length xs - Z.to_nat k) with 0 by lia. done.
Qed.

Lemma length_slice_from_back {A} (k : Z) (xs : list A) :
  (1 ≤ k)%Z → length (slice_from (- k) xs) ≤ Z.to_nat k.
Proof. intros Hk. rewrite slice_from_back, length_drop by done. lia. Qed.

Section MoreCache.
Context {A : Type}.
Import Modeling.
Implicit Types (kv : @KV A) (cache : list (@KV A)) (c : list (list (@KV A))).

Lemma kv_data_ext (f g : list (list A) → list (list A)) (d : list (list (list (list A)))) :
  (∀ positions, f positions = g positions) → map (map f) d = map (map g) d.
Proof.
  intros Hfg. apply list_fmap_ext. intros _ heads _.
  apply list_fmap_ext. intros _ positions _. apply Hfg.
Qed.

Lemma kv_data_compose (f g : list (list A) → list (list A))
    (d : list (list (list (list A)))) :
  map (map f) (map (map g) d) = map (map (f ∘ g)) d.
Proof.
  rewrite map_map. apply map_ext. intros heads. by rewrite map_map.
Qed.

Lemma slice_seq_back_twice (j k : Z) kv :
  (1 ≤ j ≤ k)%Z → slice_seq (- j) (slice_seq (- k) kv) = slice_seq (- j) kv.
Proof.
  intros Hjk. destruct kv as [d a x]. unfold slice_seq. simpl. f_equal.
  rewrite kv_data_compose. apply kv_data_ext. intros positions. simpl.
  by apply slice_from_back_twice.
Qed.

Lemma slice_seq_zero_l (t : Z) kv : slice_seq t (slice_seq 0 kv) = slice_seq t kv.
Proof. by rewrite slice_seq_zero. Qed.

(** X1: trimming twice is trimming once to the smaller size: for
    [1 <= j <= k], [trim_cache] to [k] followed by [trim_cache] to [j] gives
    the same cache as [trim_cache] to [j], whatever the lengths of the
    tensors. *)
Theorem trim_cache_twice cache (j k : Z) :
  (1 ≤ j ≤ k)%Z →
  trim_cache (trim_cache cache (Some k)) (Some j) = trim_cache cache (Some j).
Proof.
  intros Hjk. unfold trim_cache.
  rewrite map_map. apply map_ext. intros kv.
  by apply slice_seq_back_twice.
Qed.

(** X2: the bounds of the slice in [trim_cache].  On tensors of sequence
    length [L], a trim size of [L] or more leaves the cache unchanged, and a
    negative trim size [-m] removes the [m] oldest positions (leaving
    [L - m] positions, none when [m >= L]). *)
Theorem trim_cache_bounds cache (L : nat) (k : Z) :
  Forall (has_seq_len L) cache →
  ((Z.of_nat L ≤ k)%Z → trim_cache cache (Some k) = cache)
  ∧ ((k < 0)%Z →
       trim_cache cache (Some k)
       = (λ kv, mkKV (kv_device kv) (kv_attached kv)
                     (map (map (drop (Z.to_nat (- k)))) (kv_data kv))) <$> cache
       ∧ Forall (has_seq_len (L - Z.to_nat (- k))) (trim_cache cache (Some k))).
Proof.
  intros Hlen. split.
  - intros Hk. unfold trim_cache.
    rewrite <- (list_fmap_id cache) at 2. apply Forall_fmap_ext_1.
    eapply Forall_impl; [exact Hlen|]. intros [d a x] Hkv.
    unfold slice_seq, has_seq_len in *. simpl in *. f_equal.
    rewrite <- (list_fmap_id x) at 2. apply Forall_fmap_ext_1.
    eapply Forall_impl; [exact Hkv|]. intros heads Hh. simpl.
    rewrite <- (list_fmap_id heads) at 2. apply Forall_fmap_ext_1.
    eapply Forall_impl; [exact Hh|]. intros positions Hp. simpl in *.
    apply slice_from_back_all. lia.
  - intros Hk. unfold trim_cache. split.
    + apply list_fmap_ext. intros _ [d a x] _. unfold slice_seq. simpl. f_equal.
      apply kv_data_ext. intros positions. apply slice_from_front. lia.
    + apply Forall_fmap. eapply Forall_impl; [exact Hlen|]. intros [d a x] Hkv.
      unfold slice_seq, has_seq_len in *. simpl in *.
      apply Forall_fmap. eapply Forall_impl; [exact Hkv|]. intros heads Hh. simpl.
      apply Forall_fmap. eapply Forall_impl; [exact Hh|]. intros positions Hp.
      simpl in *. rewrite slice_from_front, length_drop by lia. lia.
Qed.

(** Tensors that [cache_to] returns. *)
Lemma cache_to_Some c (device : string) (trim : Z) (nb : bool) :
  cache_to (Some c) device trim nb
  = Some (map (map (λ kv, to device nb (slice_seq (- trim) (detach kv)))) c).
Proof. reflexivity. Qed.

(** X3: every tensor that [cache_to] returns is detached from the autograd
    graph and placed on the requested device; the result has the layers and
    the tensors per layer of the input, and with [trim = 0] the values of
    each tensor are those of the input. *)
Theorem cache_to_detached_on_device (cache : option (list (list (@KV A))))
    (device : string) (trim : Z) (nb : bool) c' :
  cache_to cache device trim nb = Some c' →
  ∃ c, cache = Some c
    ∧ Forall2 (Forall2 (λ kv kv',
                 kv_attached kv' = false ∧ kv_device kv' = device
                 ∧ (trim = 0%Z → kv_data kv' = kv_data kv))) c c'.
Proof.
  destruct cache as [c|]; [|discriminate]. rewrite cache_to_Some. intros [= <-].
  exists c. split; [done|].
  apply Forall2_fmap_r, Forall_Forall2_diag, Forall_forall. intros layer _.
  apply Forall2_fmap_r, Forall_Forall2_diag, Forall_forall. intros kv _.
  cbn beta. split; [reflexivity|]. split; [reflexivity|]. intros ->.
  change (- 0)%Z with 0%Z. rewrite slice_seq_zero. reflexivity.
Qed.

(** X4: moving a cache twice is moving it once.  If one of the two moves
    does not trim, or the second trims to a size between 1 and the size of
    the first, the result is that of one move to the last device with the
    remaining trim: restoring a cache and offloading it again leaves on the
    host the values that were there. *)
Theorem cache_to_twice (cache : option (list (list (@KV A))))
    (d1 d2 : string) (t1 t2 : Z) (nb1 nb2 : bool) :
  (t1 = 0%Z ∨ t2 = 0%Z ∨ (1 ≤ t2 ≤ t1)%Z) →
  cache_to (cache_to cache d1 t1 nb1) d2 t2 nb2
  = cache_to cache d2 (if decide (t2 = 0%Z) then t1 else t2) nb2.
Proof.
  intros Ht. destruct cache as [c|]; [|done]. rewrite !cache_to_Some. f_equal.
  rewrite map_map. apply map_ext. intros layer.
  rewrite map_map. apply map_ext. intros kv.
  unfold to, detach. simpl. f_equal.
  destruct kv as [d a x]. unfold slice_seq. simpl.
  rewrite kv_data_compose. apply kv_data_ext. intros positions. simpl.
  destruct (decide (t2 = 0%Z)) as [->|Hne].
  - change (- 0)%Z with 0%Z. by rewrite slice_from_zero.
  - destruct Ht as [->|[->|Ht]]; [|done|].
    + change (- 0)%Z with 0%Z. by rewrite slice_from_zero.
    + by apply slice_from_back_twice.
Qed.

End MoreCache.

(** ** The outputs of the forward pass *)

Section MoreForward.
Context {A Ids Emb Rope : Type}.
Import Modeling Generation.
Variable input_embedding : Ids → Emb.
Variable input_proj : Emb → Emb.
Variable input_norm : Emb → Emb.
Variable output_norm : Emb → Emb.
Variable rope_embedding : Emb → option (list (list (@KV A))) → Rope.
Variable blocks : nat → Emb → option (list (@KV A)) → Rope → Emb * list (@KV A).
Variable n_layers : nat.

Local Abbreviation layer := (layer_step (A:=A) blocks).
Local Abbreviation fwd_layers :=
  (forward_layers input_norm output_norm rope_embedding blocks n_layers).
Local Abbreviation fwd :=
  (forward input_embedding input_proj input_norm output_norm rope_embedding
           blocks n_layers).

Lemma slice_seq_at_most (k : Z) (kv : @KV A) :
  (1 ≤ k)%Z → at_most (Z.to_nat k) (slice_seq (- k) kv).
Proof.
  intros Hk. unfold at_most, slice_seq. simpl.
  apply Forall_fmap, Forall_forall. intros heads _. simpl.
  apply Forall_fmap, Forall_forall. intros positions _. simpl.
  by apply length_slice_from_back.
Qed.

Lemma trim_cache_at_most (k : Z) (kvs : list (@KV A)) :
  (1 ≤ k)%Z → Forall (at_most (Z.to_nat k)) (trim_cache kvs (Some k)).
Proof.
  intros Hk. unfold trim_cache. apply Forall_fmap, Forall_forall. intros kv _.
  by apply slice_seq_at_most.
Qed.

Lemma layer_loop_from_Raise past mkv rope idxs e :
  foldl (layer past mkv rope) (Raise e) idxs = Raise e.
Proof. induction idxs as [|i idxs IH]; [done|]. exact IH. Qed.

Lemma layer_loop_inv past mkv rope idxs st st' (hs0 pkv0 : nat) :
  foldl (layer past mkv rope) (Ok st) idxs = Ok st' →
  loop_inv mkv hs0 pkv0 st →
  loop_inv mkv (hs0 + length idxs) (pkv0 + length idxs) st'.
Proof.
  revert st hs0 pkv0. induction idxs as [|i idxs IH]; intros st hs0 pkv0; cbn [foldl].
  - intros [= <-]. cbn [length]. by rewrite !Nat.add_0_r.
  - intros Hfold Hinv.
    destruct (layer past mkv rope (Ok st) i) as [st1|e] eqn:Hstep.
    2:{ rewrite layer_loop_from_Raise in Hfold. discriminate. }
    cbn [length]. rewrite <- !Nat.add_succ_comm. apply (IH st1); [done|].
    destruct st as [[e hs] pkv]. destruct Hinv as (Hlast & Hhs & Hpkv & Htrim).
    unfold layer_step in Hstep. rewrite result_bind_Ok in Hstep.
    apply bind_Ok_inv in Hstep as (curr & _ & Hstep).
    destruct (blocks i e curr rope) as [e' new]. injection Hstep as <-.
    split; [by rewrite last_snoc|].
    split; [rewrite length_app; simpl; lia|].
    split; [rewrite length_app; simpl; lia|].
    apply Forall_app. split; [done|]. constructor; [by exists new|constructor].
Qed.

Lemma layer_loop_short past mkv rope (p : list (list (@KV A))) (n a : nat) st :
  past = Some p → a ≤ length p → length p < a + n →
  foldl (layer past mkv rope) (Ok st) (seq a n) = Raise IndexError.
Proof.
  intros ->. revert a st. induction n as [|n IH]; intros a st Ha Hn; [lia|].
  cbn [seq foldl]. destruct st as [[e hs] pkv].
  destruct (decide (a = length p)) as [->|Hne].
  - assert (layer (Some p) mkv rope (Ok (e, hs, pkv)) (length p) = Raise IndexError)
      as ->.
    { unfold layer_step. rewrite result_bind_Ok. unfold getitem.
      rewrite lookup_ge_None_2 by lia. reflexivity. }
    apply layer_loop_from_Raise.
  - destruct (layer_loop_Ok blocks (Some p) mkv rope [a] (e, hs, pkv)) as [st1 Hst1].
    { intros p' [= <-] i Hi. apply list_elem_of_singleton in Hi as ->. lia. }
    cbn [foldl] in Hst1. rewrite Hst1. apply IH; lia.
Qed.

Lemma forward_shape_aux (input_ids : option Ids) (inputs_embeds : option Emb)
    (past : option (list (list (@KV A)))) (max_key_values : option Z) out :
  fwd input_ids inputs_embeds past max_key_values = Ok out →
  length (past_key_values out) = n_layers
  ∧ length (hidden_states out) = S n_layers
  ∧ (∃ e, last (hidden_states out) = Some e ∧ last_hidden_state out = output_norm e)
  ∧ (∀ k, max_key_values = Some k → (1 ≤ k)%Z →
          Forall (Forall (at_most (Z.to_nat k))) (past_key_values out)).
Proof.
  intros Hfwd.
  assert (∃ emb, fwd_layers emb past max_key_values = Ok out) as [emb Hl].
  { unfold forward in Hfwd.
    destruct input_ids, inputs_embeds; try discriminate; eauto. }
  unfold forward_layers in Hl.
  apply bind_Ok_inv in Hl as ([[e hs] pkv] & Hloop & Hout). injection Hout as <-.
  eapply (layer_loop_inv _ _ _ _ _ _ 1 0) in Hloop.
  2:{ split; [done|]. split; [done|]. split; [done|]. constructor. }
  destruct Hloop as (Hlast & Hhs & Hpkv & Htrim). rewrite length_seq in Hhs, Hpkv.
  cbn. split; [done|]. split; [done|]. split; [by exists e|].
  intros k -> Hk. eapply Forall_impl; [exact Htrim|].
  intros kvs [raw ->]. by apply trim_cache_at_most.
Qed.

Lemma forward_raise_aux (input_ids : option Ids) (inputs_embeds : option Emb)
    (past : option (list (list (@KV A)))) (max_key_values : option Z) :
  ¬ (is_Some input_ids ↔ is_Some inputs_embeds) →
  (fwd input_ids inputs_embeds past max_key_values = Raise IndexError
     ↔ ∃ p, past = Some p ∧ length p < n_layers)
  ∧ (∀ e, fwd input_ids inputs_embeds past max_key_values = Raise e → e = IndexError).
Proof.
  intros Hone.
  assert (∃ emb, fwd input_ids inputs_embeds past max_key_values
                 = fwd_layers emb past max_key_values) as [emb ->].
  { unfold forward. destruct input_ids, inputs_embeds; eauto.
    - exfalso. apply Hone. split; eauto.
    - exfalso. apply Hone. split; intros [? [=]]. }
  assert (∀ e, fwd_layers emb past max_key_values = Raise e → e = IndexError) as Honly.
  { intros e He. unfold forward_layers in He.
    destruct (foldl _ _ _) as [[[e1 hs] pkv]|e1] eqn:Hloop; [discriminate|].
    injection He as <-. by apply layer_loop_Raise in Hloop as [[=]|?]. }
  split; [|exact Honly]. split.
  - intros Hraise. destruct past as [p|].
    + exists p. split; [done|].
      destruct (decide (length p < n_layers)) as [?|Hge]; [done|].
      destruct (forward_layers_Ok input_norm output_norm rope_embedding blocks n_layers
                  emb (Some p) max_key_values) as [out Hout].
      { intros p' [= <-]. lia. }
      congruence.
    + destruct (forward_layers_Ok input_norm output_norm rope_embedding blocks n_layers
                  emb None max_key_values) as [out Hout]; [done|congruence].
  - intros (p & -> & Hlt). unfold forward_layers.
    rewrite (layer_loop_short (Some p) max_key_values _ p n_layers 0); [done|done|lia|lia].
Qed.

(** X5: the output of a forward pass that returns.  [past_key_values] has
    one entry per layer and [hidden_states] one more than that; the last
    hidden state is the output normalisation of the last entry of
    [hidden_states]; and with [max_key_values = k >= 1] no tensor of the
    returned cache holds more than [k] positions. *)
Theorem forward_output_shape (input_ids : option Ids) (inputs_embeds : option Emb)
    (past : option (list (list (@KV A)))) (max_key_values : option Z) out :
  fwd input_ids inputs_embeds past max_key_values = Ok out →
  length (past_key_values out) = n_layers
  ∧ length (hidden_states out) = S n_layers
  ∧ (∃ e, last (hidden_states out) = Some e ∧ last_hidden_state out = output_norm e)
  ∧ (∀ k, max_key_values = Some k → (1 ≤ k)%Z →
          Forall (Forall (at_most (Z.to_nat k))) (past_key_values out)).
Proof. apply forward_shape_aux. Qed.

(** X6: the only other error of [forward].  With exactly one of
    [input_ids] and [inputs_embeds], the forward pass raises [IndexError]
    exactly when [past_key_values] is given with fewer entries than there
    are layers, and raises nothing else. *)
Theorem forward_IndexError (input_ids : option Ids) (inputs_embeds : option Emb)
    (past : option (list (list (@KV A)))) (max_key_values : option Z) :
  ¬ (is_Some input_ids ↔ is_Some inputs_embeds) →
  (fwd input_ids inputs_embeds past max_key_values = Raise IndexError
     ↔ ∃ p, past = Some p ∧ length p < n_layers)
  ∧ (∀ e, fwd input_ids inputs_embeds past max_key_values = Raise e → e = IndexError).
Proof. apply forward_raise_aux. Qed.

End MoreForward.

(** ** The language-model head and the inputs of generation *)

Section CausalLM.
Context {A Tok Emb Rope Logits : Type}.
Import Modeling Generation.
Variable input_embedding : @InputIds Tok → Emb.
Variable input_linear : Emb → Logits.
Variable input_proj : Emb → Emb.
Variable head_proj : Emb → Emb.
Variable input_norm : Emb → Emb.
Variable output_norm : Emb → Emb.
Variable rope_embedding : Emb → option (list (list (@KV A))) → Rope.
Variable blocks : nat → Emb → option (list (@KV A)) → Rope → Emb * list (@KV A).
Variable n_layers : nat.

Local Abbreviation base :=
  (forward input_embedding input_proj input_norm output_norm rope_embedding
           blocks n_layers).
Local Abbreviation lm :=
  (forward_lm input_embedding input_linear input_proj head_proj input_norm
              output_norm rope_embedding blocks n_layers).
Local Abbreviation fpass :=
  (forward_pass input_embedding input_linear input_proj head_proj input_norm
                output_norm rope_embedding blocks n_layers).

Lemma forward_lm_flags_ok input_ids inputs_embeds past use_cache output_hidden_states mkv :
  lm input_ids inputs_embeds past use_cache true false output_hidden_states mkv
  = base input_ids inputs_embeds past mkv
      ≫= λ b, Ok {| logits := input_linear (head_proj (last_hidden_state b));
                    lm_past_key_values :=
                      if use_cache then Some (past_key_values b) else None;
                    lm_hidden_states :=
                      if output_hidden_states
                      then Some (hidden_states b ++ [last_hidden_state b])
                      else None |}.
Proof. reflexivity. Qed.

(** X7: [LSWTForCausalLM.forward].  The two assertions come first: with
    [return_dict] false or [output_attentions] true the call raises
    [AssertionError] whatever the inputs.  Otherwise it raises exactly what
    the backbone raises, and when the backbone returns: the cache is
    returned only with [use_cache]; [hidden_states], when requested, has
    [n_layers + 2] entries, the last of which is the last hidden state. *)
Theorem forward_lm_contract (input_ids : option (@InputIds Tok))
    (inputs_embeds : option Emb) (past : option (list (list (@KV A))))
    (use_cache return_dict output_attentions output_hidden_states : bool)
    (mkv : option Z) :
  (return_dict = false ∨ output_attentions = true →
     lm input_ids inputs_embeds past use_cache return_dict output_attentions
        output_hidden_states mkv = Raise AssertionError)
  ∧ (return_dict = true → output_attentions = false →
     (∀ e, lm input_ids inputs_embeds past use_cache return_dict output_attentions
              output_hidden_states mkv = Raise e
           ↔ base input_ids inputs_embeds past mkv = Raise e)
     ∧ (∀ b, base input_ids inputs_embeds past mkv = Ok b →
          ∃ out, lm input_ids inputs_embeds past use_cache return_dict
                    output_attentions output_hidden_states mkv = Ok out
            ∧ logits out = input_linear (head_proj (last_hidden_state b))
            ∧ lm_past_key_values out
              = (if use_cache then Some (past_key_values b) else None)
            ∧ (output_hidden_states = false → lm_hidden_states out = None)
            ∧ (output_hidden_states = true →
               ∃ hs, lm_hidden_states out = Some hs
                     ∧ length hs = n_layers + 2
                     ∧ last hs = Some (last_hidden_state b)))).
Proof.
  split.
  - intros [-> | ->]; unfold forward_lm; [done|]. by destruct return_dict.
  - intros -> ->. rewrite forward_lm_flags_ok. split.
    + intros e. destruct (base _ _ _ _) as [b|e'].
      * rewrite result_bind_Ok. split; discriminate.
      * rewrite result_bind_Raise. split; intros [= ->]; done.
    + intros b Hb. rewrite Hb, result_bind_Ok. eexists. split; [done|].
      cbn. split; [done|]. split; [done|]. split; [by intros ->|].
      intros ->. eexists. split; [done|].
      apply forward_shape_aux in Hb as (_ & Hhs & _).
      split; [rewrite length_app, Hhs; simpl; lia|]. by rewrite last_snoc.
Qed.

(** X8: [Trainer.forward_pass].  It fails only with [IndexError], when the
    cache passed in has fewer entries than there are layers.  Otherwise it
    returns logits computed from the hidden state it returns, and a cache
    exactly when [cache_length > 0]: one entry per layer, no tensor with
    more than [cache_length] positions. *)
Theorem forward_pass_outputs (tokens : @InputIds Tok)
    (past : option (list (list (@KV A)))) (cache_length : Z) :
  (∀ e, fpass tokens past cache_length = Raise e →
        e = IndexError ∧ ∃ p, past = Some p ∧ length p < n_layers)
  ∧ ((∀ p, past = Some p → n_layers ≤ length p) →
     ∃ lg pkv h, fpass tokens past cache_length = Ok (lg, pkv, h)
       ∧ lg = input_linear (head_proj h)
       ∧ (pkv = None ↔ (cache_length ≤ 0)%Z)
       ∧ (∀ c, pkv = Some c →
               length c = n_layers
               ∧ Forall (Forall (at_most (Z.to_nat cache_length))) c)).
Proof.
  assert (¬ (is_Some (Some tokens) ↔ is_Some (@None Emb))) as Hone.
  { intros [Hs _]. destruct Hs as [? [=]]; eauto. }
  unfold forward_pass. rewrite forward_lm_flags_ok.
  destruct (base (Some tokens) None past (Some cache_length)) as [b|e0] eqn:Hb.
  - rewrite !result_bind_Ok. cbn [lm_hidden_states logits lm_past_key_values].
    unfold getitem_last. rewrite last_snoc, result_bind_Ok.
    split; [discriminate|]. intros _.
    eexists _, _, _. split; [done|]. split; [done|].
    pose proof (forward_shape_aux _ _ _ _ _ _ _ _ _ _ _ _ Hb) as (Hlen & _ & _ & Htrim).
    destruct (Z.ltb_spec 0 cache_length) as [Hpos|Hneg].
    + split; [split; [discriminate|lia]|].
      intros c [= <-]. split; [done|]. apply (Htrim cache_length); [done|lia].
    + split; [split; [lia|done]|]. discriminate.
  - rewrite !result_bind_Raise.
    destruct (forward_raise_aux input_embedding input_proj input_norm output_norm
                rope_embedding blocks n_layers (Some tokens) None past
                (Some cache_length) Hone) as [Hiff Honly].
    pose proof (Honly e0 Hb) as ->. apply Hiff in Hb as (p & -> & Hp).
    split.
    + intros e [= <-]. split; [done|]. by exists p.
    + intros Hall. specialize (Hall p eq_refl). lia.
Qed.

(** X9: [prepare_inputs_for_generation].  It fails only with [IndexError],
    on a cache without layers or whose first layer is empty.  What it
    returns holds exactly one of ["inputs_embeds"] and ["input_ids"]:
    the embeddings only when they are given and there is no cache.  With a
    cache, [input_ids] is cut to its last token and the cache is moved to
    the device of [input_ids], trimmed to [max_key_values] (0 when
    missing or [None]). *)
Theorem prepare_inputs_contract (input_ids : @InputIds Tok)
    (past : option (list (list (@KV A)))) (inputs_embeds : option Emb)
    (max_key_values : option (option Z)) :
  (∀ e, prepare_inputs_for_generation input_ids past inputs_embeds max_key_values
        = Raise e
        ↔ e = IndexError ∧ ∃ p, past = Some p ∧ (p = [] ∨ ∃ rest, p = [] :: rest))
  ∧ (∀ mi, prepare_inputs_for_generation input_ids past inputs_embeds max_key_values
           = Ok mi →
       (is_Some (mi_inputs_embeds mi) ↔ mi_input_ids mi = None)
       ∧ (is_Some (mi_inputs_embeds mi) ↔ is_Some inputs_embeds ∧ past = None)
       ∧ (past = None → mi_past_key_values mi = None
                        ∧ (inputs_embeds = None → mi_input_ids mi = Some input_ids))
       ∧ (∀ p, past = Some p →
            mi_input_ids mi = Some (last_token input_ids)
            ∧ Forall (λ row, length row ≤ 1) (ids_rows (last_token input_ids))
            ∧ mi_past_key_values mi
              = cache_to (Some p) (ids_device input_ids)
                         (match max_key_values with Some (Some z) => z | _ => 0%Z end)
                         false)
       ∧ (∀ mkv msg, base (mi_input_ids mi) (mi_inputs_embeds mi)
                          (mi_past_key_values mi) mkv ≠ Raise (ValueError msg))).
Proof.
  unfold prepare_inputs_for_generation. destruct past as [p|].
  - destruct p as [|layer0 rest].
    { split.
      - intros e. split.
        + intros [= <-]. split; [done|]. exists []. split; [done|]. by left.
        + by intros [-> _].
      - intros mi [=]. }
    destruct layer0 as [|kv0 layer0].
    { split.
      - intros e. split.
        + intros [= <-]. split; [done|]. eexists. split; [done|]. right. eauto.
        + by intros [-> _].
      - intros mi [=]. }
    split.
    + intros e. split.
      * destruct inputs_embeds; discriminate.
      * intros (_ & p & [= <-] & [[=]|[r [=]]]).
    + intros mi Hmi. cbn in Hmi.
      assert (mi = {| mi_inputs_embeds := None;
                      mi_input_ids := Some (last_token input_ids);
                      mi_past_key_values :=
                        cache_to (Some ((kv0 :: layer0) :: rest)) (ids_device input_ids)
                          (match max_key_values with Some (Some z) => z | _ => 0%Z end)
                          false |}) as ->.
      { destruct inputs_embeds; by injection Hmi as <-. }
      cbn [mi_inputs_embeds mi_input_ids mi_past_key_values].
      split; [split; [intros [? [=]]|discriminate]|].
      split; [split; [intros [? [=]]|intros [_ [=]]]|].
      split; [discriminate|]. split.
      * intros p [= <-]. split; [done|]. split; [|done].
        unfold last_token. cbn. apply Forall_fmap, Forall_forall. intros row _.
        simpl. by apply (length_slice_from_back 1).
      * intros mkv msg. unfold forward. apply forward_layers_no_ValueError.
  - split.
    + intros e. split.
      * destruct inputs_embeds; discriminate.
      * intros (_ & p & [=] & _).
    + intros mi Hmi. rewrite result_bind_Ok in Hmi.
      destruct inputs_embeds as [embeds|]; injection Hmi as <-;
        cbn [mi_inputs_embeds mi_input_ids mi_past_key_values].
      * split; [split; [done|eauto]|]. split; [split; [done|eauto]|].
        split; [split; [done|discriminate]|]. split; [discriminate|].
        intros mkv msg. unfold forward. apply forward_layers_no_ValueError.
      * split; [split; [intros [? [=]]|discriminate]|].
        split; [split; [intros [? [=]]|intros [[? [=]] _]]|].
        split; [done|]. split; [discriminate|].
        intros mkv msg. unfold forward. apply forward_layers_no_ValueError.
Qed.

End CausalLM.

(** ** Parameter groups *)

Lemma prefix_spec (sub s : string) :
  String.prefix sub s = true ↔ ∃ post, s = sub +:+ post.
Proof.
  revert sub. induction s as [|b s IH]; intros [|a sub]; simpl.
  - split; [by exists ""|done].
  - split; [done|]. by intros [post [=]].
  - split; [by exists (String b s)|done].
  - destruct (Ascii.ascii_dec a b) as [->|Hne].
    + rewrite IH. split.
      * intros [post ->]. by exists post.
      * intros [post [= ->]]. by exists post.
    + split; [done|]. intros [post [= <- _]]. done.
Qed.

Lemma contains_spec (sub s : string) :
  Generation.contains sub s = true ↔ ∃ pre post, s = pre +:+ sub +:+ post.
Proof.
  induction s as [|c s IH]; cbn [Generation.contains]; rewrite orb_true_iff.
  - rewrite prefix_spec. split.
    + intros [[post ->]|[=]]. by exists "", post.
    + intros ([|c pre] & post & Heq); [|discriminate]. left. by exists post.
  - rewrite prefix_spec, IH. split.
    + intros [[post ->]|(pre & post & ->)].
      * by exists "", post.
      * by exists (String c pre), post.
    + intros ([|c' pre] & post & Heq).
      * left. by exists post.
      * right. injection Heq as -> ->. by exists pre, post.
Qed.

Section ParamGroups.
Context {num : Type} `{Scalar num}.
Import MinatoMod Generation.
Implicit Types (named : list (@NamedParam num)) (p : @Param num).

Lemma is_non_decay_spec (name : string) :
  is_non_decay name = true
  ↔ ∃ w pre post, w ∈ non_decay_names ∧ name = pre +:+ w +:+ post.
Proof.
  unfold is_non_decay. rewrite existsb_exists. split.
  - intros (w & Hw & Hc). apply contains_spec in Hc as (pre & post & ->).
    exists w, pre, post. split; [by apply list_elem_of_In|done].
  - intros (w & pre & post & Hw & ->). exists w. split; [by apply list_elem_of_In|].
    apply contains_spec. by exists pre, post.
Qed.

(** X10: [get_param_groups] splits the trainable parameters in two.  It
    always returns two groups, the second with [weight_decay = 0]; together
    they hold the parameters with [requires_grad], each once; a trainable
    parameter is in the second group exactly when its name contains "norm",
    "bias" or "embedding.weight"; frozen parameters are in neither. *)
Theorem get_param_groups_partition named :
  ∃ decay non_decay,
    get_param_groups named
    = [ {| gs_params := decay; gs_weight_decay := None |};
        {| gs_params := non_decay; gs_weight_decay := Some (lit 0) |} ]
    ∧ decay ++ non_decay ≡ₚ np_param <$> filter (λ n, requires_grad n = true) named
    ∧ (∀ p, p ∈ non_decay ↔
            ∃ n, n ∈ named ∧ np_param n = p ∧ requires_grad n = true
                 ∧ ∃ w pre post, w ∈ ["norm"; "bias"; "embedding.weight"]
                                 ∧ np_name n = pre +:+ w +:+ post)
    ∧ (∀ p, p ∈ decay ↔
            ∃ n, n ∈ named ∧ np_param n = p ∧ requires_grad n = true
                 ∧ ¬ ∃ w pre post, w ∈ ["norm"; "bias"; "embedding.weight"]
                                   ∧ np_name n = pre +:+ w +:+ post).
Proof.
  exists (decay_params named), (non_decay_params named).
  split; [reflexivity|]. unfold decay_params, non_decay_params. split; [|split].
  - induction named as [|n named IH]; [done|].
    rewrite !filter_cons.
    destruct (requires_grad n) eqn:Hr, (is_non_decay (np_name n)) eqn:Hnd; simpl;
      repeat (destruct (decide _) as [?|?]; try done; simpl).
    all: try (rewrite <- Permutation_middle); try (by f_equiv); try done.
  - intros p. rewrite list_elem_of_fmap. split.
    + intros (n & -> & Hn). apply list_elem_of_filter in Hn as [Hn Hin].
      apply andb_prop_elim in Hn as [Hr Hnd]. apply Is_true_true in Hr, Hnd.
      exists n. split; [done|]. split; [done|]. split; [done|].
      by apply is_non_decay_spec.
    + intros (n & Hin & <- & Hr & Hnd). exists n. split; [done|].
      apply list_elem_of_filter. split; [|done].
      apply is_non_decay_spec in Hnd. rewrite Hr, Hnd. done.
  - intros p. rewrite list_elem_of_fmap. split.
    + intros (n & -> & Hn). apply list_elem_of_filter in Hn as [Hn Hin].
      apply andb_prop_elim in Hn as [Hr Hnd]. apply Is_true_true in Hr.
      apply negb_prop_elim in Hnd.
      exists n. split; [done|]. split; [done|]. split; [done|].
      intros Hm. apply Hnd. apply Is_true_true. by apply is_non_decay_spec.
    + intros (n & Hin & <- & Hr & Hnd). exists n. split; [done|].
      apply list_elem_of_filter. split; [|done].
      rewrite Hr. simpl. apply negb_prop_intro. intros Hm. apply Hnd.
      apply is_non_decay_spec. by apply Is_true_true.
Qed.

End ParamGroups.

(** ** Construction of the optimizer *)

Lemma Qc_leb_le (x y : Qc) : leb x y = true ↔ (x <= y)%Qc.
Proof.
  cbn. unfold Qcle, Qle. rewrite <- Z.compare_le_iff.
  change ((x ?= y)%Qc) with ((x ?= y)%Q). unfold Qcompare.
  destruct (_ ?= _)%Z; split; try done; intros Hc; by destruct Hc.
Qed.

Lemma Qc_ltb_lt (x y : Qc) : ltb x y = true ↔ (x < y)%Qc.
Proof.
  cbn. unfold Qclt, Qlt. rewrite <- Z.compare_lt_iff.
  change ((x ?= y)%Qc) with ((x ?= y)%Q). unfold Qcompare.
  destruct (_ ?= _)%Z; split; done.
Qed.

Section Construction.
Import MinatoMod Generation.
Implicit Types (gs : list (@group_spec Qc)).

(** The keyword arguments of a call that names every parameter of
    [Minato.__init__]. *)
Lemma Minato_init_unfold gs (l b w : Qc) (mx cp : bool) :
  Minato_init [ ("params", VParams gs); ("lr", VFloat l); ("beta", VFloat b);
                ("weight_decay", VFloat w); ("maximize", VBool mx);
                ("capturable", VBool cp) ]
  = if negb (leb 0%Qc l) then Raise (ValueError "Invalid learning rate")
    else if negb (leb 0%Qc b && ltb b 1%Qc)
    then Raise (ValueError "Invalid beta parameter")
    else if negb (leb 0%Qc w) then Raise (ValueError "Invalid weight_decay value")
    else match gs with
         | [] => Raise (ValueError "optimizer got an empty parameter list")
         | _ => Ok {| defaults := mkHyper b (PyFloat l) w mx cp;
                      param_groups :=
                        (λ s, mkGroup (gs_params s)
                                (mkHyper b (PyFloat l) (default w (gs_weight_decay s)) mx cp))
                        <$> gs;
                      state := ∅ |}
         end.
Proof.
  unfold Minato_init, bind_kwargs.
  match goal with |- context [List.find ?f ?kw] =>
    replace (List.find f kw) with (@None (string * @pyval Qc)) by (vm_compute; reflexivity)
  end.
  rewrite result_bind_Ok. cbn [list_to_map foldr fst snd].
  set (m := <["params":=_]> _).
  assert (m !! "params" = Some (VParams gs)) as Hp
    by (unfold m; by rewrite lookup_insert_eq).
  assert (m !! "lr" = Some (VFloat l)) as Hl
    by (unfold m; rewrite lookup_insert_ne by done; by rewrite lookup_insert_eq).
  assert (m !! "beta" = Some (VFloat b)) as Hb
    by (unfold m; rewrite !lookup_insert_ne by done; by rewrite lookup_insert_eq).
  assert (m !! "weight_decay" = Some (VFloat w)) as Hw
    by (unfold m; rewrite !lookup_insert_ne by done; by rewrite lookup_insert_eq).
  assert (m !! "maximize" = Some (VBool mx)) as Hm
    by (unfold m; rewrite !lookup_insert_ne by done; by rewrite lookup_insert_eq).
  assert (m !! "capturable" = Some (VBool cp)) as Hc
    by (unfold m; rewrite !lookup_insert_ne by done; by rewrite lookup_insert_eq).
  unfold float_arg, bool_arg. rewrite Hp, Hl, Hb, Hw, Hm, Hc.
  rewrite !result_bind_Ok. reflexivity.
Qed.

(** X11: the validation of [Minato.__init__], in exact arithmetic, for a
    call with the keywords [params], [lr], [beta], [weight_decay],
    [maximize] and [capturable].  If the call builds an optimizer then
    [0 <= lr], [0 <= beta < 1], [0 <= weight_decay] and [params] is not
    empty; conversely these conditions are enough when no parameter occurs
    twice in [params] (torch rejects a parameter shared by two groups).  A
    call that fails raises [ValueError], and the learning rate is checked
    first.  The optimizer built has an empty state and one group per entry
    of [params], in order, with the learning rate, beta and flags of the
    call and with the weight decay of the entry when it gives one and of the
    call otherwise. *)
Theorem Minato_init_validation gs (l b w : Qc) (mx cp : bool) :
  let call := Minato_init [ ("params", VParams gs); ("lr", VFloat l);
                            ("beta", VFloat b); ("weight_decay", VFloat w);
                            ("maximize", VBool mx); ("capturable", VBool cp) ] in
  (is_ok call = true → (0 <= l ∧ (0 <= b ∧ b < 1) ∧ 0 <= w)%Qc ∧ gs ≠ [])
  ∧ ((0 <= l ∧ (0 <= b ∧ b < 1) ∧ 0 <= w)%Qc → gs ≠ [] →
     NoDup (gs ≫= λ s, p_id <$> gs_params s) → is_ok call = true)
  ∧ (∀ e, call = Raise e → ∃ msg, e = ValueError msg)
  ∧ (¬ (0 <= l)%Qc → call = Raise (ValueError "Invalid learning rate"))
  ∧ (∀ opt, call = Ok opt →
       state opt = ∅
       ∧ defaults opt = mkHyper b (PyFloat l) w mx cp
       ∧ param_groups opt
         = (λ s, mkGroup (gs_params s)
                   (mkHyper b (PyFloat l) (default w (gs_weight_decay s)) mx cp))
           <$> gs).
Proof.
  intros call. unfold call. rewrite Minato_init_unfold.
  assert ((negb (leb 0%Qc l) = false ∧ negb (leb 0%Qc b && ltb b 1%Qc) = false
           ∧ negb (leb 0%Qc w) = false)
          ↔ (0 <= l ∧ (0 <= b ∧ b < 1) ∧ 0 <= w)%Qc) as Hcond.
  { rewrite !negb_false_iff, andb_true_iff, !Qc_leb_le, Qc_ltb_lt. tauto. }
  assert (negb (leb 0%Qc l) = true ↔ ¬ (0 <= l)%Qc) as Hlr.
  { rewrite negb_true_iff, <- not_true_iff_false, Qc_leb_le. tauto. }
  destruct (negb (leb 0%Qc l)), (negb (leb 0%Qc b && ltb b 1%Qc)),
    (negb (leb 0%Qc w)), gs as [|s gs]; cbn [is_ok].
  all: split; [|split; [|split; [|split]]].
  all: try (intros e [= <-]; eauto; fail).
  all: try (intros opt [=]; fail).
  all: try (intros e [=]; fail).
  all: try (intros opt [= <-]; done).
  all: try (intros Hyp; try done; try (exfalso; by apply Hlr in Hyp); fail).
  all: try (intros Hyp Hne Hnd; try done;
            apply Hcond in Hyp; destruct Hyp as (? & ? & ?); done).
  all: try (intros _; split; [by apply Hcond|done]).
Qed.

(** X12: the optimizer over the groups of [get_param_groups].  With valid
    hyperparameters the construction succeeds for every model (also one
    without trainable parameters), and gives two groups: the first holds the
    trainable parameters whose name has none of the three markers, with the
    weight decay of the call; the second the other trainable parameters,
    with weight decay zero. *)
Theorem Minato_init_get_param_groups (named : list (@NamedParam Qc))
    (l b w : Qc) (mx cp : bool) :
  (0 <= l)%Qc → (0 <= b)%Qc → (b < 1)%Qc → (0 <= w)%Qc →
  ∃ opt,
    Minato_init [ ("params", VParams (get_param_groups named)); ("lr", VFloat l);
                  ("beta", VFloat b); ("weight_decay", VFloat w);
                  ("maximize", VBool mx); ("capturable", VBool cp) ] = Ok opt
    ∧ state opt = ∅
    ∧ param_groups opt
      = [ mkGroup (decay_params named) (mkHyper b (PyFloat l) w mx cp);
          mkGroup (non_decay_params named) (mkHyper b (PyFloat l) 0%Qc mx cp) ].
Proof.
  intros Hl Hb0 Hb1 Hw. rewrite Minato_init_unfold.
  apply Qc_leb_le in Hl, Hb0, Hw. apply Qc_ltb_lt in Hb1.
  rewrite Hl, Hb0, Hb1, Hw. cbn [negb andb get_param_groups].
  eexists. split; [reflexivity|]. split; reflexivity.
Qed.

End Construction.

(** ** The size of the sign step *)

Section StepSize.
Import MinatoMod.
Local Open Scope Qc_scope.
Implicit Types (h : @hyper Qc) (param grad exp_avg step_t : @Tensor Qc).

Local Abbreviation eps15 := (Q2Qc (1 # 1000000000000000)).
Local Abbreviation ratio1 m := (Qcclamp_max (Qcabs m / (0 + eps15)) 1).

Lemma ratio1_scaled (m : Qc) :
  Qcabs m / (0 + eps15) = Qcabs m * Q2Qc (1000000000000000 # 1).
Proof.
  unfold Qcdiv. f_equal.
Qed.

Lemma ratio1_range (m : Qc) : 0 <= ratio1 m ∧ ratio1 m <= 1.
Proof.
  assert (0 <= Qcabs m / (0 + eps15)) as Hx.
  { rewrite ratio1_scaled.
    replace 0 with (0 * Q2Qc (1000000000000000 # 1)) by ring.
    apply Qcmult_le_compat_r; [apply Qcabs_nonneg|done]. }
  unfold Qcclamp_max.
  destruct (_ ?= 1) eqn:Hc.
  - split; [done|]. apply Qcle_alt. by rewrite Hc.
  - split; [done|]. apply Qcle_alt. by rewrite Hc.
  - split; done.
Qed.

Lemma ratio1_saturated (m : Qc) : eps15 <= Qcabs m → ratio1 m = 1.
Proof.
  intros Hm.
  assert (1 <= Qcabs m / (0 + eps15)) as Hx.
  { rewrite ratio1_scaled.
    replace 1 with (eps15 * Q2Qc (1000000000000000 # 1))
      by (apply Qc_is_canon; vm_compute; reflexivity).
    apply Qcmult_le_compat_r; [exact Hm|done]. }
  unfold Qcclamp_max.
  destruct (_ ?= 1) eqn:Hc.
  - by apply Qceq_alt.
  - apply Qclt_alt in Hc. by apply Qcle_not_lt in Hx.
  - done.
Qed.

Lemma Qcsign_cases (m : Qc) :
  (m = 0 ∧ Qcsign m = 0) ∨ Qcabs (Qcsign m) = 1.
Proof.
  unfold Qcsign. destruct (m ?= 0) eqn:Hc.
  - left. split; [by apply Qceq_alt|done].
  - right. apply Qc_is_canon. vm_compute. reflexivity.
  - right. apply Qc_is_canon. vm_compute. reflexivity.
Qed.

(** One element of a returned update. *)
Lemma update_param_elem h param grad exp_avg step_t param' exp_avg' step_t' j p g m :
  update_param h param grad exp_avg step_t = Ok (param', exp_avg', step_t') →
  data param !! j = Some p → data grad !! j = Some g → data exp_avg !! j = Some m →
  data exp_avg' !! j
    = Some (m * beta h + (1 - beta h) * (if maximize h then - g else g))
  ∧ data param' !! j
    = Some (p * (1 - value (lr h) * weight_decay h)
            - value (lr h)
              * (Qcsign (m * beta h + (1 - beta h) * (if maximize h then - g else g))
                 * ratio1 (m * beta h + (1 - beta h) * (if maximize h then - g else g)))).
Proof.
  intros Hu Hjp Hjg Hjm.
  apply update_param_data in Hu as [Hm Hp]. cbv zeta in Hm, Hp.
  assert (data exp_avg' !! j
          = Some (m * beta h + (1 - beta h) * (if maximize h then - g else g))) as Hjm'.
  { rewrite Hm, lookup_zip_with, Hjm. simpl.
    destruct (maximize h); [rewrite list_lookup_fmap|]; rewrite Hjg; done. }
  split; [done|].
  rewrite Hp. unfold addcmul.
  rewrite lookup_zip_with, list_lookup_fmap, Hjp. simpl.
  rewrite lookup_zip_with, list_lookup_fmap. unfold ratio_of.
  rewrite list_lookup_fmap, Hjm'. simpl.
  f_equal. ring.
Qed.


End StepSize.

(** ** The effect of a step on the parameters *)

Section StepEffects.
Context {num : Type} `{Scalar num}.
Import MinatoMod StepEffect.

Lemma NoDup_fmap_eq {A B} (f : A → B) (l : list A) (x y : A) :
  NoDup (f <$> l) → x ∈ l → y ∈ l → f x = f y → x = y.
Proof.
  intros Hnd Hx Hy Hf.
  apply list_elem_of_lookup_1 in Hx as [i Hi]. apply list_elem_of_lookup_1 in Hy as [j Hj].
  assert (i = j) as ->.
  { eapply NoDup_lookup; [exact Hnd| |].
    - rewrite list_lookup_fmap, Hi. reflexivity.
    - rewrite list_lookup_fmap, Hj. simpl. by rewrite Hf. }
  congruence.
Qed.

Lemma Forall2_impl_elem {A B} (P Q : A → B → Prop) (l : list A) (k : list B) :
  Forall2 P l k → (∀ x y, x ∈ l → P x y → Q x y) → Forall2 Q l k.
Proof.
  induction 1 as [|x y l k HP _ IH]; intros HPQ; constructor.
  - apply HPQ; [by left|done].
  - apply IH. intros x' y' Hx'. apply HPQ. by right.
Qed.

(** The four lists of a group, entry by entry. *)
Lemma gather_entries (capt : bool) (ps : list (@Param num)) st r :
  gather capt ps st = Ok r →
  NoDup (p_id <$> ps) →
  ∀ k p, with_grad ps !! k = Some p →
    let s := default (init_state capt p) (st !! p_id p) in
    ∃ g, p_grad p = Some g ∧ ga_grads r !! k = Some g
         ∧ ga_exp_avgs r !! k = Some (st_exp_avg s)
         ∧ ga_steps r !! k = Some (st_step s).
Proof.
  revert st r. induction ps as [|p ps IH]; intros st r; cbn [gather].
  - intros [= <-] _ k q Hk. unfold with_grad in Hk.
    rewrite filter_nil in Hk. by rewrite lookup_nil in Hk.
  - intros Hr Hnd k q Hk. rewrite ?fmap_cons in Hnd.
    apply NoDup_cons in Hnd as [Hnotin Hnd].
    destruct (p_grad p) as [g|] eqn:Hg.
    2:{ rewrite (with_grad_cons_None p ps Hg) in Hk. by apply (IH st r Hr Hnd). }
    destruct (is_sparse g) eqn:Hsp; [discriminate|].
    apply bind_Ok_inv in Hr as (r' & Hr' & Hr). injection Hr as <-.
    rewrite (with_grad_cons_Some p ps g Hg) in Hk. cbn.
    destruct k as [|k]; cbn in Hk |- *.
    + injection Hk as <-. exists g. done.
    + destruct (IH _ r' Hr' Hnd k q Hk) as (g' & Hg' & Hgr & Hm & Hs).
      exists g'. split; [done|]. split; [done|].
      rewrite lookup_insert_ne in Hm, Hs; [done| |].
      all: intros Heq; apply Hnotin; rewrite Heq; apply list_elem_of_fmap;
        exists q; split; [done|]; apply list_elem_of_lookup_2 in Hk;
        by apply with_grad_elem in Hk as [? _].
Qed.

(** The parameters after the in-place updates, entry by entry. *)
Lemma scatter_entries (ps : list (@Param num)) new :
  length new = length (with_grad ps) →
  Forall2 (λ p p', p ∈ ps ∧ p_id p' = p_id p ∧ p_grad p' = p_grad p
                   ∧ match p_grad p with
                     | None => p_data p' = p_data p
                     | Some _ => ∃ k, with_grad ps !! k = Some p
                                      ∧ new !! k = Some (p_data p')
                     end)
          ps (scatter ps new).
Proof.
  revert new. induction ps as [|p ps IH]; intros new Hlen; cbn [scatter]; [constructor|].
  destruct (p_grad p) as [g|] eqn:Hg.
  - rewrite (with_grad_cons_Some p ps g Hg) in Hlen |- *.
    destruct new as [|d new]; [discriminate|]. cbn in Hlen.
    constructor.
    + cbn. rewrite Hg. split; [by left|]. split; [done|]. split; [done|]. by exists 0.
    + eapply Forall2_impl; [apply IH; lia|].
      intros q q' (Hin & Hid & Hgr & Hd). split; [by right|]. split; [done|].
      split; [done|].
      destruct (p_grad q); [|done]. destruct Hd as (k & Hk & Hn). by exists (S k).
  - rewrite (with_grad_cons_None p ps Hg) in Hlen |- *.
    constructor.
    + rewrite Hg. split; [by left|]. done.
    + eapply Forall2_impl; [by apply IH|].
      intros q q' (Hin & Hrest). split; [by right|]. done.
Qed.

Lemma step_group_effect (capt : bool) done st (g : @Group num) done' st' :
  step_group capt (Ok (done, st)) g = Ok (done', st') →
  NoDup (group_ids g) →
  ∃ g', done' = done ++ [g'] ∧ g_hyper g' = g_hyper g
        ∧ Forall2 (updated capt (g_hyper g) st st') (g_params g) (g_params g').
Proof.
  unfold step_group, group_ids. rewrite result_bind_Ok. intros Hstep Hnd.
  apply bind_Ok_inv in Hstep as (r & Hr & Hstep).
  apply bind_Ok_inv in Hstep as ([[params' exp_avgs'] steps'] & Hmin & Hstep).
  injection Hstep as <- <-.
  destruct (gather_spec capt _ st r Hr) as (Hwg & Hgrads & Hlm & Hls & Hout & _).
  pose proof (gather_entries capt _ st r Hr Hnd) as Hent.
  pose proof (minato_loop_spec (g_hyper g) (ga_grads r) (p_data <$> ga_params r)
                (ga_exp_avgs r) (ga_steps r) (length (p_data <$> ga_params r))) as Hloop.
  unfold minato, _single_tensor_minato in Hmin. rewrite Hmin in Hloop.
  destruct Hloop as ((Hlp' & Hlm' & Hls') & _ & Hupd).
  rewrite length_fmap in Hlp', Hupd.
  assert (NoDup (p_id <$> ga_params r)) as Hnd'.
  { rewrite Hwg. by apply with_grad_ids_NoDup. }
  destruct (store_lookup (p_id <$> ga_params r) exp_avgs' steps' (ga_state r))
    as [Hstore_out Hstore_in].
  { rewrite length_fmap. lia. } { rewrite length_fmap. lia. } { done. }
  eexists. split; [done|]. cbn. split; [done|].
  eapply Forall2_impl; [apply scatter_entries; by rewrite <- Hwg|].
  intros p p' (Hin & Hid & Hgr & Hd). unfold updated.
  split; [done|]. split; [done|].
  destruct (p_grad p) as [grad|] eqn:Hg.
  - destruct Hd as (k & Hk & Hnew). cbv zeta.
    destruct (Hent k p Hk) as (g0 & Hg0 & Hgk & Hmk & Hsk). cbv zeta in Hmk, Hsk.
    assert (g0 = grad) as -> by congruence.
    assert (k < length (ga_params r)) as Hklt.
    { rewrite Hwg. by eapply lookup_lt_Some. }
    destruct (Hupd k Hklt) as (p1 & m1 & s1 & Hitem & Hp1 & Hm1 & Hs1).
    assert (p1 = p_data p') as -> by congruence.
    exists m1, s1. split.
    + unfold item_update, getitem in Hitem.
      rewrite list_lookup_fmap, Hwg, Hk, Hgk, Hmk, Hsk in Hitem. exact Hitem.
    + assert ((p_id <$> ga_params r) !! k = Some (p_id p)) as Hidk.
      { by rewrite list_lookup_fmap, Hwg, Hk. }
      destruct (Hstore_in k (p_id p) Hidk) as (m & s & Hm & Hs & Hst).
      rewrite Hst. congruence.
  - split; [exact Hd|].
    assert (p_id p ∉ p_id <$> with_grad (g_params g)) as Hnotin.
    { intros Hx. apply list_elem_of_fmap in Hx as (q & Hq & Hqin).
      apply with_grad_elem in Hqin as [Hqin Hsome]. destruct Hsome as [gq Hgq].
      assert (p = q) as Hpq by exact (NoDup_fmap_eq p_id _ p q Hnd Hin Hqin Hq).
      congruence. }
    rewrite Hstore_out by (by rewrite Hwg). by apply Hout.
Qed.

Lemma updated_state_ext (capt : bool) h st1 st1' st2 st2' (p p' : @Param num) :
  st2 !! p_id p = st1 !! p_id p → st2' !! p_id p = st1' !! p_id p →
  updated capt h st1 st1' p p' → updated capt h st2 st2' p p'.
Proof.
  unfold updated. intros E E' (Hid & Hg & Hu). split; [done|]. split; [done|].
  destruct (p_grad p); rewrite E, E'; exact Hu.
Qed.

Lemma step_groups_effect (capt : bool) (gs : list (@Group num)) done st done' st' :
  foldl (step_group capt) (Ok (done, st)) gs = Ok (done', st') →
  NoDup (gs ≫= group_ids) →
  ∃ gs', done' = done ++ gs' ∧ groups_updated capt st st' gs gs'.
Proof.
  unfold groups_updated.
  revert done st. induction gs as [|g gs IH]; intros done st; cbn [foldl].
  - intros [= <- <-] _. exists []. split; [by rewrite app_nil_r|constructor].
  - intros Hfold Hnd. rewrite bind_cons in Hnd.
    apply NoDup_app in Hnd as (Hnd_g & Hdisj & Hnd_gs).
    destruct (step_group capt (Ok (done, st)) g) as [[done1 st1]|e] eqn:Hg.
    2:{ by rewrite step_groups_Raise in Hfold. }
    destruct (step_group_effect _ _ _ _ _ _ Hg Hnd_g) as (g' & -> & Hh & Hps).
    destruct (step_group_spec _ _ _ _ _ _ Hg Hnd_g) as (_ & Hout1 & _).
    destruct (step_groups_spec _ _ _ _ _ _ Hfold Hnd_gs) as (_ & Hout2 & _).
    destruct (IH _ _ Hfold Hnd_gs) as (gs' & -> & Hgs).
    exists (g' :: gs'). split; [by rewrite <- app_assoc|].
    constructor.
    + split; [done|].
      eapply Forall2_impl_elem; [exact Hps|].
      intros p p' Hp. apply updated_state_ext; [done|].
      apply Hout2. intros g2 q Hg2 Hq Heq.
      apply (Hdisj (p_id p)).
      * apply list_elem_of_fmap. by exists p.
      * rewrite <- Heq. by eapply with_grad_in_ids.
    + eapply Forall2_impl_elem; [exact Hgs|].
      intros g2 g2' Hg2 [Hh2 Hps2]. split; [done|].
      eapply Forall2_impl_elem; [exact Hps2|].
      intros p p' Hp. apply updated_state_ext; [|done].
      symmetry. apply Hout1. intros Hx.
      apply (Hdisj (p_id p)).
      * apply list_elem_of_fmap in Hx as (q & -> & Hq).
        apply with_grad_elem in Hq as [Hq _].
        apply list_elem_of_fmap. by exists q.
      * apply list_elem_of_bind. exists g2. split; [|done].
        apply list_elem_of_fmap. by exists p.
Qed.

(** X14: what [step] does, parameter by parameter.  When a call returns,
    the groups keep their hyperparameters and their parameters, in order.
    A parameter without a gradient keeps its tensor and its state entry (no
    weight decay is applied to it).  A parameter with a gradient holds the
    result of the update rule applied to its tensor, its gradient and its
    state entry before the call (zero momentum and a zero counter if it had
    none), with the hyperparameters of its own group; its state entry holds
    the new momentum and counter. *)
Theorem step_effect (opt opt' : @Minato num) :
  step opt = Ok opt' →
  NoDup (param_ids opt) →
  defaults opt' = defaults opt
  ∧ groups_updated (capturable (defaults opt)) (state opt) (state opt')
                   (param_groups opt) (param_groups opt').
Proof.
  unfold step, param_ids. intros Hstep Hnd.
  apply bind_Ok_inv in Hstep as ([gs' st'] & Hfold & Hstep). injection Hstep as <-.
  cbn. split; [done|].
  destruct (step_groups_effect _ _ _ _ _ _ Hfold Hnd) as (gs2 & -> & Hgs).
  exact Hgs.
Qed.

End StepEffects.

(** ** When a step fails *)

Section StepFailure.
Context {num : Type} `{Scalar num}.
Import MinatoMod.

Lemma gather_Ok_dense (capt : bool) (ps : list (@Param num)) st r :
  gather capt ps st = Ok r → dense_grads ps.
Proof.
  unfold dense_grads.
  revert st r. induction ps as [|p ps IH]; intros st r; cbn [gather]; [constructor|].
  destruct (p_grad p) as [g|] eqn:Hg.
  - destruct (is_sparse g) eqn:Hsp; [discriminate|].
    intros Hr. apply bind_Ok_inv in Hr as (r' & Hr' & _).
    constructor; [|by eapply IH]. intros g' Hg'. congruence.
  - intros Hr. constructor; [|by eapply IH]. intros g' Hg'. congruence.
Qed.

Lemma gather_Raise (capt : bool) (ps : list (@Param num)) st e :
  gather capt ps st = Raise e →
  e = RuntimeError "Hero does not support sparse gradients".
Proof.
  revert st. induction ps as [|p ps IH]; intros st; cbn [gather]; [discriminate|].
  destruct (p_grad p) as [g|]; [|apply IH].
  destruct (is_sparse g); [by intros [= <-]|].
  destruct (gather capt ps _) as [r|e'] eqn:Hr.
  - rewrite result_bind_Ok. discriminate.
  - rewrite result_bind_Raise. intros [= <-]. by eapply IH.
Qed.

Lemma step_groups_Ok_dense (capt : bool) (gs : list (@Group num)) acc r :
  foldl (step_group capt) acc gs = Ok r →
  Forall (λ g, dense_grads (g_params g)) gs.
Proof.
  revert acc. induction gs as [|g gs IH]; intros acc; cbn [foldl]; [constructor|].
  intros Hfold. constructor; [|by eapply IH].
  destruct acc as [[done st]|e].
  2:{ change (step_group capt (Raise e) g) with (@Raise (list (@Group num) * gmap nat (@PState num)) e) in Hfold.
      by rewrite step_groups_Raise in Hfold. }
  destruct (step_group capt (Ok (done, st)) g) as [r1|e] eqn:Hg.
  2:{ by rewrite step_groups_Raise in Hfold. }
  unfold step_group in Hg. rewrite result_bind_Ok in Hg.
  apply bind_Ok_inv in Hg as (ga & Hga & _). by eapply gather_Ok_dense.
Qed.

Lemma step_groups_eager_Raise (capt : bool) (gs : list (@Group num)) done st e :
  eager_real gs →
  foldl (step_group capt) (Ok (done, st)) gs = Raise e →
  e = RuntimeError "Hero does not support sparse gradients".
Proof.
  unfold eager_real. revert done st.
  induction gs as [|g gs IH]; intros done st Her; cbn [foldl]; [discriminate|].
  apply Forall_cons in Her as [[Hc Hr] Her].
  destruct (step_group capt (Ok (done, st)) g) as [[done1 st1]|e1] eqn:Hg.
  - by apply IH.
  - rewrite step_groups_Raise. intros [= <-].
    destruct (gather capt (g_params g) st) as [ga|e2] eqn:Hga.
    + apply gather_Ok_dense in Hga.
      destruct (step_group_total capt done st g Hc Hr Hga) as [r Hr']. congruence.
    + unfold step_group in Hg. rewrite result_bind_Ok, Hga, result_bind_Raise in Hg.
      injection Hg as <-. by eapply gather_Raise.
Qed.

(** X15: sparse gradients.  A call of [step] that returns has met no sparse
    gradient, in any group and in any mode.  In eager mode on real-valued
    parameters this is the only way to fail: the call returns exactly when
    every gradient is dense, and otherwise raises the [RuntimeError] of the
    sparse-gradient check. *)
Theorem step_sparse_gradients (opt : @Minato num) :
  (∀ opt', step opt = Ok opt' →
     Forall (λ g, dense_grads (g_params g)) (param_groups opt))
  ∧ (eager_real (param_groups opt) →
       (is_ok (step opt) = true
        ↔ Forall (λ g, dense_grads (g_params g)) (param_groups opt))
       ∧ ∀ e, step opt = Raise e →
              e = RuntimeError "Hero does not support sparse gradients").
Proof.
  assert (∀ opt', step opt = Ok opt' →
            Forall (λ g, dense_grads (g_params g)) (param_groups opt)) as Hdense.
  { unfold step. intros opt' Hstep.
    apply bind_Ok_inv in Hstep as (r & Hfold & _). by eapply step_groups_Ok_dense. }
  split; [exact Hdense|]. intros Her. split.
  - split.
    + destruct (step opt) as [opt'|e] eqn:Hstep; [|discriminate].
      intros _. by eapply Hdense.
    + intros Hd. by destruct (step_total opt Her Hd) as [opt' ->].
  - unfold step. intros e Hstep.
    destruct (foldl _ _ _) as [[gs st]|e'] eqn:Hfold.
    + rewrite result_bind_Ok in Hstep. discriminate.
    + rewrite result_bind_Raise in Hstep. injection Hstep as <-.
      by eapply step_groups_eager_Raise.
Qed.

Lemma step_groups_Ok_each (capt : bool) (gs : list (@Group num)) done st r g :
  foldl (step_group capt) (Ok (done, st)) gs = Ok r → g ∈ gs →
  ∃ done1 st1 r1, step_group capt (Ok (done1, st1)) g = Ok r1.
Proof.
  revert done st. induction gs as [|g0 gs IH]; intros done st; cbn [foldl].
  - intros _ Hin. by apply elem_of_nil in Hin.
  - intros Hfold Hin.
    destruct (step_group capt (Ok (done, st)) g0) as [[done1 st1]|e] eqn:Hg.
    2:{ by rewrite step_groups_Raise in Hfold. }
    apply elem_of_cons in Hin as [->|Hin]; [eauto|].
    by eapply IH.
Qed.

(** X16: capturable mode with a learning rate that is a Python float.  The
    capturable branch calls [lr.neg()], a method of tensors: when a group
    has [capturable] set, a learning rate that is a float, and a parameter
    with a gradient, [step] does not return, whatever the tensors are. *)
Theorem step_capturable_float_lr (opt : @Minato num) (g : @Group num) (x : num) :
  g ∈ param_groups opt →
  capturable (g_hyper g) = true → lr (g_hyper g) = PyFloat x →
  with_grad (g_params g) ≠ [] →
  is_ok (step opt) = false.
Proof.
  intros Hin Hc Hlr Hne.
  destruct (step opt) as [opt'|e] eqn:Hstep; [|done]. exfalso.
  unfold step in Hstep. apply bind_Ok_inv in Hstep as (r & Hfold & _).
  destruct (step_groups_Ok_each _ _ _ _ _ _ Hfold Hin) as (done1 & st1 & r1 & Hg).
  unfold step_group in Hg. rewrite result_bind_Ok in Hg.
  apply bind_Ok_inv in Hg as (ga & Hga & Hg).
  apply bind_Ok_inv in Hg as (res & Hmin & _).
  destruct (gather_spec _ _ _ _ Hga) as (Hwg & _).
  pose proof (minato_capturable_float (g_hyper g) (ga_grads ga) (p_data <$> ga_params ga)
                (ga_exp_avgs ga) (ga_steps ga) x Hc Hlr) as Hno.
  rewrite Hmin in Hno. cbn in Hno.
  assert (p_data <$> ga_params ga ≠ []) as Hne'.
  { rewrite Hwg. intros Hnil. apply fmap_nil_inv in Hnil. done. }
  by specialize (Hno Hne').
Qed.

End StepFailure.

(** ** The shards of the distributed trainer *)

Section Shards.
Import TrainerMod TrainerData.

Lemma range3_pos (start stop step : Z) :
  (0 < step)%Z →
  ∃ l, range3 start stop step = Ok l
       ∧ NoDup l
       ∧ ∀ s, s ∈ l ↔ (start ≤ s < stop)%Z ∧ ((s - start) mod step = 0)%Z.
Proof.
  intros Hstep. unfold range3.
  destruct (Z.eqb_spec step 0) as [?|_]; [lia|].
  destruct (Z.ltb_spec 0 step) as [_|?]; [|lia].
  eexists. split; [reflexivity|].
  set (n := ((stop - start + step - 1) / step)%Z).
  assert (∀ i : Z, (0 ≤ i)%Z → (i < n ↔ start + i * step < stop)%Z) as Hn.
  { intros i Hi. unfold n. split.
    - intros Hlt.
      assert (i + 1 ≤ (stop - start + step - 1) / step)%Z as Hle by lia.
      pose proof (Z.mul_div_le (stop - start + step - 1) step Hstep) as Hm.
      nia.
    - intros Hlt.
      assert (i + 1 ≤ (stop - start + step - 1) / step)%Z as Hle
        by (apply Z.div_le_lower_bound; [lia|nia]).
      lia. }
  split.
  - apply NoDup_fmap_2_strong; [|apply NoDup_seq].
    intros i j _ _ Heq. nia.
  - intros s. rewrite list_elem_of_fmap. split.
    + intros (i & -> & Hi). apply elem_of_seq in Hi.
      assert (Z.of_nat i < n)%Z as Hlt by lia.
      apply Hn in Hlt; [|lia]. split; [nia|].
      replace (start + Z.of_nat i * step - start)%Z with (Z.of_nat i * step)%Z by lia.
      apply Z.mod_mul. lia.
    + intros [[Hlo Hhi] Hmod].
      apply Z.mod_divide in Hmod as [k Hk]; [|lia].
      assert (0 ≤ k)%Z as Hk0 by nia.
      exists (Z.to_nat k). split; [lia|].
      apply elem_of_seq. split; [lia|].
      assert (k < n)%Z as Hlt by (apply Hn; lia). lia.
Qed.

(** X17: the shards of a process.  [TrainerDDP._load_dataset] accepts only
    the dataset ['pile'] ([ValueError] otherwise) and needs a world size
    that is not zero ([ZeroDivisionError] from the batch size otherwise).
    The shards it passes on are distinct and are the [s] with
    [rank <= s < dataset_shards] and [s - rank] a multiple of the world
    size.  For a rank below the world size these are the shards below
    [dataset_shards] that are congruent to the rank: every shard is read by
    exactly one process, the one of rank [s mod world_size]. *)
Theorem load_dataset_ddp_shards {F : Type} (c : LSWTConfigTraining F)
    (dataset : string) (rank world shards : N) :
  match _load_dataset_ddp c dataset rank world shards with
  | Ok d =>
      dataset = "pile" ∧ (0 < world)%N
      ∧ pd_seq_length d = length_sequence c
      ∧ pd_batch_size d = (batch_size c / world)%N
      ∧ NoDup (pd_pile_shards d)
      ∧ (∀ s, s ∈ pd_pile_shards d
              ↔ (Z.of_N rank ≤ s < Z.of_N shards)%Z
                ∧ ((s - Z.of_N rank) mod Z.of_N world = 0)%Z)
      ∧ ((rank < world)%N →
         ∀ s, s ∈ pd_pile_shards d
              ↔ (0 ≤ s < Z.of_N shards)%Z ∧ (s mod Z.of_N world = Z.of_N rank)%Z)
  | Raise e =>
      (dataset ≠ "pile" ∧ e = ValueError "Invalid dataset choice")
      ∨ (dataset = "pile" ∧ world = 0%N ∧ e = ZeroDivisionError)
  end.
Proof.
  unfold _load_dataset_ddp.
  destruct (String.eqb_spec dataset "pile") as [->|Hne]; [|by left].
  unfold floordiv. destruct (N.eqb_spec world 0) as [->|Hw].
  { rewrite result_bind_Raise. right. done. }
  rewrite result_bind_Ok.
  destruct (range3_pos (Z.of_N rank) (Z.of_N shards) (Z.of_N world)) as (l & -> & Hnd & Hl);
    [lia|].
  rewrite result_bind_Ok. cbn.
  split; [done|]. split; [lia|]. split; [done|]. split; [done|]. split; [done|].
  split; [exact Hl|].
  intros Hrank s. rewrite Hl. split.
  - intros [[Hlo Hhi] Hmod]. split; [lia|].
    apply Z.mod_divide in Hmod as [k Hk]; [|lia].
    replace s with (Z.of_N rank + k * Z.of_N world)%Z by lia.
    rewrite Z.mod_add by lia. apply Z.mod_small. lia.
  - intros [[Hlo Hhi] Hmod].
    pose proof (Z.mod_pos_bound s (Z.of_N world)) as Hb.
    pose proof (Z.div_mod s (Z.of_N world)) as Hdm.
    assert (0 ≤ s / Z.of_N world)%Z as Hq by (apply Z.div_pos; lia).
    split; [nia|].
    replace (s - Z.of_N rank)%Z with (s / Z.of_N world * Z.of_N world)%Z by lia.
    apply Z.mod_mul. lia.
Qed.

End Shards.

(** ** The batch step of the base trainer *)

Section BaseStep.
Context {A Tok Loss Acc Opt : Type}.
Import Modeling TrainerMod TrainerBase.
Variable sub_step_compute :
  Tok → Tok → option (list (list (@KV A))) → Loss * Acc * option (list (list (@KV A))).
Variable optimizer_update : R → Opt → Opt.

Local Abbreviation State := (@TrainerState A Loss Acc Opt).
Local Abbreviation base_step := (group_step (Opt:=Opt) sub_step_compute).
Local Abbreviation ddp_step := (ddp_group_step (Opt:=Opt) sub_step_compute).

Lemma group_step_same_but_sync (xs ys : list Tok) (idx : nat) (s1 s2 : State) :
  same_but_sync s1 s2 →
  same_but_sync (ddp_step xs ys idx s1).1 (base_step xs ys idx s2).1
  ∧ (ddp_step xs ys idx s1).2 = (base_step xs ys idx s2).2.
Proof.
  unfold same_but_sync. intros (Hc & Hg & Hk & Hl & Ha & Hs & Ho & Hlog).
  unfold ddp_group_step, group_step, train_sub_step, mbind, M_bind, bind_, get_state,
    modify_, lift_, ret_. simpl. rewrite Hk. unfold getitem.
  destruct (past_key_values_list s2 !! idx) as [slot|] eqn:Hslot; simpl.
  2:{ by rewrite Hk. }
  destruct (xs !! idx) as [x|] eqn:Hx; simpl.
  2:{ by rewrite Hk. }
  destruct (ys !! idx) as [y|] eqn:Hy; simpl.
  2:{ by rewrite Hk. }
  destruct (sub_step_compute _ _ _) as [[loss acc] pkv]. simpl.
  rewrite !fmap_app, Hk, Hl, Ha, Hlog. done.
Qed.

Lemma for_each_same_but_sync (xs ys : list Tok) (idxs : list nat) (s1 s2 : State) :
  same_but_sync s1 s2 →
  same_but_sync (for_each idxs (ddp_step xs ys) s1).1 (for_each idxs (base_step xs ys) s2).1
  ∧ (for_each idxs (ddp_step xs ys) s1).2 = (for_each idxs (base_step xs ys) s2).2.
Proof.
  revert s1 s2. induction idxs as [|idx idxs IH]; intros s1 s2 Hs; [done|].
  rewrite !for_each_cons.
  destruct (group_step_same_but_sync xs ys idx s1 s2 Hs) as [Hs' Hr].
  destruct (ddp_step xs ys idx s1) as [s1' r1].
  destruct (base_step xs ys idx s2) as [s2' r2]. simpl in Hs', Hr. subst r2.
  destruct r1 as [[]|e]; [by apply IH|done].
Qed.

(** One group of the base trainer whose slot and chunks exist. *)
Lemma group_step_run (xs ys : list Tok) (idx : nat) (s : State) x y old :
  xs !! idx = Some x → ys !! idx = Some y → past_key_values_list s !! idx = Some old →
  base_step xs ys idx s
  = (mkState (train_config s) (batch_groups s) (require_backward_grad_sync s)
       (<[idx := slot_after sub_step_compute x y old]> (past_key_values_list s))
       (metrics_loss s ++ [(sub_step_compute x y (cache_to old "cuda" 0 true)).1.1])
       (metrics_acc s ++ [(sub_step_compute x y (cache_to old "cuda" 0 true)).1.2])
       (optimizer_step s) (the_optimizer s)
       (backward_log s ++ [(idx, require_backward_grad_sync s)]),
     Ok ()).
Proof.
  intros Hx Hy Hold.
  unfold group_step, train_sub_step, mbind, M_bind, bind_, get_state, modify_, lift_,
    ret_, getitem, slot_after. simpl. rewrite Hold. simpl. rewrite Hx. simpl.
  rewrite Hy. simpl.
  destruct (sub_step_compute _ _ _) as [[loss acc] pkv]. simpl.
  unfold set_slot, update_metrics. simpl. rewrite list_insert_insert_eq. done.
Qed.

(** The loop of the base trainer over the groups [a, ..., a+n-1]. *)
Lemma base_loop_effect (xs ys : list Tok) (n a : nat) (s : State) :
  a + n ≤ length (past_key_values_list s) → a + n ≤ length xs → a + n ≤ length ys →
  let s' := (for_each (seq a n) (base_step xs ys) s).1 in
  (for_each (seq a n) (base_step xs ys) s).2 = Ok ()
  ∧ train_config s' = train_config s ∧ batch_groups s' = batch_groups s
  ∧ optimizer_step s' = optimizer_step s ∧ the_optimizer s' = the_optimizer s
  ∧ length (past_key_values_list s') = length (past_key_values_list s)
  ∧ (∀ idx, idx < a ∨ a + n ≤ idx →
       past_key_values_list s' !! idx = past_key_values_list s !! idx)
  ∧ (∀ idx x y old, a ≤ idx < a + n →
       xs !! idx = Some x → ys !! idx = Some y →
       past_key_values_list s !! idx = Some old →
       past_key_values_list s' !! idx = Some (slot_after sub_step_compute x y old))
  ∧ ∃ losses accs,
      metrics_loss s' = metrics_loss s ++ losses
      ∧ metrics_acc s' = metrics_acc s ++ accs
      ∧ length losses = n ∧ length accs = n
      ∧ ∀ k x y old, k < n →
          xs !! (a + k) = Some x → ys !! (a + k) = Some y →
          past_key_values_list s !! (a + k) = Some old →
          losses !! k = Some (sub_step_compute x y (cache_to old "cuda" 0 true)).1.1
          ∧ accs !! k = Some (sub_step_compute x y (cache_to old "cuda" 0 true)).1.2.
Proof.
  revert a s. induction n as [|n IH]; intros a s Hk Hx Hy; cbn [seq].
  - simpl. split; [done|]. split; [done|]. split; [done|]. split; [done|].
    split; [done|]. split; [done|]. split; [done|]. split; [intros; lia|].
    exists [], []. rewrite !app_nil_r. split; [done|]. split; [done|].
    split; [done|]. split; [done|]. intros; lia.
  - rewrite for_each_cons.
    destruct (lookup_lt_is_Some_2 xs a) as [x0 Hx0]; [lia|].
    destruct (lookup_lt_is_Some_2 ys a) as [y0 Hy0]; [lia|].
    destruct (lookup_lt_is_Some_2 (past_key_values_list s) a) as [old0 Hold0]; [lia|].
    rewrite (group_step_run xs ys a s x0 y0 old0 Hx0 Hy0 Hold0).
    set (s1 := mkState _ _ _ _ _ _ _ _ _).
    specialize (IH (S a) s1). cbv zeta in IH.
    destruct IH as (Hr & Hc & Hg & Hs & Ho & Hlen & Hout & Hin & losses & accs
                    & Hl & Ha & Hll & Hla & Hm).
    { unfold s1. simpl. rewrite length_insert. lia. } { lia. } { lia. }
    destruct (for_each (seq (S a) n) _ s1) as [s' r]. simpl in *.
    rewrite length_insert in Hlen.
    split; [done|]. split; [done|]. split; [done|]. split; [done|]. split; [done|].
    split; [done|]. split; [|split].
    + intros idx Hidx. rewrite Hout by lia. apply list_lookup_insert_ne. lia.
    + intros idx x y old Hidx Hxi Hyi Holdi.
      destruct (decide (idx = a)) as [->|Hne].
      * rewrite Hout by lia. rewrite list_lookup_insert_eq by lia.
        congruence.
      * apply Hin; [lia|done|done|]. rewrite list_lookup_insert_ne by lia. done.
    + eexists (_ :: losses), (_ :: accs).
      split; [by rewrite Hl, <- app_assoc|]. split; [by rewrite Ha, <- app_assoc|].
      split; [simpl; lia|]. split; [simpl; lia|].
      intros k x y old Hkn Hxk Hyk Holdk. destruct k as [|k].
      * rewrite Nat.add_0_r in Hxk, Hyk, Holdk. simpl.
        assert (x = x0) as -> by congruence. assert (y = y0) as -> by congruence.
        assert (old = old0) as -> by congruence. done.
      * simpl. replace (a + S k) with (S a + k) in Hxk, Hyk, Holdk by lia.
        apply (Hm k x y old); [lia|done|done|].
        rewrite list_lookup_insert_ne by lia. done.
Qed.

(** X18: what a batch step of the base trainer leaves behind.  With [G]
    accumulation groups and at least [G] cache slots and chunks, every
    group runs: the slot of group [idx] holds the cache it held before,
    moved to the accelerator, passed through the sub-step on the chunks of
    [idx] and moved back to the CPU; the other slots are untouched; one
    loss and one accuracy per group are added to the metrics, in order.
    The step counter is then incremented once, and the optimizer is updated
    once with the learning rate [get_schedule() * lr_max] of the incremented
    counter; if the schedule raises, the counter stays incremented and the
    optimizer is not updated. *)
Theorem train_batch_step_effect (xs ys : list Tok) (s : State) :
  let G := Z.to_nat (batch_groups s) in
  let s' := (train_batch_step sub_step_compute optimizer_update xs ys s).1 in
  let r := (train_batch_step sub_step_compute optimizer_update xs ys s).2 in
  G ≤ length (past_key_values_list s) → G ≤ length xs → G ≤ length ys →
  length (past_key_values_list s') = length (past_key_values_list s)
  ∧ (∀ idx, G ≤ idx → past_key_values_list s' !! idx = past_key_values_list s !! idx)
  ∧ (∀ idx x y old, idx < G →
       xs !! idx = Some x → ys !! idx = Some y →
       past_key_values_list s !! idx = Some old →
       past_key_values_list s' !! idx = Some (slot_after sub_step_compute x y old))
  ∧ (∃ losses accs,
       metrics_loss s' = metrics_loss s ++ losses
       ∧ metrics_acc s' = metrics_acc s ++ accs
       ∧ length losses = G ∧ length accs = G
       ∧ ∀ idx x y old, idx < G →
           xs !! idx = Some x → ys !! idx = Some y →
           past_key_values_list s !! idx = Some old →
           losses !! idx = Some (sub_step_compute x y (cache_to old "cuda" 0 true)).1.1
           ∧ accs !! idx = Some (sub_step_compute x y (cache_to old "cuda" 0 true)).1.2)
  ∧ optimizer_step s' = (optimizer_step s + 1)%N
  ∧ match get_schedule (train_config s) (optimizer_step s + 1) with
    | Ok ratio =>
        r = Ok ()
        ∧ the_optimizer s'
          = optimizer_update (ratio * lr_max (train_config s))%R (the_optimizer s)
    | Raise e => r = Raise e ∧ the_optimizer s' = the_optimizer s
    end.
Proof.
  cbv zeta. intros Hk Hx Hy.
  unfold train_batch_step, mbind, M_bind, bind_, get_state. simpl.
  pose proof (base_loop_effect xs ys (Z.to_nat (batch_groups s)) 0 s) as Hl.
  cbv zeta in Hl. specialize (Hl Hk Hx Hy).
  destruct (for_each _ _ s) as [s1 r1]. simpl in Hl.
  destruct Hl as (-> & Hc & Hg & Hs & Ho & Hlen & Hout & Hin & Hmet).
  unfold train_optim_step, mbind, M_bind, bind_, get_state, modify_, lift_. simpl.
  rewrite Hc, Hs.
  assert (∀ s2 : State,
            past_key_values_list s2 = past_key_values_list s1 →
            metrics_loss s2 = metrics_loss s1 → metrics_acc s2 = metrics_acc s1 →
            length (past_key_values_list s2) = length (past_key_values_list s)
            ∧ (∀ idx, Z.to_nat (batch_groups s) ≤ idx →
                 past_key_values_list s2 !! idx = past_key_values_list s !! idx)
            ∧ (∀ idx x y old, idx < Z.to_nat (batch_groups s) →
                 xs !! idx = Some x → ys !! idx = Some y →
                 past_key_values_list s !! idx = Some old →
                 past_key_values_list s2 !! idx
                 = Some (slot_after sub_step_compute x y old))
            ∧ (∃ losses accs,
                 metrics_loss s2 = metrics_loss s ++ losses
                 ∧ metrics_acc s2 = metrics_acc s ++ accs
                 ∧ length losses = Z.to_nat (batch_groups s)
                 ∧ length accs = Z.to_nat (batch_groups s)
                 ∧ ∀ idx x y old, idx < Z.to_nat (batch_groups s) →
                     xs !! idx = Some x → ys !! idx = Some y →
                     past_key_values_list s !! idx = Some old →
                     losses !! idx
                     = Some (sub_step_compute x y (cache_to old "cuda" 0 true)).1.1
                     ∧ accs !! idx
                       = Some (sub_step_compute x y (cache_to old "cuda" 0 true)).1.2))
    as Hkeep.
  { intros s2 E1 E2 E3. rewrite E1, E2, E3. split; [done|]. split.
    - intros idx Hidx. apply Hout. lia.
    - split; [|exact Hmet]. intros idx x y old Hidx. apply Hin. lia. }
  destruct (get_schedule _ _) as [v|e]; simpl.
  - destruct (Hkeep (set_optimizer
                       (optimizer_update (v * lr_max (train_config s))
                          (the_optimizer (incr_optimizer_step s1)))
                       (incr_optimizer_step s1))) as (K1 & K2 & K3 & K4); try done.
    split; [exact K1|]. split; [exact K2|]. split; [exact K3|]. split; [exact K4|].
    simpl. rewrite Hs, Ho. done.
  - destruct (Hkeep (incr_optimizer_step s1)) as (K1 & K2 & K3 & K4); try done.
    split; [exact K1|]. split; [exact K2|]. split; [exact K3|]. split; [exact K4|].
    simpl. rewrite Hs, Ho. done.
Qed.

Lemma cache_to_cpu_offloaded (c : option (list (list (@KV A)))) (trim : Z) (nb : bool) :
  offloaded (cache_to c "cpu" trim nb).
Proof.
  destruct c as [c|]; [|done]. cbn.
  apply Forall_forall. intros layer Hlayer.
  apply list_elem_of_In, in_map_iff in Hlayer as (l0 & <- & _).
  apply Forall_forall. intros kv Hkv.
  apply list_elem_of_In, in_map_iff in Hkv as (kv0 & <- & _). done.
Qed.

Lemma group_step_offloaded (xs ys : list Tok) (idx : nat) (s : State) :
  Forall offloaded (past_key_values_list s) →
  Forall offloaded (past_key_values_list (ddp_step xs ys idx s).1).
Proof.
  intros Hs.
  unfold ddp_group_step, train_sub_step, mbind, M_bind, bind_, get_state,
    modify_, lift_, ret_. simpl. unfold getitem.
  destruct (past_key_values_list s !! idx) as [slot|] eqn:Hslot; simpl; [|done].
  assert (Forall offloaded (<[idx := None]> (past_key_values_list s))) as Hnone.
  { apply Forall_insert; [done|]. exact I. }
  destruct (xs !! idx) as [x|] eqn:Hx; simpl; [|done].
  destruct (ys !! idx) as [y|] eqn:Hy; simpl; [|done].
  destruct (sub_step_compute _ _ _) as [[loss acc] pkv]. simpl.
  apply Forall_insert; [done|]. apply cache_to_cpu_offloaded.
Qed.

Lemma for_each_offloaded (xs ys : list Tok) (idxs : list nat) (s : State) :
  Forall offloaded (past_key_values_list s) →
  Forall offloaded (past_key_values_list (for_each idxs (ddp_step xs ys) s).1).
Proof.
  revert s. induction idxs as [|idx idxs IH]; intros s Hs; [done|].
  rewrite for_each_cons.
  pose proof (group_step_offloaded xs ys idx s Hs) as Hs1.
  destruct (ddp_step xs ys idx s) as [s1 r1]. simpl in Hs1.
  destruct r1 as [[]|e]; [by apply IH|done].
Qed.

(** X19: the caches kept between batch steps stay off the accelerator.
    The slots created by [_load_cache] are empty, and a batch step, of the
    base trainer or of the distributed one, returning or raising, leaves in
    [past_key_values_list] only empty slots and caches whose tensors are on
    the CPU and detached, if it found only such slots. *)
Theorem batch_step_keeps_cache_offloaded (xs ys : list Tok) (s : State) :
  Forall offloaded (past_key_values_list s) →
  Forall offloaded
    (past_key_values_list (train_batch_step sub_step_compute optimizer_update xs ys s).1)
  ∧ Forall offloaded
      (past_key_values_list
         (train_batch_step_ddp sub_step_compute optimizer_update xs ys s).1)
  ∧ ∀ (c : LSWTConfigTraining R) world slots,
      (@_load_cache R (list (list (@KV A))) c = Ok slots → Forall offloaded slots)
      ∧ (@_load_cache_ddp R (list (list (@KV A))) c world = Ok slots
         → Forall offloaded slots).
Proof.
  intros Hs.
  assert (Forall offloaded
            (past_key_values_list
               (train_batch_step_ddp sub_step_compute optimizer_update xs ys s).1))
    as Hddp.
  { unfold train_batch_step_ddp, mbind, M_bind, bind_, get_state. simpl.
    pose proof (for_each_offloaded xs ys (seq 0 (Z.to_nat (batch_groups s))) s Hs) as Hl.
    destruct (for_each _ _ s) as [s1 r1]. simpl in Hl.
    destruct r1 as [[]|e]; [|done].
    unfold train_optim_step, mbind, M_bind, bind_, get_state, modify_, lift_. simpl.
    by destruct (get_schedule _ _). }
  split; [|split; [exact Hddp|]].
  - assert (same_but_sync s s) as Hss by (by unfold same_but_sync).
    unfold train_batch_step_ddp, train_batch_step, mbind, M_bind, bind_, get_state in *.
    simpl in *.
    destruct (for_each_same_but_sync xs ys (seq 0 (Z.to_nat (batch_groups s))) s s Hss)
      as [Hs' Hr].
    destruct (for_each _ (ddp_step xs ys) s) as [s1 r1].
    destruct (for_each _ (base_step xs ys) s) as [s2 r2]. simpl in Hs', Hr. subst r2.
    destruct Hs' as (Hc & Hg & Hk & Hl & Ha & Hst & Ho & Hlog).
    destruct r1 as [[]|e]; simpl in *; [|by rewrite <- Hk].
    unfold train_optim_step, mbind, M_bind, bind_, get_state, modify_, lift_ in *.
    simpl in *. rewrite <- Hc, <- Hst.
    destruct (get_schedule _ _); simpl in *; by rewrite <- Hk.
  - intros c world slots. unfold _load_cache, _load_cache_ddp, floordiv, none_slots.
    split.
    + destruct (_ =? _)%N; [discriminate|]. rewrite result_bind_Ok. intros [= <-].
      apply Forall_replicate. exact I.
    + destruct (_ =? _)%N; [discriminate|]. rewrite result_bind_Ok. intros [= <-].
      apply Forall_replicate. exact I.
Qed.

(** X20: the override of the distributed trainer.  From the same state and
    on the same chunks, [TrainerDDP.train_batch_step] and
    [Trainer.train_batch_step] raise or return alike and leave the same
    cache slots, metrics, step counter and optimizer; they differ only in
    the gradient synchronisation flag of the model. *)
Theorem train_batch_step_ddp_refines (xs ys : list Tok) (s : State) :
  same_but_sync (train_batch_step_ddp sub_step_compute optimizer_update xs ys s).1
                (train_batch_step sub_step_compute optimizer_update xs ys s).1
  ∧ (train_batch_step_ddp sub_step_compute optimizer_update xs ys s).2
    = (train_batch_step sub_step_compute optimizer_update xs ys s).2.
Proof.
  unfold train_batch_step_ddp, train_batch_step, mbind, M_bind, bind_, get_state.
  simpl.
  assert (same_but_sync s s) as Hs by (by unfold same_but_sync).
  destruct (for_each_same_but_sync xs ys (seq 0 (Z.to_nat (batch_groups s))) s s Hs)
    as [Hs' Hr].
  destruct (for_each _ (ddp_step xs ys) s) as [s1 r1].
  destruct (for_each _ (base_step xs ys) s) as [s2 r2]. simpl in Hs', Hr. subst r2.
  destruct r1 as [[]|e]; [|done].
  destruct Hs' as (Hc & Hg & Hk & Hl & Ha & Hst & Ho & Hlog).
  unfold train_optim_step, mbind, M_bind, bind_, get_state, modify_, lift_. simpl.
  rewrite Hc, Hst, Ho.
  destruct (get_schedule _ _) as [v|e]; simpl; unfold same_but_sync; simpl.
  all: repeat split; congruence.
Qed.

End BaseStep.

(** ** The properties above on concrete inputs *)

Lemma trim_cache_twice_witness :
  Modeling.trim_cache (Modeling.trim_cache [Examples.kv123] (Some 2%Z)) (Some 1%Z)
  = Modeling.trim_cache [Examples.kv123] (Some 1%Z).
Proof. apply (trim_cache_twice [Examples.kv123] 1 2). lia. Defined.

Lemma trim_cache_bounds_witness :
  ((Z.of_nat 3 ≤ 5)%Z → Modeling.trim_cache [Examples.kv123] (Some 5%Z) = [Examples.kv123])
  ∧ ((5 < 0)%Z →
       Modeling.trim_cache [Examples.kv123] (Some 5%Z)
       = (λ kv, Modeling.mkKV (Modeling.kv_device kv) (Modeling.kv_attached kv)
                  (map (map (drop (Z.to_nat (- 5)))) (Modeling.kv_data kv)))
         <$> [Examples.kv123]
       ∧ Forall (Modeling.has_seq_len (3 - Z.to_nat (- 5)))
                (Modeling.trim_cache [Examples.kv123] (Some 5%Z))).
Proof. apply (trim_cache_bounds [Examples.kv123] 3 5). repeat constructor. Defined.

Lemma cache_to_detached_on_device_witness :
  ∃ c, Some [[Examples.kv123]] = Some c
    ∧ Forall2 (Forall2 (λ kv kv',
                 Modeling.kv_attached kv' = false ∧ Modeling.kv_device kv' = "cpu"
                 ∧ (0%Z = 0%Z → Modeling.kv_data kv' = Modeling.kv_data kv)))
        c [[Modeling.mkKV "cpu" false (Modeling.kv_data Examples.kv123)]].
Proof.
  apply (cache_to_detached_on_device (Some [[Examples.kv123]]) "cpu" 0 true).
  reflexivity.
Defined.

Lemma cache_to_twice_witness :
  Modeling.cache_to (Modeling.cache_to (Some [[Examples.kv123]]) "cuda" 0 true) "cpu" 2 true
  = Modeling.cache_to (Some [[Examples.kv123]]) "cpu"
      (if decide (2%Z = 0%Z) then 0%Z else 2%Z) true.
Proof.
  apply (cache_to_twice (Some [[Examples.kv123]]) "cuda" "cpu" 0 2 true true).
  by left.
Defined.

Lemma forward_output_shape_witness :
  length (Modeling.past_key_values MoreExamples.toy_output) = 2
  ∧ length (Modeling.hidden_states MoreExamples.toy_output) = 3
  ∧ (∃ e, last (Modeling.hidden_states MoreExamples.toy_output) = Some e
          ∧ Modeling.last_hidden_state MoreExamples.toy_output = e)
  ∧ (∀ k, Some 2%Z = Some k → (1 ≤ k)%Z →
          Forall (Forall (Generation.at_most (Z.to_nat k)))
                 (Modeling.past_key_values MoreExamples.toy_output)).
Proof.
  apply (forward_output_shape (λ ids : nat, ids) (λ e, e) (λ e, e) (λ e, e) (λ _ _, tt)
           MoreExamples.toy_blocks 2 (Some 7) None None (Some 2%Z)).
  reflexivity.
Defined.

Lemma forward_IndexError_witness :
  (MoreExamples.toy_forward (Some 7) None (Some []) None = Raise IndexError
     ↔ ∃ p : list (list (@Modeling.KV nat)), Some [] = Some p ∧ length p < 2)
  ∧ (∀ e, MoreExamples.toy_forward (Some 7) None (Some []) None = Raise e → e = IndexError).
Proof.
  apply (forward_IndexError (λ ids : nat, ids) (λ e, e) (λ e, e) (λ e, e) (λ _ _, tt)
           MoreExamples.toy_blocks 2 (Some 7) None (Some []) None).
  intros [Hs _]. destruct Hs as [? [=]]. by eexists.
Defined.

Lemma Minato_init_get_param_groups_witness :
  ∃ opt,
    MinatoMod.Minato_init
      [ ("params", MinatoMod.VParams (Generation.get_param_groups MoreExamples.toy_named));
        ("lr", MinatoMod.VFloat 0%Qc);
        ("beta", MinatoMod.VFloat (Q2Qc (9 # 10)));
        ("weight_decay", MinatoMod.VFloat (Q2Qc (1 # 10)));
        ("maximize", MinatoMod.VBool false);
        ("capturable", MinatoMod.VBool false) ] = Ok opt
    ∧ MinatoMod.state opt = ∅
    ∧ MinatoMod.param_groups opt
      = [ MinatoMod.mkGroup (Generation.decay_params MoreExamples.toy_named)
            (MinatoMod.mkHyper (Q2Qc (9 # 10)) (MinatoMod.PyFloat 0%Qc) (Q2Qc (1 # 10))
               false false);
          MinatoMod.mkGroup (Generation.non_decay_params MoreExamples.toy_named)
            (MinatoMod.mkHyper (Q2Qc (9 # 10)) (MinatoMod.PyFloat 0%Qc) 0%Qc false false) ].
Proof.
  apply (Minato_init_get_param_groups MoreExamples.toy_named 0%Qc (Q2Qc (9 # 10))
           (Q2Qc (1 # 10)) false false).
  - unfold Qcle, Qle. simpl. lia.
  - unfold Qcle, Qle. simpl. lia.
  - unfold Qclt, Qlt. simpl. lia.
  - unfold Qcle, Qle. simpl. lia.
Defined.


Lemma step_effect_witness :
  MinatoMod.defaults MoreExamples.one_param_stepped
  = MinatoMod.defaults MoreExamples.one_param_with_grad
  ∧ StepEffect.groups_updated
      (MinatoMod.capturable (MinatoMod.defaults MoreExamples.one_param_with_grad))
      (MinatoMod.state MoreExamples.one_param_with_grad)
      (MinatoMod.state MoreExamples.one_param_stepped)
      (MinatoMod.param_groups MoreExamples.one_param_with_grad)
      (MinatoMod.param_groups MoreExamples.one_param_stepped).
Proof.
  apply (step_effect MoreExamples.one_param_with_grad MoreExamples.one_param_stepped).
  - unfold MoreExamples.one_param_stepped.
    assert (is_ok (MinatoMod.step MoreExamples.one_param_with_grad) = true) as Hok
      by (vm_compute; reflexivity).
    destruct (MinatoMod.step MoreExamples.one_param_with_grad); [reflexivity|discriminate].
  - apply NoDup_singleton.
Defined.

Lemma step_capturable_float_lr_witness :
  is_ok (MinatoMod.step MoreExamples.capturable_float_optimizer) = false.
Proof.
  apply (step_capturable_float_lr MoreExamples.capturable_float_optimizer
           MoreExamples.capturable_float_group (Q2Qc (1 # 10))).
  - apply list_elem_of_here.
  - reflexivity.
  - reflexivity.
  - discriminate.
Defined.

Lemma train_batch_step_effect_witness :
  let s := MoreExamples.toy_trainer in
  let G := Z.to_nat (TrainerMod.batch_groups s) in
  let s' := (TrainerBase.train_batch_step MoreExamples.toy_sub_step
               MoreExamples.toy_optimizer_update [1; 2] [3; 4] s).1 in
  let r := (TrainerBase.train_batch_step MoreExamples.toy_sub_step
              MoreExamples.toy_optimizer_update [1; 2] [3; 4] s).2 in
  length (TrainerMod.past_key_values_list s') = length (TrainerMod.past_key_values_list s)
  ∧ (∀ idx, G ≤ idx →
       TrainerMod.past_key_values_list s' !! idx = TrainerMod.past_key_values_list s !! idx)
  ∧ (∀ idx x y old, idx < G →
       [1; 2] !! idx = Some x → [3; 4] !! idx = Some y →
       TrainerMod.past_key_values_list s !! idx = Some old →
       TrainerMod.past_key_values_list s' !! idx
       = Some (TrainerBase.slot_after MoreExamples.toy_sub_step x y old))
  ∧ (∃ losses accs,
       TrainerMod.metrics_loss s' = TrainerMod.metrics_loss s ++ losses
       ∧ TrainerMod.metrics_acc s' = TrainerMod.metrics_acc s ++ accs
       ∧ length losses = G ∧ length accs = G
       ∧ ∀ idx x y old, idx < G →
           [1; 2] !! idx = Some x → [3; 4] !! idx = Some y →
           TrainerMod.past_key_values_list s !! idx = Some old →
           losses !! idx
           = Some (MoreExamples.toy_sub_step x y (Modeling.cache_to old "cuda" 0 true)).1.1
           ∧ accs !! idx
             = Some (MoreExamples.toy_sub_step x y (Modeling.cache_to old "cuda" 0 true)).1.2)
  ∧ TrainerMod.optimizer_step s' = (TrainerMod.optimizer_step s + 1)%N
  ∧ match TrainerMod.get_schedule (TrainerMod.train_config s)
                                  (TrainerMod.optimizer_step s + 1) with
    | Ok ratio =>
        r = Ok ()
        ∧ TrainerMod.the_optimizer s'
          = MoreExamples.toy_optimizer_update
              (ratio * TrainerMod.lr_max (TrainerMod.train_config s))%R
              (TrainerMod.the_optimizer s)
    | Raise e => r = Raise e ∧ TrainerMod.the_optimizer s' = TrainerMod.the_optimizer s
    end.
Proof.
  apply (train_batch_step_effect MoreExamples.toy_sub_step
           MoreExamples.toy_optimizer_update [1; 2] [3; 4] MoreExamples.toy_trainer).
  - simpl. lia.
  - simpl. lia.
  - simpl. lia.
Defined.

Lemma batch_step_keeps_cache_offloaded_witness :
  Forall TrainerBase.offloaded
    (TrainerMod.past_key_values_list
       (TrainerBase.train_batch_step MoreExamples.toy_sub_step
          MoreExamples.toy_optimizer_update [1; 2] [3; 4] MoreExamples.toy_trainer).1)
  ∧ Forall TrainerBase.offloaded
      (TrainerMod.past_key_values_list
         (TrainerMod.train_batch_step_ddp MoreExamples.toy_sub_step
            MoreExamples.toy_optimizer_update [1; 2] [3; 4] MoreExamples.toy_trainer).1)
  ∧ ∀ (c : TrainerMod.LSWTConfigTraining R) world slots,
      (@TrainerMod._load_cache R (list (list (@Modeling.KV nat))) c = Ok slots
       → Forall TrainerBase.offloaded slots)
      ∧ (@TrainerMod._load_cache_ddp R (list (list (@Modeling.KV nat))) c world = Ok slots
         → Forall TrainerBase.offloaded slots).
Proof.
  apply (batch_step_keeps_cache_offloaded MoreExamples.toy_sub_step
           MoreExamples.toy_optimizer_update [1; 2] [3; 4] MoreExamples.toy_trainer).
  repeat constructor.
Defined.

